(** * TopicTreeDraft: a shallow embedding of uWS::TopicTree

    The development models [src/TopicTreeDraft.h]: the topic trie, its
    [subscribe], [publish], [unsubscribe], [unsubscribeAll] / [trimTree],
    [drain] and [print] operations.  It settles the properties the
    specification states about them, and then proves what the states
    reachable through these operations keep: the shape of the trie, the
    batch, the stored messages, and what each operation leaves alone.

    Modelling conventions.
    - [Topic *] is an index into an arena ([list Topic]); [new Topic]
      appends to the arena.  The source never deletes a [Topic], so a node
      detached from its parent stays in the arena and every pointer kept
      in [triggeredTopics] or in a subscription list stays valid.
    - [Subscriber *] is the address of the subscriber, an integer in
      [0, 2^64): the source orders and compares subscribers by address.
    - [std::map<std::string_view, Topic *>] is a [gmap string nat];
      [std::map<int, std::string>] is an association list kept sorted by
      key, since [drain] iterates it in key order; [std::set<Subscriber *>]
      is a sorted duplicate-free list, since [drain] walks it in order.
    - loops whose trip count is not structural carry a fuel argument;
      [None] means that the fuel ran out.
    - [messageId] and the batch are an integer and a list without bounds;
      the source has an [int] and an array of 64 slots.  [within_limits]
      singles out the states reached without a store past the array and
      without an increment of [INT_MAX], where the two agree. *)

From Stdlib Require Import ZArith Lia Ascii.
From stdpp Require Import gmap strings list fin_maps sorting pretty.

Open Scope Z_scope.

(** ** Machine integers *)

Definition UINTPTR_MAX : Z := 2 ^ 64 - 1.

(** [std::string::npos], the largest [size_t]. *)
Definition npos : Z := 2 ^ 64 - 1.

(** [size_t] arithmetic wraps modulo 2^64. *)
Definition wrap64 (z : Z) : Z := z mod 2 ^ 64.

(** Value of a 32-bit two's complement word. *)
Definition sint32 (z : Z) : Z := (z + 2 ^ 31) mod 2 ^ 32 - 2 ^ 31.

(** [a << i] on [int].  For [i < 31] this is the mathematical shift; for
    [i = 31] the result is [INT_MIN]; for [i >= 32] the language leaves the
    shift undefined and the model follows the x86-64 and AArch64 shift
    instructions, which use the count modulo 32. *)
Definition int_shl (a i : Z) : Z := sint32 (Z.shiftl a (i mod 32)).

(** Conversion of an [int] to [uint64_t] (sign extension). *)
Definition to_uint64 (z : Z) : Z := z mod 2 ^ 64.

(** ** std::string_view *)

Fixpoint find_char (c : ascii) (s : string) (pos : nat) : option nat :=
  match s with
  | EmptyString => None
  | String d s' =>
      if Ascii.eqb d c then Some pos else find_char c s' (S pos)
  end.

Fixpoint drop_string (n : nat) (s : string) : string :=
  match n, s with
  | O, _ => s
  | S n', EmptyString => EmptyString
  | S n', String _ s' => drop_string n' s'
  end.

Fixpoint take_string (n : nat) (s : string) : string :=
  match n, s with
  | O, _ => EmptyString
  | S n', EmptyString => EmptyString
  | S n', String c s' => String c (take_string n' s')
  end.

Definition sv_size (s : string) : Z := Z.of_nat (String.length s).

(** [s.find(c, start)]: index of the first [c] at or after [start], or
    [npos]. *)
Definition sv_find (s : string) (c : ascii) (start : Z) : Z :=
  if sv_size s <=? start then npos
  else match find_char c (drop_string (Z.to_nat start) s) (Z.to_nat start) with
       | Some i => Z.of_nat i
       | None => npos
       end.

(** [s.substr(pos, count)]: [min(count, size - pos)] characters from
    [pos].  The source only calls it with [pos <= size]. *)
Definition sv_substr (s : string) (pos count : Z) : string :=
  let rcount := Z.min count (sv_size s - pos) in
  take_string (Z.to_nat rcount) (drop_string (Z.to_nat pos) s).

(** ** std::set<Subscriber *> *)

Fixpoint set_insert (x : Z) (s : list Z) : list Z :=
  match s with
  | [] => [x]
  | y :: s' =>
      if x <? y then x :: s
      else if x =? y then s
      else y :: set_insert x s'
  end.

Fixpoint set_erase (x : Z) (s : list Z) : list Z :=
  match s with
  | [] => []
  | y :: s' => if x =? y then s' else y :: set_erase x s'
  end.

(** [*s.begin()].  On an empty set this dereferences the end iterator,
    which the language leaves undefined; libstdc++ reads the node count of
    the set's header there, which is 0 for an empty set, and the model
    follows it.  No theorem below depends on that value except where it
    says so. *)
Definition set_begin (s : list Z) : Z :=
  match s with
  | [] => 0
  | x :: _ => x
  end.

(** ** std::map<int, std::string> *)

(** [m[k] = v] *)
Fixpoint map_assign (k : Z) (v : string) (m : list (Z * string)) : list (Z * string) :=
  match m with
  | [] => [(k, v)]
  | (k', v') :: m' =>
      if k <? k' then (k, v) :: m
      else if k =? k' then (k, v) :: m'
      else (k', v') :: map_assign k v m'
  end.

(** [m.insert({k, v})]: an existing key keeps its value. *)
Fixpoint map_insert (k : Z) (v : string) (m : list (Z * string)) : list (Z * string) :=
  match m with
  | [] => [(k, v)]
  | (k', v') :: m' =>
      if k <? k' then (k, v) :: m
      else if k =? k' then m
      else (k', v') :: map_insert k v m'
  end.

(** [m.insert(src.begin(), src.end())] *)
Definition map_insert_range (m src : list (Z * string)) : list (Z * string) :=
  fold_left (fun acc kv => map_insert kv.1 kv.2 acc) src m.

(** ** The data model *)

Record Topic := mkTopic {
  name : string;
  parent : option nat;
  triggered : bool;
  children : gmap string nat;
  wildcardChild : option nat;
  terminatingWildcardChild : option nat;
  messages : list (Z * string);
  subs : list Z
}.

Definition newTopic (nm : string) (par : option nat) : Topic :=
  mkTopic nm par false ∅ None None [] [].

Global Instance Topic_inhabited : Inhabited Topic := populate (newTopic "" None).

(** The tree together with the memory it works on: [topics] is the arena
    of nodes, [subscriptions] holds the [subscriptions] list of every
    [Subscriber] object, by address.  [triggeredTopics] holds the slots
    [0 .. numTriggeredTopics - 1] of the source's array; the source never
    reads a slot at or beyond [numTriggeredTopics]. *)
Record TopicTree := mkTree {
  topics : list Topic;
  root : nat;
  messageId : Z;
  triggeredTopics : list nat;
  min : Z;
  subscriptions : gmap Z (list nat)
}.

Definition numTriggeredTopics (t : TopicTree) : Z :=
  Z.of_nat (length (triggeredTopics t)).

(** Declared size of [triggeredTopics], [it] and [end]. *)
Definition TRIGGERED_CAPACITY : Z := 64.

(** The largest [int]: [messageId] and the keys of [messages] are [int]s. *)
Definition INT_MAX : Z := 2 ^ 31 - 1.

(** [TopicTree(cb)]: a root node and an empty batch. *)
Definition emptyTree : TopicTree :=
  mkTree [newTopic "" None] 0 0 [] UINTPTR_MAX ∅.

Definition node (t : TopicTree) (p : nat) : Topic := topics t !!! p.

Definition set_topics (h : list Topic) (t : TopicTree) : TopicTree :=
  mkTree h (root t) (messageId t) (triggeredTopics t) (min t) (subscriptions t).

(** ** subscribe *)

(** The branch that allocates a node for [segment] below [iterator]. *)
Definition insert_child (h : list Topic) (iterator : nat) (segment : string) : list Topic * nat :=
  let fresh := length h in
  let n := h !!! iterator in
  let n' :=
    mkTopic (name n) (parent n) (triggered n)
      (<[segment := fresh]> (children n))
      (if String.eqb segment "+" then Some fresh else wildcardChild n)
      (if String.eqb segment "#" then Some fresh else terminatingWildcardChild n)
      (messages n) (subs n) in
  (<[iterator := n']> h ++ [newTopic segment (Some iterator)], fresh).

(** The [for] loop of [subscribe], entered at its condition. *)
Fixpoint subscribe_walk (fuel : nat) (topic : string) (h : list Topic)
    (iterator : nat) (start stop : Z) : option (list Topic * nat) :=
  if stop =? npos then Some (h, iterator)
  else
    match fuel with
    | O => None
    | S fuel' =>
        let stop' := sv_find topic "/"%char start in
        let segment := sv_substr topic start (wrap64 (stop' - start)) in
        let '(h', iterator') :=
          match children (h !!! iterator) !! segment with
          | Some c => (h, c)
          | None => insert_child h iterator segment
          end in
        subscribe_walk fuel' topic h' iterator' (wrap64 (stop' + 1)) stop'
    end.

Definition add_sub (subscriber : Z) (n : Topic) : Topic :=
  mkTopic (name n) (parent n) (triggered n) (children n) (wildcardChild n)
    (terminatingWildcardChild n) (messages n) (set_insert subscriber (subs n)).

Definition subscriptions_of (t : TopicTree) (subscriber : Z) : list nat :=
  default [] (subscriptions t !! subscriber).

Definition subscribe_fuel (fuel : nat) (topic : string) (subscriber : Z)
    (t : TopicTree) : option TopicTree :=
  match subscribe_walk fuel topic (topics t) (root t) 0 0 with
  | None => None
  | Some (h, iterator) =>
      Some (mkTree (<[iterator := add_sub subscriber (h !!! iterator)]> h)
              (root t) (messageId t) (triggeredTopics t) (min t)
              (<[subscriber := subscriptions_of t subscriber ++ [iterator]]>
                 (subscriptions t)))
  end.

(** The loop consumes at least one character per iteration, so
    [length topic + 1] iterations always suffice ([subscribe_walk_total]). *)
Definition subscribe (topic : string) (subscriber : Z) (t : TopicTree) : TopicTree :=
  default t (subscribe_fuel (S (String.length topic)) topic subscriber t).

(** ** publish *)

(** Lines 107-119 and 137-149: store the message on a node and, when the
    node was not triggered yet, append it to the batch and lower [min].
    The source stores into an array of [TRIGGERED_CAPACITY] slots without
    a test of the index; the list of the model is that array as long as it
    holds at most [TRIGGERED_CAPACITY] nodes ([within_limits]). *)
Definition publish_store (message : string) (p : nat) (t : TopicTree) : TopicTree :=
  let n := node t p in
  let stored tr :=
    mkTopic (name n) (parent n) tr (children n) (wildcardChild n)
      (terminatingWildcardChild n)
      (map_assign (messageId t) message (messages n)) (subs n) in
  if triggered n then set_topics (<[p := stored true]> (topics t)) t
  else
    mkTree (<[p := stored true]> (topics t)) (root t) (messageId t)
      (triggeredTopics t ++ [p])
      (if set_begin (subs n) <? min t then set_begin (subs n) else min t)
      (subscriptions t).

(** The private [publish(iterator, start, stop, topic, message)]. *)
Fixpoint publish_walk (fuel : nat) (topic message : string) (iterator : nat)
    (start stop : Z) (t : TopicTree) : option TopicTree :=
  if stop =? npos then Some (publish_store message iterator t)
  else
    match fuel with
    | O => None
    | S fuel' =>
        let stop' := sv_find topic "/"%char start in
        let segment := sv_substr topic start (wrap64 (stop' - start)) in
        let t1 :=
          match terminatingWildcardChild (node t iterator) with
          | Some w => publish_store message w t
          | None => t
          end in
        let r2 :=
          match wildcardChild (node t1 iterator) with
          | Some w => publish_walk fuel' topic message w (wrap64 (stop' + 1)) stop' t1
          | None => Some t1
          end in
        match r2 with
        | None => None
        | Some t2 =>
            match children (node t2 iterator) !! segment with
            | None => Some t2
            | Some c => publish_walk fuel' topic message c (wrap64 (stop' + 1)) stop' t2
            end
        end
    end.

(** [messageId++].  The source's [messageId] is an [int]: the increment
    is the one of the model as long as the id is below [INT_MAX]
    ([within_limits]); beyond that the language leaves it undefined. *)
Definition bump_messageId (t : TopicTree) : TopicTree :=
  mkTree (topics t) (root t) (messageId t + 1) (triggeredTopics t) (min t)
    (subscriptions t).

Definition publish_fuel (fuel : nat) (topic message : string) (t : TopicTree)
    : option TopicTree :=
  bump_messageId <$> publish_walk fuel topic message (root t) 0 0 t.

(** Every nested activation starts further right in [topic], so
    [length topic + 1] levels of fuel always suffice
    ([publish_total]). *)
Definition publish (topic message : string) (t : TopicTree) : TopicTree :=
  default t (publish_fuel (S (String.length topic)) topic message t).

(** ** unsubscribeAll and trimTree *)

(** The guard of [trimTree]: no subscribers, no children, no wildcards. *)
Definition unused (n : Topic) : bool :=
  (length (subs n) =? 0)%nat && (size (children n) =? 0)%nat
  && negb (bool_decide (is_Some (terminatingWildcardChild n)))
  && negb (bool_decide (is_Some (wildcardChild n))).

(** What [trimTree] does to the parent of the node called [nm]: clear the
    fast-path pointer that the name designates and erase the entry. *)
Definition detach_child (nm : string) (n : Topic) : Topic :=
  mkTopic (name n) (parent n) (triggered n) (delete nm (children n))
    (if String.eqb nm "#" then wildcardChild n
     else if String.eqb nm "+" then None else wildcardChild n)
    (if String.eqb nm "#" then None else terminatingWildcardChild n)
    (messages n) (subs n).

(** [trimTree(topic)].  [None]: the fuel ran out, or the node to trim has
    a null [parent], which the source dereferences. *)
Fixpoint trimTree (fuel : nat) (rt : nat) (topic : nat) (h : list Topic)
    : option (list Topic) :=
  if unused (h !!! topic) then
    match parent (h !!! topic) with
    | None => None
    | Some par =>
        let h' := <[par := detach_child (name (h !!! topic)) (h !!! par)]> h in
        if (par =? rt)%nat then Some h'
        else
          match fuel with
          | O => None
          | S fuel' => trimTree fuel' rt par h'
          end
    end
  else Some h.

Definition erase_sub (subscriber : Z) (n : Topic) : Topic :=
  mkTopic (name n) (parent n) (triggered n) (children n) (wildcardChild n)
    (terminatingWildcardChild n) (messages n) (set_erase subscriber (subs n)).

(** The range-for of [unsubscribeAll]. *)
Fixpoint unsubscribe_each (fuel : nat) (rt : nat) (subscriber : Z)
    (l : list nat) (h : list Topic) : option (list Topic) :=
  match l with
  | [] => Some h
  | topic :: l' =>
      match trimTree fuel rt topic
              (<[topic := erase_sub subscriber (h !!! topic)]> h) with
      | None => None
      | Some h' => unsubscribe_each fuel rt subscriber l' h'
      end
  end.

(** [unsubscribeAll(subscriber)]; a null subscriber is ignored.  A parent
    is allocated before its children, so a chain of parents is shorter
    than the arena and [length (topics t)] is enough fuel for every
    [trimTree] on a well-formed tree ([unsubscribeAll_ok]). *)
Definition unsubscribeAll (subscriber : Z) (t : TopicTree) : option TopicTree :=
  if subscriber =? 0 then Some t
  else
    (fun h => set_topics h t) <$>
      unsubscribe_each (length (topics t)) (root t) subscriber
        (subscriptions_of t subscriber) (topics t).

(** ** drain *)

(** The variables the inner [for] loop of [drain] updates.  [sc_it]
    collects the cursors already visited; a cursor is the part of a
    subscriber set from [it[i]] to [end[i]]. *)
Record Scan := mkScan {
  sc_it : list (list Z);
  sc_nonEmpty : Z;
  sc_nextMin : Z;
  sc_intersection : Z;
  sc_per : list nat
}.

(** Body of the inner loop for index [i], cursor [cur] and node [p]. *)
Definition scan_step (mn : Z) (i : Z) (cur : list Z) (p : nat) (a : Scan) : Scan :=
  match cur with
  | x :: rest =>
      if x =? mn then
        mkScan (sc_it a ++ [rest])
          (match rest with [] => sc_nonEmpty a - 1 | _ :: _ => sc_nonEmpty a end)
          (match rest with
           | [] => sc_nextMin a
           | y :: _ => if sc_nextMin a >? y then y else sc_nextMin a
           end)
          (Z.lor (sc_intersection a) (to_uint64 (int_shl 1 i)))
          (sc_per a ++ [p])
      else
        mkScan (sc_it a ++ [cur]) (sc_nonEmpty a)
          (if sc_nextMin a >? x then x else sc_nextMin a)
          (sc_intersection a) (sc_per a)
  | [] =>
      mkScan (sc_it a ++ [cur]) (sc_nonEmpty a) (sc_nextMin a)
        (sc_intersection a) (sc_per a)
  end.

Fixpoint scan (mn : Z) (i : Z) (its : list (list Z)) (tt : list nat) (a : Scan) : Scan :=
  match its, tt with
  | cur :: its', p :: tt' => scan mn (i + 1) its' tt' (scan_step mn i cur p a)
  | _, _ => a
  end.

(** Lines 299-309: the union of the message maps in order and without
    duplicates, then its values appended in key order. *)
Definition complete_of (h : list Topic) (per : list nat) : list (Z * string) :=
  fold_left (fun c p => map_insert_range c (messages (h !!! p))) per [].

Definition build_payload (h : list Topic) (per : list nat) : string :=
  fold_left (fun res kv => String.append res kv.2) (complete_of h per) ""%string.

(** The variables of the outer loop.  [calls] records the invocations of
    [cb], oldest first; [built] records the subscribers whose payload was
    built (lines 299-309) rather than taken from the cache. *)
Record Merge := mkMerge {
  it : list (list Z);
  nonEmpty : Z;
  cur_min : Z;
  intersectionCache : gmap Z string;
  calls : list (Z * string);
  built : list Z
}.

(** One iteration of the outer loop (lines 263-317). *)
Definition merge_step (t : TopicTree) (m : Merge) : Merge :=
  let a := scan (cur_min m) 0 (it m) (triggeredTopics t)
             (mkScan [] (nonEmpty m) UINTPTR_MAX 0 []) in
  let key := sc_intersection a in
  let cached := default ""%string (intersectionCache m !! key) in
  if (String.length cached =? 0)%nat then
    let res := build_payload (topics t) (sc_per a) in
    mkMerge (sc_it a) (sc_nonEmpty a) (sc_nextMin a)
      (<[key := res]> (intersectionCache m))
      (calls m ++ [(cur_min m, res)]) (built m ++ [cur_min m])
  else
    mkMerge (sc_it a) (sc_nonEmpty a) (sc_nextMin a) (intersectionCache m)
      (calls m ++ [(cur_min m, cached)]) (built m).

(** [for (int nonEmpty = numTriggeredTopics; nonEmpty; ) ...] *)
Fixpoint merge_loop (fuel : nat) (t : TopicTree) (m : Merge) : option Merge :=
  if nonEmpty m =? 0 then Some m
  else
    match fuel with
    | O => None
    | S fuel' => merge_loop fuel' t (merge_step t m)
    end.

(** Lines 250-258: the cursors at the start of the merge.  The source
    keeps them in arrays of [TRIGGERED_CAPACITY] slots, which hold the
    cursors of the model as long as the batch has at most that many
    nodes. *)
Definition merge_init (t : TopicTree) : Merge :=
  mkMerge (map (fun p => subs (node t p)) (triggeredTopics t))
    (numTriggeredTopics t) (min t) ∅ [] [].

Definition reset_topic (n : Topic) : Topic :=
  mkTopic (name n) (parent n) false (children n) (wildcardChild n)
    (terminatingWildcardChild n) [] (subs n).

(** Lines 322-327. *)
Definition reset_batch (l : list nat) (h : list Topic) : list Topic :=
  fold_left (fun h p => <[p := reset_topic (h !!! p)]> h) l h.

(** [drain()]: the tree afterwards and the invocations of [cb] it made. *)
Definition drain (fuel : nat) (t : TopicTree) : option (TopicTree * list (Z * string)) :=
  if numTriggeredTopics t =? 0 then Some (t, [])
  else
    match merge_loop fuel t (merge_init t) with
    | None => None
    | Some m =>
        Some (mkTree (reset_batch (triggeredTopics t) (topics t)) (root t)
                (messageId t) [] (cur_min m) (subscriptions t),
              calls m)
    end.

(** Number of cursors that have not reached their end. *)
Fixpoint live (its : list (list Z)) : Z :=
  match its with
  | [] => 0
  | [] :: r => live r
  | (_ :: _) :: r => 1 + live r
  end.

(** ** Scenarios used by the examples *)

(** Distinct two-letter topic names: "aa", "ab", ... *)
Definition topic_name (i : nat) : string :=
  String (ascii_of_nat (97 + i / 8)) (String (ascii_of_nat (97 + i mod 8)) "").

(** Subscriber [100 + i] subscribes to the [i]-th topic, for [i < n]. *)
Definition subscribe_many (n : nat) (t : TopicTree) : TopicTree :=
  fold_left (fun t i => subscribe (topic_name i) (100 + Z.of_nat i) t) (seq 0 n) t.

(** The [i]-th topic is published once, with its own name as payload. *)
Definition publish_many (n : nat) (t : TopicTree) : TopicTree :=
  fold_left (fun t i => publish (topic_name i) (topic_name i) t) (seq 0 n) t.

Definition two_topic_batch : TopicTree :=
  publish "a/b" "M1" (subscribe "a/#" 20 (subscribe "a/b" 10 emptyTree)).

(** The batch left by: subscribe, publish, unsubscribeAll. *)
Definition stranded_batch : TopicTree :=
  default emptyTree
    (unsubscribeAll 5 (publish "a" "M" (subscribe "a" 5 emptyTree))).

Definition batch33 : TopicTree := publish_many 33 (subscribe_many 33 emptyTree).

Definition batch65 : TopicTree := publish_many 65 (subscribe_many 65 emptyTree).

(** ** Well-formed arenas *)

(** Every child pointer designates a node of the arena. *)
Definition closed (h : list Topic) : Prop :=
  Forall (fun n => map_Forall (fun (_ : string) (c : nat) => (c < length h)%nat) (children n)) h.

(** ** Well-formed trees *)

(** [p] is not referenced by its parent: neither by the entry under its
    name nor by a fast-path pointer. *)
Definition detached (h : list Topic) (p : nat) : Prop :=
  match parent (h !!! p) with
  | None => True
  | Some q =>
      children (h !!! q) !! name (h !!! p) ≠ Some p
      ∧ wildcardChild (h !!! q) ≠ Some p
      ∧ terminatingWildcardChild (h !!! q) ≠ Some p
  end.

(** No node other than the root is both unused and still referenced by
    its parent. *)
Definition trimmed (h : list Topic) (rt : nat) : Prop :=
  Forall (fun p => p ≠ rt → unused (h !!! p) = true → detached h p) (seq 0 (length h)).

(** The shape [subscribe] gives to node [p]: a parent allocated earlier
    (none for the root), children that name it as their parent and carry
    the key as their name, fast-path pointers that alias the entries under
    "+" and "#", and a sorted subscriber set. *)
Definition node_wf (h : list Topic) (rt : nat) (p : nat) : Prop :=
  match parent (h !!! p) with
  | None => p = rt
  | Some q => (q < p)%nat ∧ p ≠ rt
  end
  ∧ map_Forall (fun k c => (c < length h)%nat ∧ parent (h !!! c) = Some p
                           ∧ name (h !!! c) = k) (children (h !!! p))
  ∧ match wildcardChild (h !!! p) with
    | Some c => children (h !!! p) !! "+"%string = Some c
    | None => True
    end
  ∧ match terminatingWildcardChild (h !!! p) with
    | Some c => children (h !!! p) !! "#"%string = Some c
    | None => True
    end
  ∧ StronglySorted Z.lt (subs (h !!! p)).

Definition wf_arena (h : list Topic) (rt : nat) : Prop :=
  (rt < length h)%nat ∧ Forall (node_wf h rt) (seq 0 (length h)).

(** A well-formed tree: a well-formed arena, and subscription lists that
    hold nodes of the arena other than the root. *)
Definition wf (t : TopicTree) : Prop :=
  wf_arena (topics t) (root t)
  ∧ map_Forall (fun (_ : Z) l =>
                  Forall (fun p => (p < length (topics t))%nat ∧ p ≠ root t) l)
      (subscriptions t).

Global Instance detached_dec (h : list Topic) (p : nat) : Decision (detached h p).
Proof. unfold detached. destruct (parent (h !!! p)); apply _. Defined.

Global Instance node_wf_dec (h : list Topic) (rt p : nat) : Decision (node_wf h rt p).
Proof.
  unfold node_wf.
  destruct (parent (h !!! p)), (wildcardChild (h !!! p)),
    (terminatingWildcardChild (h !!! p)); apply _.
Defined.

Global Instance trimmed_dec (h : list Topic) (rt : nat) : Decision (trimmed h rt).
Proof. unfold trimmed. apply _. Defined.

Global Instance wf_dec (t : TopicTree) : Decision (wf t).
Proof. unfold wf, wf_arena. apply _. Defined.

(** ** The merge of drain, in closed form *)

(** The part of a sorted set at or above [mn]. *)
Fixpoint drop_below (mn : Z) (s : list Z) : list Z :=
  match s with
  | [] => []
  | x :: r => if x <? mn then drop_below mn r else s
  end.

(** Does the cursor point at [mn]? *)
Definition hit (mn : Z) (c : list Z) : bool :=
  match c with
  | x :: _ => x =? mn
  | [] => false
  end.

(** The cursor after one iteration of the outer loop. *)
Definition advance (mn : Z) (c : list Z) : list Z :=
  match c with
  | x :: r => if x =? mn then r else c
  | [] => []
  end.

(** [nextMin] lowered to the head of a cursor. *)
Definition lower (acc : Z) (c : list Z) : Z :=
  match c with
  | y :: _ => if acc >? y then y else acc
  | [] => acc
  end.

(** The bit that [intersection |= (1 << i)] sets for index [i]. *)
Definition bit (i : Z) : Z := to_uint64 (int_shl 1 i).

(** The intersection key of the cursors flagged in [bs], from index [i]. *)
Fixpoint mask_acc (i : Z) (bs : list bool) (acc : Z) : Z :=
  match bs with
  | [] => acc
  | b :: bs' => mask_acc (i + 1) bs' (if b then Z.lor acc (bit i) else acc)
  end.

(** The nodes whose cursor points at [mn]. *)
Fixpoint hit_nodes (mn : Z) (its : list (list Z)) (tt : list nat) : list nat :=
  match its, tt with
  | c :: its', p :: tt' =>
      if hit mn c then p :: hit_nodes mn its' tt' else hit_nodes mn its' tt'
  | _, _ => []
  end.

(** The subscriber sets of the batch, in batch order. *)
Definition triggered_sets (t : TopicTree) : list (list Z) :=
  map (fun p => subs (node t p)) (triggeredTopics t).

(** Which nodes of the batch a subscriber belongs to: as flags, as nodes. *)
Definition pattern (t : TopicTree) (s : Z) : list bool :=
  map (fun S => bool_decide (s ∈ S)) (triggered_sets t).

Definition matched_nodes (t : TopicTree) (s : Z) : list nat :=
  filter (fun p => s ∈ subs (node t p)) (triggeredTopics t).

(** The payload a subscriber is owed: the messages of the nodes of the
    batch it belongs to, merged by sequence id and appended in order. *)
Definition payload_of (t : TopicTree) (s : Z) : string :=
  build_payload (topics t) (matched_nodes t s).

(** The distinct subscribers of the batch, in ascending order. *)
Definition all_subscribers (t : TopicTree) : list Z :=
  foldr (fun S acc => foldr set_insert acc S) [] (triggered_sets t).

(** A batch the merge of [drain] is written for: every node of the batch
    has a sorted, non-empty subscriber set of addresses below
    [UINTPTR_MAX], and [min] is the least of all these subscribers. *)
Definition batch_ok (t : TopicTree) : Prop :=
  Forall (fun S => S ≠ [] ∧ StronglySorted Z.lt S
                   ∧ Forall (fun x => min t <= x < UINTPTR_MAX) S)
    (triggered_sets t)
  ∧ (triggeredTopics t = [] ∨ Exists (fun S => min t ∈ S) (triggered_sets t)).

(** The cache key [drain] computes for a subscriber of the batch. *)
Definition key_of (t : TopicTree) (s : Z) : Z := mask_acc 0 (pattern t s) 0.

(** Number of subscribers the cursors still have to pass. *)
Definition total (its : list (list Z)) : nat := length (concat its).

(** What holds at the head of the outer loop of [drain] on a well-formed
    batch: the cursors are the parts of the sets at or above [min], some
    cursor points at [min] while the loop runs and [min] is [UINTPTR_MAX]
    when it has run to its end, [cb] has been called once
    for each subscriber below [min], in ascending order, and the cache
    holds what was built for the subscribers in [built]. *)
Record merge_inv (t : TopicTree) (m : Merge) : Prop := MergeInv {
  inv_it : it m = map (drop_below (cur_min m)) (triggered_sets t);
  inv_nonEmpty : nonEmpty m = live (it m);
  inv_attained :
    nonEmpty m ≠ 0 → Exists (fun S => cur_min m ∈ S) (triggered_sets t);
  inv_end : nonEmpty m = 0 → cur_min m = UINTPTR_MAX ∨ triggeredTopics t = [];
  inv_sorted : StronglySorted Z.lt (map fst (calls m));
  inv_calls : ∀ s, s ∈ map fst (calls m)
                   ↔ s < cur_min m ∧ Exists (fun S => s ∈ S) (triggered_sets t);
  inv_cache : ∀ k v, intersectionCache m !! k = Some v → v ≠ ""%string →
                ∃ s, s ∈ built m ∧ k = key_of t s ∧ v = payload_of t s;
  inv_cached : ∀ s, s ∈ map fst (calls m) → payload_of t s ≠ ""%string →
                 ∃ v, intersectionCache m !! key_of t s = Some v ∧ v ≠ ""%string;
  inv_payload : ∀ s pl, (s, pl) ∈ calls m →
                  ∃ s', s' ∈ built m ∧ key_of t s' = key_of t s ∧ pl = payload_of t s';
  inv_built : ∀ s, s ∈ built m → s ∈ map fst (calls m);
  inv_keys :
    NoDup (map (key_of t) (filter (fun s => payload_of t s ≠ ""%string) (built m)));
  inv_reuse : ∀ s s1, s ∈ built m → s1 ∈ map fst (calls m) → s1 < s →
                key_of t s1 = key_of t s → payload_of t s1 = ""%string
}.

(** Two subscribers of one topic, and an empty payload published to it. *)
Definition empty_payload_batch : TopicTree :=
  publish "a" "" (subscribe "a" 2 (subscribe "a" 1 emptyTree)).

(** ** publish in closed form *)

(** The nodes the private [publish] stores the message on, in the order of
    the stores: the walk of [publish_walk] over the links of the tree
    alone. *)
Fixpoint publish_targets (fuel : nat) (topic : string) (h : list Topic)
    (iterator : nat) (start stop : Z) : option (list nat) :=
  if stop =? npos then Some [iterator]
  else
    match fuel with
    | O => None
    | S fuel' =>
        let stop' := sv_find topic "/"%char start in
        let segment := sv_substr topic start (wrap64 (stop' - start)) in
        let l1 :=
          match terminatingWildcardChild (h !!! iterator) with
          | Some w => [w]
          | None => []
          end in
        let r2 :=
          match wildcardChild (h !!! iterator) with
          | Some w => publish_targets fuel' topic h w (wrap64 (stop' + 1)) stop'
          | None => Some []
          end in
        match r2 with
        | None => None
        | Some l2 =>
            match children (h !!! iterator) !! segment with
            | None => Some (l1 ++ l2)
            | Some c =>
                match publish_targets fuel' topic h c (wrap64 (stop' + 1)) stop' with
                | None => None
                | Some l3 => Some (l1 ++ l2 ++ l3)
                end
            end
        end
    end.

Definition store_all (message : string) (l : list nat) (t : TopicTree) : TopicTree :=
  fold_left (fun t p => publish_store message p t) l t.

(** Two arenas with the same links: children maps and fast-path pointers. *)
Definition same_links (h h' : list Topic) : Prop :=
  ∀ x, children (h' !!! x) = children (h !!! x)
       ∧ wildcardChild (h' !!! x) = wildcardChild (h !!! x)
       ∧ terminatingWildcardChild (h' !!! x) = terminatingWildcardChild (h !!! x).

(** ** Trees of the wildcard scenarios *)

(** One subscriber of "a/#": node 1 is "a", node 2 is "#". *)
Definition hash_tree (s : Z) : TopicTree := subscribe "a/#" s emptyTree.

(** One subscriber of "a/+/c": node 1 is "a", node 2 is "+", node 3 is "c". *)
Definition plus_tree (s : Z) : TopicTree := subscribe "a/+/c" s emptyTree.

(** The invocations of [cb] made by the first [n] iterations of the merge
    loop of [drain]. *)
Definition merge_prefix (n : nat) (t : TopicTree) : list (Z * string) :=
  calls (Nat.iter n (merge_step t) (merge_init t)).


(** ** Reachable states *)

(** The states the public operations lead to from the empty tree.  A
    subscriber passed to [subscribe] is not null: the source dereferences
    it. *)
Inductive reachable : TopicTree → Prop :=
  | reach_empty : reachable emptyTree
  | reach_subscribe (topic : string) (s : Z) (t : TopicTree) :
      s ≠ 0 → reachable t → reachable (subscribe topic s t)
  | reach_publish (topic message : string) (t : TopicTree) :
      reachable t → reachable (publish topic message t)
  | reach_unsubscribeAll (s : Z) (t t' : TopicTree) :
      reachable t → unsubscribeAll s t = Some t' → reachable t'
  | reach_drain (fuel : nat) (t t' : TopicTree) (log : list (Z * string)) :
      reachable t → drain fuel t = Some (t', log) → reachable t'.

(** The reachable states in which the model is the program: no publish
    has stored past the [TRIGGERED_CAPACITY] slots of [triggeredTopics],
    and no publish has incremented a [messageId] of [INT_MAX]. *)
Inductive within_limits : TopicTree → Prop :=
  | lim_empty : within_limits emptyTree
  | lim_subscribe (topic : string) (s : Z) (t : TopicTree) :
      s ≠ 0 → within_limits t → within_limits (subscribe topic s t)
  | lim_publish (topic message : string) (t : TopicTree) :
      within_limits t → messageId t < INT_MAX →
      numTriggeredTopics (publish topic message t) <= TRIGGERED_CAPACITY →
      within_limits (publish topic message t)
  | lim_unsubscribeAll (s : Z) (t t' : TopicTree) :
      within_limits t → unsubscribeAll s t = Some t' → within_limits t'
  | lim_drain (fuel : nat) (t t' : TopicTree) (log : list (Z * string)) :
      within_limits t → drain fuel t = Some (t', log) → within_limits t'.

(** Two arenas that differ in messages and triggered flags only. *)
Definition same_shape (h h' : list Topic) : Prop :=
  length h' = length h
  ∧ ∀ x, name (h' !!! x) = name (h !!! x)
         ∧ parent (h' !!! x) = parent (h !!! x)
         ∧ children (h' !!! x) = children (h !!! x)
         ∧ wildcardChild (h' !!! x) = wildcardChild (h !!! x)
         ∧ terminatingWildcardChild (h' !!! x) = terminatingWildcardChild (h !!! x)
         ∧ subs (h' !!! x) = subs (h !!! x).

(** ** Disciplined use *)

(** Addresses a subscriber can have: not null, and below the sentinel the
    merge uses for "no subscriber left". *)
Definition valid_subscriber (s : Z) : Prop := 0 < s < UINTPTR_MAX.

(** The use the merge of [drain] is written for: subscriptions change
    only while the batch is empty, and a publish reaches only nodes that
    have subscribers. *)
Inductive disciplined : TopicTree → Prop :=
  | disc_empty : disciplined emptyTree
  | disc_subscribe (topic : string) (s : Z) (t : TopicTree) :
      valid_subscriber s → disciplined t → triggeredTopics t = [] →
      disciplined (subscribe topic s t)
  | disc_unsubscribeAll (s : Z) (t t' : TopicTree) :
      disciplined t → triggeredTopics t = [] → unsubscribeAll s t = Some t' →
      disciplined t'
  | disc_publish (topic message : string) (t : TopicTree) (l : list nat) :
      disciplined t →
      publish_targets (S (String.length topic)) topic (topics t) (root t) 0 0 = Some l →
      Forall (fun p => subs (node t p) ≠ []) l →
      disciplined (publish topic message t)
  | disc_drain (fuel : nat) (t t' : TopicTree) (log : list (Z * string)) :
      disciplined t → drain fuel t = Some (t', log) → disciplined t'.

(** Every subscriber of every node has an address below [UINTPTR_MAX]. *)
Definition bounded (h : list Topic) : Prop :=
  Forall (fun n => Forall (fun x => x < UINTPTR_MAX) (subs n)) h.

(** A batch ready for the merge, and a [min] reset when it is empty. *)
Definition batch_inv (t : TopicTree) : Prop :=
  batch_ok t ∧ (triggeredTopics t = [] → min t = UINTPTR_MAX).

(** ** The merged payload, declaratively *)

(** A message map has strictly ascending keys. *)
Definition sorted_keys (m : list (Z * string)) : Prop :=
  StronglySorted Z.lt (map fst m).

(** [m.find(k)] *)
Fixpoint map_at (k : Z) (m : list (Z * string)) : option string :=
  match m with
  | [] => None
  | (k', v) :: m' => if k =? k' then Some v else map_at k m'
  end.

(** The message with sequence id [k] on the first node of [per] that has
    one. *)
Fixpoint first_at (k : Z) (h : list Topic) (per : list nat) : option string :=
  match per with
  | [] => None
  | p :: per' =>
      match map_at k (messages (h !!! p)) with
      | Some v => Some v
      | None => first_at k h per'
      end
  end.

(** ** Topics as lists of segments *)

(** The segments of a topic: the parts between the separators.  A topic
    with [n] separators has [n + 1] segments, empty ones included; the
    empty topic has one segment, the empty one. *)
Fixpoint segments (s : string) : list string :=
  match s with
  | EmptyString => [EmptyString]
  | String c s' =>
      if Ascii.eqb c "/" then EmptyString :: segments s'
      else match segments s' with
           | x :: r => String c x :: r
           | [] => [String c EmptyString]
           end
  end.

(** The segments put together again, with a separator between two. *)
Fixpoint join_segments (l : list string) : string :=
  match l with
  | [] => EmptyString
  | x :: r =>
      match r with
      | [] => x
      | _ :: _ => String.append x (String "/" (join_segments r))
      end
  end.

(** Does the string hold a separator? *)
Fixpoint has_separator (s : string) : bool :=
  match s with
  | EmptyString => false
  | String c s' => Ascii.eqb c "/" || has_separator s'
  end.

(** The loop of [subscribe] over the segments of the topic. *)
Fixpoint subscribe_path (h : list Topic) (iterator : nat) (segs : list string)
    : list Topic * nat :=
  match segs with
  | [] => (h, iterator)
  | segment :: segs' =>
      let '(h', iterator') :=
        match children (h !!! iterator) !! segment with
        | Some c => (h, c)
        | None => insert_child h iterator segment
        end in
      subscribe_path h' iterator' segs'
  end.

(** The walk of the private [publish] over the segments of the topic. *)
Fixpoint match_targets (h : list Topic) (iterator : nat) (segs : list string)
    : list nat :=
  match segs with
  | [] => [iterator]
  | segment :: segs' =>
      match terminatingWildcardChild (h !!! iterator) with
      | Some w => [w]
      | None => []
      end
      ++ match wildcardChild (h !!! iterator) with
         | Some w => match_targets h w segs'
         | None => []
         end
      ++ match children (h !!! iterator) !! segment with
         | Some c => match_targets h c segs'
         | None => []
         end
  end.

(** The node the children maps lead to from [iterator] along [segs]. *)
Fixpoint follow (h : list Topic) (iterator : nat) (segs : list string) : option nat :=
  match segs with
  | [] => Some iterator
  | segment :: segs' =>
      match children (h !!! iterator) !! segment with
      | Some c => follow h c segs'
      | None => None
      end
  end.

(** ** Invariants of the reachable states *)

(** The fast-path pointers of a node say what its children map says under
    "+" and "#". *)
Definition links_ok (n : Topic) : Prop :=
  wildcardChild n = children n !! "+"%string
  ∧ terminatingWildcardChild n = children n !! "#"%string.

(** The message map of a node: ascending sequence ids, all of them below
    [next], and no message on a node that is not triggered. *)
Definition messages_ok (next : Z) (n : Topic) : Prop :=
  sorted_keys (messages n)
  ∧ Forall (fun k => 0 <= k < next) (map fst (messages n))
  ∧ (triggered n = false → messages n = []).

(** What every operation keeps, with the sequence ids in use below
    [next]. *)
Record tree_inv (next : Z) (t : TopicTree) : Prop := TreeInv {
  ti_links : ∀ p, links_ok (node t p);
  ti_nodup : NoDup (triggeredTopics t);
  ti_flags : ∀ p, p ∈ triggeredTopics t ↔ triggered (node t p) = true;
  ti_messages : ∀ p, messages_ok next (node t p);
  ti_same : ∀ p q k v w,
      (k, v) ∈ messages (node t p) → (k, w) ∈ messages (node t q) → v = w;
  ti_root : subs (node t (root t)) = [] ∧ triggered (node t (root t)) = false
}.

Definition state_inv (t : TopicTree) : Prop :=
  tree_inv (messageId t) t ∧ 0 <= messageId t.

(** What [unsubscribeAll] may do to a node. *)
Definition trims (n n' : Topic) : Prop :=
  name n' = name n ∧ parent n' = parent n
  ∧ triggered n' = triggered n ∧ messages n' = messages n
  ∧ (links_ok n → links_ok n')
  ∧ (∀ x, x ∈ subs n' → x ∈ subs n)
  ∧ children n' ⊆ children n.

(** ** Patterns and topics *)



(** ** Nodes that a trim has dealt with *)

(** A node that [trimTree] leaves alone: the root; a node in use; or an
    unused node whose name has no entry in its parent, the parent being
    such a node too. *)
Inductive settled (h : list Topic) (rt : nat) : nat → Prop :=
  | settled_root : settled h rt rt
  | settled_used (p : nat) : unused (h !!! p) = false → settled h rt p
  | settled_gone (p q : nat) :
      parent (h !!! p) = Some q →
      children (h !!! q) !! name (h !!! p) = None →
      settled h rt q → settled h rt p.

(** ** Topics without wildcards *)

(** A segment that [subscribe] does not take for a wildcard. *)
Definition literal (segment : string) : Prop :=
  segment ≠ "+"%string ∧ segment ≠ "#"%string.

(** An arena without wildcard nodes on the fast paths. *)
Definition plain (h : list Topic) : Prop :=
  ∀ x, wildcardChild (h !!! x) = None ∧ terminatingWildcardChild (h !!! x) = None.

(** ** unsubscribe *)


(** Subscriber 1 subscribes to "a" and unsubscribes; subscriber 2
    subscribes to "a"; subscriber 1, whose list still names its old node,
    unsubscribes again. *)
Definition cut_off_tree : TopicTree :=
  default emptyTree
    (unsubscribeAll 1
       (subscribe "a" 2
          (default emptyTree (unsubscribeAll 1 (subscribe "a" 1 emptyTree))))).

(** ** Nodes linked to the root *)

(** A node whose parent has it under its name, and so on up to the root. *)
Inductive rooted (h : list Topic) (rt : nat) : nat → Prop :=
  | rooted_root : rooted h rt rt
  | rooted_child (p q : nat) :
      parent (h !!! p) = Some q →
      children (h !!! q) !! name (h !!! p) = Some p →
      rooted h rt q → rooted h rt p.

(** ** print *)

(** The order of [std::map<std::string_view, Topic *>]: the keys compared
    as strings of unsigned characters. *)
Definition key_le (a b : string * nat) : Prop := String.leb a.1 b.1 = true.

Global Instance key_le_dec (a b : string * nat) : Decision (key_le a b).
Proof. unfold key_le. apply _. Defined.

(** The entries of a children map in the order [for (auto p : children)]
    visits them. *)
Definition children_in_order (n : Topic) : list (string * nat) :=
  merge_sort key_le (map_to_list (children n)).

Fixpoint indent (indentation : nat) : string :=
  match indentation with
  | O => ""
  | S i => String.append "  " (indent i)
  end.

(** What [print] writes for node [c], up to the [std::endl]. *)
Definition print_line (h : list Topic) (c : nat) (indentation : nat) : string :=
  String.append (indent indentation)
    (String.append (name (h !!! c))
       (String.append " = "
          (String.append (pretty (length (messages (h !!! c))))
             (String.append " publishes, "
                (String.append (pretty (length (subs (h !!! c)))) " subscribers"))))).

(** The body of the range-for of [print]: a line for the child, then
    what the recursive call writes, then the remaining children. *)
Definition print_children (rec : nat → option (list string)) (line : nat → string)
    (l : list (string * nat)) : option (list string) :=
  foldr (fun kc acc =>
           match rec kc.2, acc with
           | Some sub, Some rest => Some (line kc.2 :: sub ++ rest)
           | _, _ => None
           end) (Some []) l.

(** [print(root, indentation)] with a non-null [root]; the output is the
    list of the lines written.  [None]: the fuel ran out. *)
Fixpoint print_below (fuel : nat) (h : list Topic) (root : nat) (indentation : nat)
    : option (list string) :=
  match fuel with
  | O => None
  | S fuel' =>
      print_children (fun c => print_below fuel' h c (S indentation))
        (fun c => print_line h c indentation)
        (children_in_order (h !!! root))
  end.

(** [print(root, indentation)]; a null [root] writes the heading and
    starts at the root of the tree. *)
Definition print (fuel : nat) (t : TopicTree) (root_arg : option nat) (indentation : nat)
    : option (list string) :=
  match root_arg with
  | None => cons "Print of tree:"%string <$> print_below fuel (topics t) (root t) indentation
  | Some r => print_below fuel (topics t) r indentation
  end.

(** The nodes [print] visits below [root], with their indentation. *)
Fixpoint visit (fuel : nat) (h : list Topic) (root : nat) (indentation : nat)
    : list (nat * nat) :=
  match fuel with
  | O => []
  | S fuel' =>
      flat_map (fun kc => (kc.2, indentation) :: visit fuel' h kc.2 (S indentation))
        (children_in_order (h !!! root))
  end.

(** [c] is [x] or one of the nodes above [x]. *)
Inductive above (h : list Topic) (c : nat) : nat → Prop :=
  | above_refl : above h c c
  | above_step (x y : nat) : parent (h !!! x) = Some y → above h c y → above h c x.

(** ** Linked nodes *)

(** Some children map has an entry that leads to [p]. *)
Definition linked (h : list Topic) (p : nat) : Prop :=
  ∃ q k, children (h !!! q) !! k = Some p.

(** The tree after a subscription to "a/b" has come and gone. *)
Definition deserted_tree : TopicTree :=
  default emptyTree (unsubscribeAll 10 (subscribe "a/b" 10 emptyTree)).

(** ** The iterations of the merge *)

(** The variables of the outer loop of [drain] at the head of its
    iteration [n], counted from 0. *)
Definition merge_at (n : nat) (t : TopicTree) : Merge :=
  Nat.iter n (merge_step t) (merge_init t).

(** The loop gets to its iteration [n]: [nonEmpty] was not zero at the
    head of any iteration up to that one. *)
Definition runs (n : nat) (t : TopicTree) : Prop :=
  ∀ j, (j ≤ n)%nat → nonEmpty (merge_at j t) ≠ 0.

(** The value of [intersection] after the inner loop of the iteration that
    starts with the variables [m]: the key under which that iteration
    looks the payload up in [intersectionCache], and stores it. *)
Definition intersection_of (t : TopicTree) (m : Merge) : Z :=
  sc_intersection
    (scan (cur_min m) 0 (it m) (triggeredTopics t)
       (mkScan [] (nonEmpty m) UINTPTR_MAX 0 [])).

(** Two subscribers of one topic, and a message published to it. *)
Definition shared_payload_batch : TopicTree :=
  publish "a" "M" (subscribe "a" 2 (subscribe "a" 1 emptyTree)).

(** * Properties *)

(** ** std::string_view *)

Lemma length_drop_string (n : nat) : ∀ s : string,
  String.length (drop_string n s) = (String.length s - n)%nat.
Proof. induction n as [|n IH]; intros [|c s]; simpl; done. Qed.

Lemma find_char_bounds (c : ascii) (s : string) : ∀ (pos i : nat),
  find_char c s pos = Some i → (pos ≤ i < pos + String.length s)%nat.
Proof.
  induction s as [|d s IH]; intros pos i; simpl; [done|].
  destruct (Ascii.eqb d c).
  - intros [= <-]. lia.
  - intros H. apply IH in H. lia.
Qed.

(** [find] answers [npos] or an index in [start, size). *)
Lemma sv_find_range (s : string) (c : ascii) (start : Z) :
  0 <= start →
  sv_find s c start = npos ∨ start <= sv_find s c start < sv_size s.
Proof.
  intros Hs. unfold sv_find, sv_size.
  destruct (Z.leb_spec (Z.of_nat (String.length s)) start) as [|Hlt]; [by left|].
  destruct (find_char c (drop_string (Z.to_nat start) s) (Z.to_nat start)) as [i|] eqn:E;
    [|by left].
  right. apply find_char_bounds in E. rewrite length_drop_string in E. lia.
Qed.

(** The start of the next iteration, when [find] found a separator. *)
Lemma next_start (s : string) (c : ascii) (start : Z) :
  sv_size s < npos → 0 <= start → sv_find s c start ≠ npos →
  start < wrap64 (sv_find s c start + 1) <= sv_size s.
Proof.
  intros Hsz Hs Hne. destruct (sv_find_range s c start Hs) as [|Hr]; [done|].
  unfold wrap64, npos in *. rewrite Z.mod_small; lia.
Qed.

Lemma append_nil_r (a : string) : String.append a "" = a.
Proof.
  induction a as [|c a IH]; [done|].
  change (String c (String.append a "") = String c a). by rewrite IH.
Qed.

Lemma append_assoc (a b c : string) :
  String.append (String.append a b) c = String.append a (String.append b c).
Proof.
  induction a as [|x a IH]; [done|].
  change (String x (String.append (String.append a b) c)
          = String x (String.append a (String.append b c))).
  by rewrite IH.
Qed.

Lemma fold_append (l : list (Z * string)) : ∀ acc : string,
  fold_left (λ res kv, String.append res kv.2) l acc
  = String.append acc (fold_right String.append ""%string (map snd l)).
Proof.
  induction l as [|[k v] l IH]; intros acc; simpl.
  - by rewrite append_nil_r.
  - by rewrite IH, append_assoc.
Qed.

(** ** std::set<Subscriber *> *)

Lemma set_insert_idem (x : Z) (l : list Z) :
  set_insert x (set_insert x l) = set_insert x l.
Proof.
  induction l as [|y l IH]; simpl.
  - rewrite Z.ltb_irrefl, Z.eqb_refl. done.
  - destruct (Z.ltb_spec x y) as [Hlt|Hge]; simpl.
    + rewrite Z.ltb_irrefl, Z.eqb_refl. done.
    + destruct (Z.eqb_spec x y) as [->|Hne]; simpl.
      * rewrite Z.ltb_irrefl, Z.eqb_refl. done.
      * destruct (Z.ltb_spec x y); [lia|].
        destruct (Z.eqb_spec x y); [lia|]. by rewrite IH.
Qed.

Lemma elem_of_set_insert (x y : Z) (l : list Z) :
  y ∈ set_insert x l ↔ y = x ∨ y ∈ l.
Proof.
  induction l as [|z l IH]; simpl.
  - rewrite list_elem_of_singleton, elem_of_nil. tauto.
  - destruct (Z.ltb_spec x z); [by rewrite elem_of_cons|].
    destruct (Z.eqb_spec x z) as [->|].
    + rewrite elem_of_cons. tauto.
    + rewrite !elem_of_cons, IH. tauto.
Qed.

Lemma StronglySorted_set_erase (x : Z) (l : list Z) :
  StronglySorted Z.lt l → StronglySorted Z.lt (set_erase x l).
Proof.
  induction 1 as [|y l Hs IH Hall]; simpl; [constructor|].
  destruct (x =? y); [done|]. constructor; [done|].
  clear -Hall. induction Hall as [|z l Hz Hall IH]; simpl; [constructor|].
  destruct (x =? z); [done|]. by constructor.
Qed.

Lemma elem_of_set_erase (x y : Z) (l : list Z) :
  y ∈ set_erase x l → y ∈ l.
Proof.
  induction l as [|z l IH]; simpl; [done|].
  destruct (x =? z); rewrite !elem_of_cons; [tauto|]. intros [->|H]; auto.
Qed.

Lemma elem_of_set_erase_ne (x y : Z) (l : list Z) :
  y ≠ x → y ∈ l → y ∈ set_erase x l.
Proof.
  intros Hne. induction l as [|z l IH]; simpl; [done|].
  destruct (Z.eqb_spec x z) as [->|Hxz]; rewrite !elem_of_cons.
  - intros [->|H]; [done|done].
  - intros [->|H]; auto.
Qed.

Lemma not_elem_of_set_erase (x : Z) (l : list Z) :
  StronglySorted Z.lt l → x ∉ set_erase x l.
Proof.
  induction 1 as [|y l Hs IH Hall]; simpl; [by intros ?%elem_of_nil|].
  destruct (Z.eqb_spec x y) as [->|Hne].
  - intros Hin. rewrite Forall_forall in Hall. apply Hall in Hin. lia.
  - rewrite elem_of_cons. intros [->|H]; [done|by apply IH].
Qed.

Lemma StronglySorted_set_insert (x : Z) (l : list Z) :
  StronglySorted Z.lt l → StronglySorted Z.lt (set_insert x l).
Proof.
  induction 1 as [|y l Hs IH Hall]; simpl; [repeat constructor|].
  destruct (Z.ltb_spec x y) as [Hlt|Hge].
  - constructor; [by constructor|]. constructor; [done|].
    eapply Forall_impl; [exact Hall|]. simpl. intros; lia.
  - destruct (Z.eqb_spec x y) as [->|Hne]; [by constructor|].
    constructor; [done|]. apply Forall_forall. intros z Hz.
    apply elem_of_set_insert in Hz as [->|Hz]; [lia|].
    rewrite Forall_forall in Hall. by apply Hall.
Qed.

Lemma StronglySorted_head_le (x y : Z) (r : list Z) :
  StronglySorted Z.lt (x :: r) → y ∈ x :: r → x <= y.
Proof.
  intros Hs Hy. apply StronglySorted_inv in Hs as [_ Hall].
  apply elem_of_cons in Hy as [->|Hy]; [lia|].
  rewrite Forall_forall in Hall. apply Hall in Hy. lia.
Qed.

Lemma StronglySorted_snoc (l : list Z) (x : Z) :
  StronglySorted Z.lt l → (∀ y, y ∈ l → y < x) → StronglySorted Z.lt (l ++ [x]).
Proof.
  intros Hl Hx. apply StronglySorted_app_2; [|done|repeat constructor].
  intros x1 x2 H1 H2. apply list_elem_of_singleton in H2 as ->. by apply Hx.
Qed.

Lemma StronglySorted_lt_NoDup (l : list Z) : StronglySorted Z.lt l → NoDup l.
Proof.
  induction 1 as [|x l Hs IH Hall]; constructor; [|done].
  intros Hin. rewrite Forall_forall in Hall. apply Hall in Hin. lia.
Qed.

Lemma StronglySorted_lt_unique (l k : list Z) :
  StronglySorted Z.lt l → StronglySorted Z.lt k → (∀ x, x ∈ l ↔ x ∈ k) → l = k.
Proof.
  intros Hl Hk Heq. apply (StronglySorted_unique_strong Z.lt); try done.
  - intros x1 x2 _ _ H1 H2. lia.
  - apply NoDup_Permutation; [by apply StronglySorted_lt_NoDup..|done].
Qed.

(** ** std::map<int, std::string> *)

Lemma map_at_None_below (k : Z) (m : list (Z * string)) :
  Forall (λ y, k < y) (map fst m) → map_at k m = None.
Proof.
  induction m as [|[k' v] m IH]; simpl; [done|].
  intros H. apply Forall_cons in H as [Hk H].
  destruct (Z.eqb_spec k k'); [lia|]. by apply IH.
Qed.

Lemma map_at_elem (k : Z) (v : string) (m : list (Z * string)) :
  map_at k m = Some v → (k, v) ∈ m.
Proof.
  induction m as [|[k' v'] m IH]; simpl; [done|].
  destruct (Z.eqb_spec k k') as [->|Hne].
  - intros [= ->]. apply elem_of_cons. by left.
  - intros H. apply elem_of_cons. right. by apply IH.
Qed.

Lemma elem_map_at (k : Z) (v : string) (m : list (Z * string)) :
  sorted_keys m → (k, v) ∈ m → map_at k m = Some v.
Proof.
  unfold sorted_keys. induction m as [|[k' v'] m IH]; simpl.
  - intros _ H. by apply elem_of_nil in H.
  - intros Hs Hin. apply StronglySorted_inv in Hs as [Hs Hall].
    apply elem_of_cons in Hin as [[= -> ->]|Hin].
    + by rewrite Z.eqb_refl.
    + destruct (Z.eqb_spec k k') as [->|Hne]; [|by apply IH].
      rewrite Forall_forall in Hall.
      assert (k' < k'); [|lia]. apply Hall.
      apply list_elem_of_In, in_map_iff. exists (k', v).
      split; [done|by apply list_elem_of_In].
Qed.

Lemma map_insert_keys (k : Z) (v : string) (m : list (Z * string)) (y : Z) :
  y ∈ map fst (map_insert k v m) → y = k ∨ y ∈ map fst m.
Proof.
  induction m as [|[k' v'] m IH]; simpl.
  - rewrite list_elem_of_singleton. tauto.
  - destruct (k <? k'); simpl; [rewrite !elem_of_cons; tauto|].
    destruct (k =? k'); simpl; [tauto|].
    rewrite !elem_of_cons. intros [->|H]; [tauto|]. apply IH in H. tauto.
Qed.

Lemma map_insert_sorted (k : Z) (v : string) (m : list (Z * string)) :
  sorted_keys m → sorted_keys (map_insert k v m).
Proof.
  unfold sorted_keys. induction m as [|[k' v'] m IH]; simpl.
  - intros _. repeat constructor.
  - intros Hs. pose proof Hs as Hs0. apply StronglySorted_inv in Hs as [Hs Hall].
    destruct (Z.ltb_spec k k') as [Hlt|Hge]; simpl.
    + constructor; [done|]. constructor; [done|].
      eapply Forall_impl; [exact Hall|]. simpl. intros; lia.
    + destruct (Z.eqb_spec k k') as [->|Hne]; simpl; [done|].
      constructor; [by apply IH|]. apply Forall_forall. intros y Hy.
      apply map_insert_keys in Hy as [->|Hy]; [lia|].
      rewrite Forall_forall in Hall. by apply Hall.
Qed.

(** [insert] adds the entry unless the key is taken. *)
Lemma map_insert_at (k : Z) (v : string) (m : list (Z * string)) (k' : Z) :
  sorted_keys m →
  map_at k' (map_insert k v m)
  = if k' =? k then Some (default v (map_at k m)) else map_at k' m.
Proof.
  unfold sorted_keys. induction m as [|[k0 v0] m IH]; simpl.
  - intros _. by destruct (k' =? k).
  - intros Hs. apply StronglySorted_inv in Hs as [Hs Hall]. specialize (IH Hs).
    destruct (Z.ltb_spec k k0) as [Hlt|Hge]; simpl.
    + assert (map_at k m = None) as Hnone.
      { apply map_at_None_below. eapply Forall_impl; [exact Hall|]. simpl. intros; lia. }
      rewrite Hnone.
      repeat match goal with
             | |- context [Z.eqb ?a ?b] => destruct (Z.eqb_spec a b)
             end; try lia; done.
    + destruct (Z.eqb_spec k k0) as [E|Hne]; simpl; [|rewrite IH];
        repeat match goal with
               | |- context [Z.eqb ?a ?b] => destruct (Z.eqb_spec a b)
               end; try lia; done.
Qed.

Lemma map_insert_range_sorted (src : list (Z * string)) : ∀ m : list (Z * string),
  sorted_keys m → sorted_keys (map_insert_range m src).
Proof.
  unfold map_insert_range. induction src as [|[k v] src IH]; intros m Hs; simpl; [done|].
  apply IH. by apply map_insert_sorted.
Qed.

(** A range insert is a union that keeps the entries already there, and
    among the inserted ones the first for each key. *)
Lemma map_insert_range_at (src : list (Z * string)) : ∀ (m : list (Z * string)) (k : Z),
  sorted_keys m →
  map_at k (map_insert_range m src)
  = match map_at k m with Some v => Some v | None => map_at k src end.
Proof.
  unfold map_insert_range. induction src as [|[k0 v0] src IH]; intros m k Hs; simpl.
  - by destruct (map_at k m).
  - rewrite IH by (by apply map_insert_sorted).
    rewrite map_insert_at by done.
    destruct (Z.eqb_spec k k0) as [->|Hne]; [|done].
    by destruct (map_at k0 m).
Qed.

(** [m[k] = v] keeps the keys ascending and replaces the entry of [k]. *)
Lemma map_assign_keys (k : Z) (v : string) (m : list (Z * string)) (y : Z) :
  y ∈ map fst (map_assign k v m) → y = k ∨ y ∈ map fst m.
Proof.
  induction m as [|[k' v'] m IH]; simpl.
  - rewrite list_elem_of_singleton. tauto.
  - destruct (k <? k'); simpl; [rewrite !elem_of_cons; tauto|].
    destruct (k =? k'); simpl; rewrite !elem_of_cons; [tauto|].
    intros [->|H]; [tauto|]. apply IH in H. tauto.
Qed.

Lemma map_assign_sorted (k : Z) (v : string) (m : list (Z * string)) :
  sorted_keys m → sorted_keys (map_assign k v m).
Proof.
  unfold sorted_keys. induction m as [|[k' v'] m IH]; simpl.
  - intros _. repeat constructor.
  - intros Hs. pose proof Hs as Hs0. apply StronglySorted_inv in Hs as [Hs Hall].
    destruct (Z.ltb_spec k k') as [Hlt|Hge]; simpl.
    + constructor; [done|]. constructor; [done|].
      eapply Forall_impl; [exact Hall|]. simpl. intros; lia.
    + destruct (Z.eqb_spec k k') as [->|Hne]; simpl; [by constructor|].
      constructor; [by apply IH|]. apply Forall_forall. intros y Hy.
      apply map_assign_keys in Hy as [->|Hy]; [lia|].
      rewrite Forall_forall in Hall. by apply Hall.
Qed.

Lemma map_assign_at (k : Z) (v : string) (m : list (Z * string)) (k' : Z) :
  sorted_keys m →
  map_at k' (map_assign k v m) = if k' =? k then Some v else map_at k' m.
Proof.
  unfold sorted_keys. induction m as [|[k0 v0] m IH]; simpl.
  - intros _. by destruct (k' =? k).
  - intros Hs. apply StronglySorted_inv in Hs as [Hs Hall]. specialize (IH Hs).
    destruct (Z.ltb_spec k k0) as [Hlt|Hge]; simpl.
    + repeat match goal with
             | |- context [Z.eqb ?a ?b] => destruct (Z.eqb_spec a b)
             end; try lia; done.
    + destruct (Z.eqb_spec k k0) as [E|Hne]; simpl; [|rewrite IH];
        repeat match goal with
               | |- context [Z.eqb ?a ?b] => destruct (Z.eqb_spec a b)
               end; try lia; done.
Qed.

(** ** subscribe: the walk *)

Lemma closed_lookup (h : list Topic) (q : nat) (k : string) (c : nat) :
  closed h → children (h !!! q) !! k = Some c → (c < length h)%nat.
Proof.
  intros Hc Hk. destruct (decide (q < length h)%nat) as [Hlt|Hge].
  - apply (Forall_lookup_total_1 _ _ q) in Hc; [|done].
    by apply (map_Forall_lookup_1 _ _ _ _ Hc Hk).
  - rewrite list_lookup_total_alt, lookup_ge_None_2 in Hk by lia. done.
Qed.

Lemma closed_emptyTree : closed (topics emptyTree).
Proof. apply Forall_singleton. apply map_Forall_empty. Qed.

Lemma insert_child_lookup_new (h : list Topic) (iterator : nat) (segment : string) :
  (iterator < length h)%nat →
  children ((insert_child h iterator segment).1 !!! iterator) !! segment
  = Some (length h).
Proof.
  intros Hlt. unfold insert_child. simpl.
  rewrite lookup_total_app_l by (by rewrite length_insert).
  rewrite list_lookup_total_insert_eq by done. simpl.
  apply lookup_insert_eq.
Qed.

Lemma insert_child_keeps (h : list Topic) (iterator : nat) (segment : string)
    (q : nat) (k : string) (c : nat) :
  children (h !!! iterator) !! segment = None →
  (q < length h)%nat →
  children (h !!! q) !! k = Some c →
  children ((insert_child h iterator segment).1 !!! q) !! k = Some c.
Proof.
  intros Hnone Hq Hk. unfold insert_child. simpl.
  rewrite lookup_total_app_l by (by rewrite length_insert).
  destruct (decide (iterator = q)) as [->|Hne].
  - rewrite list_lookup_total_insert_eq by done. simpl.
    rewrite lookup_insert_ne; [done|]. intros ->. congruence.
  - by rewrite list_lookup_total_insert_ne.
Qed.

Lemma insert_child_closed (h : list Topic) (iterator : nat) (segment : string) :
  closed h → closed (insert_child h iterator segment).1.
Proof.
  intros Hc. unfold insert_child, closed. simpl.
  rewrite length_app, length_insert. simpl.
  apply Forall_app. split.
  - apply Forall_insert.
    + eapply Forall_impl; [exact Hc|]. intros n Hn. simpl in Hn.
      eapply map_Forall_impl; [exact Hn|]. simpl. intros; lia.
    + simpl. apply map_Forall_insert_2; [lia|].
      destruct (decide (iterator < length h)%nat) as [Hlt|Hge].
      * apply (Forall_lookup_total_1 _ _ iterator) in Hc; [|done].
        eapply map_Forall_impl; [exact Hc|]. simpl. intros; lia.
      * rewrite list_lookup_total_alt, lookup_ge_None_2 by lia. simpl.
        apply map_Forall_empty.
  - apply Forall_singleton. simpl. apply map_Forall_empty.
Qed.

Lemma insert_child_length (h : list Topic) (iterator : nat) (segment : string) :
  length (insert_child h iterator segment).1 = S (length h).
Proof. unfold insert_child. simpl. rewrite length_app, length_insert. simpl. lia. Qed.

(** The walk only adds: the arena grows, entries of children maps stay,
    pointers stay inside the arena. *)
Lemma subscribe_walk_grows (topic : string) (fuel : nat) :
  ∀ (h : list Topic) (iterator : nat) (start stop : Z) (h' : list Topic) (it' : nat),
  subscribe_walk fuel topic h iterator start stop = Some (h', it') →
  closed h → (iterator < length h)%nat →
  (length h ≤ length h')%nat ∧ closed h' ∧ (it' < length h')%nat
  ∧ ∀ q k c, (q < length h)%nat → children (h !!! q) !! k = Some c →
             children (h' !!! q) !! k = Some c.
Proof.
  induction fuel as [|fuel IH]; intros h iterator start stop h' it'; simpl.
  - destruct (stop =? npos); [|done]. intros [= <- <-]. auto.
  - destruct (stop =? npos); [intros [= <- <-]; auto|].
    set (stop' := sv_find topic "/" start).
    set (segment := sv_substr topic start (wrap64 (stop' - start))).
    destruct (children (h !!! iterator) !! segment) as [c|] eqn:Hc.
    + intros Hw Hcl Hit.
      apply IH in Hw; [done|done|]. by eapply closed_lookup.
    + destruct (insert_child h iterator segment) as [h1 c] eqn:Hic.
      intros Hw Hcl Hit.
      assert (h1 = (insert_child h iterator segment).1) as Hh1 by (by rewrite Hic).
      assert (c = length h) as Hcn by (unfold insert_child in Hic; congruence).
      apply IH in Hw.
      * destruct Hw as (Hlen & Hcl' & Hit' & Hkeep).
        rewrite Hh1, insert_child_length in Hlen.
        repeat split; [lia|done|done|].
        intros q k c' Hq Hk. apply Hkeep.
        -- rewrite Hh1, insert_child_length. lia.
        -- rewrite Hh1. by apply insert_child_keeps.
      * rewrite Hh1. by apply insert_child_closed.
      * rewrite Hh1, insert_child_length. lia.
Qed.

(** Walking the same topic again from the same node finds every node of
    the path and allocates nothing. *)
Lemma subscribe_walk_again (topic : string) (fuel : nat) :
  ∀ (h : list Topic) (iterator : nat) (start stop : Z) (h' : list Topic) (it' : nat),
  subscribe_walk fuel topic h iterator start stop = Some (h', it') →
  closed h → (iterator < length h)%nat →
  subscribe_walk fuel topic h' iterator start stop = Some (h', it').
Proof.
  induction fuel as [|fuel IH]; intros h iterator start stop h' it'; simpl.
  - destruct (stop =? npos); [|done]. by intros [= <- <-].
  - destruct (stop =? npos); [by intros [= <- <-]|].
    set (stop' := sv_find topic "/" start).
    set (segment := sv_substr topic start (wrap64 (stop' - start))).
    destruct (children (h !!! iterator) !! segment) as [c|] eqn:Hc.
    + intros Hw Hcl Hit.
      assert (c < length h)%nat as Hclt by (by eapply closed_lookup).
      destruct (subscribe_walk_grows _ _ _ _ _ _ _ _ Hw Hcl Hclt) as (_ & _ & _ & Hkeep).
      rewrite (Hkeep _ _ _ Hit Hc). by eapply IH.
    + destruct (insert_child h iterator segment) as [h1 c] eqn:Hic.
      intros Hw Hcl Hit.
      assert (h1 = (insert_child h iterator segment).1) as Hh1 by (by rewrite Hic).
      assert (c = length h) as Hcn by (unfold insert_child in Hic; congruence).
      assert (closed h1) as Hcl1 by (rewrite Hh1; by apply insert_child_closed).
      assert (c < length h1)%nat as Hclt
        by (rewrite Hh1, insert_child_length; lia).
      destruct (subscribe_walk_grows _ _ _ _ _ _ _ _ Hw Hcl1 Hclt) as (_ & _ & _ & Hkeep).
      rewrite (Hkeep iterator segment c).
      * by eapply IH.
      * rewrite Hh1, insert_child_length. lia.
      * rewrite Hh1, Hcn. by apply insert_child_lookup_new.
Qed.

Lemma subscribe_walk_npos (fuel : nat) (topic : string) (h : list Topic) (iterator : nat)
    (start : Z) :
  subscribe_walk fuel topic h iterator start npos = Some (h, iterator).
Proof. by destruct fuel. Qed.

(** The loop of [subscribe] ends within [size - start + 1] iterations. *)
Lemma subscribe_walk_total (topic : string) (fuel : nat) :
  sv_size topic < npos →
  ∀ (h : list Topic) (iterator : nat) (start stop : Z),
  0 <= start <= sv_size topic → sv_size topic - start < Z.of_nat fuel →
  is_Some (subscribe_walk fuel topic h iterator start stop).
Proof.
  intros Hsz. induction fuel as [|fuel IH]; intros h iterator start stop Hs Hf; simpl.
  - lia.
  - destruct (stop =? npos); [done|].
    set (stop' := sv_find topic "/" start).
    set (segment := sv_substr topic start (wrap64 (stop' - start))).
    destruct (match children (h !!! iterator) !! segment with
              | Some c => (h, c)
              | None => insert_child h iterator segment
              end) as [h1 c].
    destruct (decide (stop' = npos)) as [->|Hne].
    + rewrite subscribe_walk_npos. done.
    + pose proof (next_start topic "/" start Hsz (proj1 Hs) Hne).
      apply IH; fold stop' in H; lia.
Qed.

(** The walk reads nothing but the children maps. *)
Lemma subscribe_walk_add_sub (topic : string) (s : Z) (p : nat) (fuel : nat) :
  ∀ (h : list Topic) (iterator : nat) (start stop : Z) (it' : nat),
  subscribe_walk fuel topic h iterator start stop = Some (h, it') →
  closed h → (iterator < length h)%nat →
  subscribe_walk fuel topic (<[p := add_sub s (h !!! p)]> h) iterator start stop
  = Some (<[p := add_sub s (h !!! p)]> h, it').
Proof.
  induction fuel as [|fuel IH]; intros h iterator start stop it'; simpl.
  - destruct (stop =? npos); [|done]. by intros [= <-].
  - destruct (stop =? npos); [by intros [= <-]|].
    set (stop' := sv_find topic "/" start).
    set (segment := sv_substr topic start (wrap64 (stop' - start))).
    intros Hw Hcl Hit.
    assert (children (<[p := add_sub s (h !!! p)]> h !!! iterator)
            = children (h !!! iterator)) as ->.
    { destruct (decide (p = iterator)) as [->|Hne].
      - by rewrite list_lookup_total_insert_eq.
      - by rewrite list_lookup_total_insert_ne. }
    destruct (children (h !!! iterator) !! segment) as [c|] eqn:Hc.
    + apply IH; [done|done|]. by eapply closed_lookup.
    + exfalso.
      destruct (insert_child h iterator segment) as [h1 c] eqn:Hic.
      assert (h1 = (insert_child h iterator segment).1) as Hh1 by (by rewrite Hic).
      assert (c = length h) as Hcn by (unfold insert_child in Hic; congruence).
      apply subscribe_walk_grows in Hw as (Hlen & _).
      * rewrite Hh1, insert_child_length in Hlen. lia.
      * rewrite Hh1. by apply insert_child_closed.
      * rewrite Hh1, insert_child_length. lia.
Qed.

Lemma subscribe_unfold (topic : string) (s : Z) (t : TopicTree) :
  sv_size topic < npos →
  ∃ h it,
    subscribe_walk (S (String.length topic)) topic (topics t) (root t) 0 0 = Some (h, it)
    ∧ subscribe topic s t
      = mkTree (<[it := add_sub s (h !!! it)]> h) (root t) (messageId t)
          (triggeredTopics t) (min t)
          (<[s := subscriptions_of t s ++ [it]]> (subscriptions t)).
Proof.
  intros Hsz.
  destruct (subscribe_walk_total topic (S (String.length topic)) Hsz (topics t) (root t) 0 0)
    as [[h it] Hw]; [unfold sv_size; lia|unfold sv_size; lia|].
  exists h, it. split; [done|].
  unfold subscribe, subscribe_fuel. rewrite Hw. done.
Qed.

(** [subscribe], given the node its walk ends on. *)
Lemma subscribe_eq (topic : string) (s : Z) (t : TopicTree) (h : list Topic) (it : nat) :
  subscribe_walk (S (String.length topic)) topic (topics t) (root t) 0 0 = Some (h, it) →
  subscribe topic s t
  = mkTree (<[it := add_sub s (h !!! it)]> h) (root t) (messageId t)
      (triggeredTopics t) (min t)
      (<[s := subscriptions_of t s ++ [it]]> (subscriptions t)).
Proof. intros Hw. unfold subscribe, subscribe_fuel. by rewrite Hw. Qed.

Lemma subscribe_fields (topic : string) (s : Z) (t : TopicTree) :
  triggeredTopics (subscribe topic s t) = triggeredTopics t
  ∧ min (subscribe topic s t) = min t.
Proof.
  unfold subscribe, subscribe_fuel.
  by destruct (subscribe_walk _ _ _ _ _ _) as [[h it]|].
Qed.

(** ** subscribe: a second call *)

(** C10, as the code has it: a second [subscribe] of the same subscriber
    to the same pattern leaves the tree as the first one made it, the
    subscriber set of the terminal node included, and appends the terminal
    node to the subscriber's [subscriptions] list once more. *)
Theorem subscribe_twice (topic : string) (s : Z) (t : TopicTree) :
  sv_size topic < npos → closed (topics t) → (root t < length (topics t))%nat →
  topics (subscribe topic s (subscribe topic s t)) = topics (subscribe topic s t)
  ∧ root (subscribe topic s (subscribe topic s t)) = root (subscribe topic s t)
  ∧ messageId (subscribe topic s (subscribe topic s t)) = messageId (subscribe topic s t)
  ∧ triggeredTopics (subscribe topic s (subscribe topic s t))
    = triggeredTopics (subscribe topic s t)
  ∧ min (subscribe topic s (subscribe topic s t)) = min (subscribe topic s t)
  ∧ (∀ s', s' ≠ s →
        subscriptions_of (subscribe topic s (subscribe topic s t)) s'
        = subscriptions_of (subscribe topic s t) s')
  ∧ ∃ p, s ∈ subs (node (subscribe topic s t) p)
      ∧ subscriptions_of (subscribe topic s t) s = subscriptions_of t s ++ [p]
      ∧ subscriptions_of (subscribe topic s (subscribe topic s t)) s
        = subscriptions_of t s ++ [p; p].
Proof.
  intros Hsz Hcl Hrt.
  destruct (subscribe_unfold topic s t Hsz) as (h & p & Hw & ->).
  destruct (subscribe_walk_grows _ _ _ _ _ _ _ _ Hw Hcl Hrt) as (Hlen & Hcl' & Hp & _).
  pose proof (subscribe_walk_again _ _ _ _ _ _ _ _ Hw Hcl Hrt) as Hw2.
  assert ((root t < length h)%nat) as Hrt' by lia.
  pose proof (subscribe_walk_add_sub topic s p _ _ _ _ _ _ Hw2 Hcl' Hrt') as Hw3.
  destruct (subscribe_unfold topic s
              (mkTree (<[p := add_sub s (h !!! p)]> h) (root t) (messageId t)
                 (triggeredTopics t) (min t)
                 (<[s := subscriptions_of t s ++ [p]]> (subscriptions t))) Hsz)
    as (h2 & p2 & Hw4 & ->).
  cbn [topics root] in Hw4. rewrite Hw3 in Hw4. injection Hw4 as <- <-.
  simpl. unfold subscriptions_of, node. simpl.
  rewrite list_lookup_total_insert_eq by done.
  rewrite list_insert_insert_eq. simpl.
  split.
  { f_equal. unfold add_sub. simpl. by rewrite set_insert_idem. }
  do 4 (split; [done|]). split.
  { intros s' Hne. by rewrite !lookup_insert_ne. }
  exists p. rewrite list_lookup_total_insert_eq by done. simpl.
  rewrite !lookup_insert_eq. simpl. split; [apply elem_of_set_insert; by left|].
  split; [done|]. by rewrite <- app_assoc.
Qed.

Lemma subscribe_twice_witness :
  topics (subscribe "a/b" 7 (subscribe "a/b" 7 emptyTree))
  = topics (subscribe "a/b" 7 emptyTree)
  ∧ subscriptions_of (subscribe "a/b" 7 (subscribe "a/b" 7 emptyTree)) 7 = [2%nat; 2%nat].
Proof.
  destruct (subscribe_twice "a/b" 7 emptyTree) as (Ht & _ & _ & _ & _ & _ & p & _ & H1 & H2).
  - vm_compute. reflexivity.
  - apply closed_emptyTree.
  - vm_compute. lia.
  - split; [exact Ht|]. vm_compute. reflexivity.
Defined.

(** C10 as stated fails: the state after the second call differs from
    the state after the first in the subscriber's [subscriptions] list. *)
Lemma subscribe_twice_differs :
  subscribe "a/b" 7 (subscribe "a/b" 7 emptyTree) ≠ subscribe "a/b" 7 emptyTree
  ∧ subscriptions_of (subscribe "a/b" 7 emptyTree) 7 = [2%nat]
  ∧ subscriptions_of (subscribe "a/b" 7 (subscribe "a/b" 7 emptyTree)) 7 = [2%nat; 2%nat].
Proof.
  split; [|split; vm_compute; reflexivity].
  intros H. apply (f_equal (λ t, subscriptions_of t 7)) in H.
  vm_compute in H. discriminate H.
Qed.

(** ** publish: the nodes it stores on *)

Lemma same_links_refl (h : list Topic) : same_links h h.
Proof. by intros x. Qed.

Lemma same_links_trans (h1 h2 h3 : list Topic) :
  same_links h1 h2 → same_links h2 h3 → same_links h1 h3.
Proof.
  intros H12 H23 x.
  destruct (H12 x) as (E1 & E2 & E3), (H23 x) as (F1 & F2 & F3).
  by rewrite F1, F2, F3.
Qed.

Lemma publish_store_links (message : string) (p : nat) (t : TopicTree) :
  same_links (topics t) (topics (publish_store message p t)).
Proof.
  intros x. unfold publish_store, node.
  destruct (triggered (topics t !!! p)); simpl;
    rewrite list_lookup_total_insert; case_decide as Hd; try done;
    destruct Hd as [<- _]; done.
Qed.

Lemma store_all_links (message : string) (l : list nat) : ∀ t : TopicTree,
  same_links (topics t) (topics (store_all message l t)).
Proof.
  induction l as [|p l IH]; intros t; [apply same_links_refl|].
  eapply same_links_trans; [apply publish_store_links|apply IH].
Qed.

Lemma store_all_app (message : string) (l k : list nat) (t : TopicTree) :
  store_all message (l ++ k) t = store_all message k (store_all message l t).
Proof. apply fold_left_app. Qed.

Lemma publish_targets_links (topic : string) (fuel : nat) :
  ∀ (h h' : list Topic) (iterator : nat) (start stop : Z),
  same_links h h' →
  publish_targets fuel topic h' iterator start stop
  = publish_targets fuel topic h iterator start stop.
Proof.
  induction fuel as [|fuel IH]; intros h h' iterator start stop Hl; simpl; [done|].
  destruct (stop =? npos); [done|].
  destruct (Hl iterator) as (-> & -> & ->).
  destruct (wildcardChild (h !!! iterator)) as [w|].
  - rewrite (IH h h') by done.
    destruct (publish_targets fuel topic h w _ _); [|done].
    destruct (children (h !!! iterator) !! _); [|done]. by rewrite (IH h h').
  - destruct (children (h !!! iterator) !! _); [|done]. by rewrite (IH h h').
Qed.

(** The private [publish] stores the message on the nodes that the walk
    over the links selects, in that order, and does nothing else. *)
Lemma publish_walk_targets (topic message : string) (fuel : nat) :
  ∀ (t : TopicTree) (iterator : nat) (start stop : Z),
  publish_walk fuel topic message iterator start stop t
  = (λ l, store_all message l t)
      <$> publish_targets fuel topic (topics t) iterator start stop.
Proof.
  induction fuel as [|fuel IH]; intros t iterator start stop; simpl.
  - destruct (stop =? npos); done.
  - destruct (stop =? npos); [done|].
    set (stop' := sv_find topic "/" start).
    set (segment := sv_substr topic start (wrap64 (stop' - start))).
    unfold node.
    set (l1 := match terminatingWildcardChild (topics t !!! iterator) with
               | Some w => [w]
               | None => []
               end).
    set (t1 := match terminatingWildcardChild (topics t !!! iterator) with
               | Some w => publish_store message w t
               | None => t
               end).
    assert (t1 = store_all message l1 t) as Ht1
      by (unfold t1, l1; by destruct (terminatingWildcardChild _)).
    assert (same_links (topics t) (topics t1)) as Hl1
      by (rewrite Ht1; apply store_all_links).
    destruct (Hl1 iterator) as (Hc1 & Hw1 & _). rewrite Hw1.
    assert (∀ (t2 : TopicTree) (l2 : list nat),
              t2 = store_all message l2 t1 →
              match children (topics t2 !!! iterator) !! segment with
              | Some c => publish_walk fuel topic message c (wrap64 (stop' + 1)) stop' t2
              | None => Some t2
              end
              = (λ l, store_all message l t) <$>
                  match children (topics t !!! iterator) !! segment with
                  | Some c =>
                      match publish_targets fuel topic (topics t) c
                              (wrap64 (stop' + 1)) stop' with
                      | Some l3 => Some (l1 ++ l2 ++ l3)
                      | None => None
                      end
                  | None => Some (l1 ++ l2)
                  end) as Htail.
    { intros t2 l2 Ht2.
      assert (same_links (topics t) (topics t2)) as Hl2.
      { eapply same_links_trans; [exact Hl1|]. rewrite Ht2. apply store_all_links. }
      destruct (Hl2 iterator) as (-> & _ & _).
      destruct (children (topics t !!! iterator) !! segment) as [c|]; simpl.
      - rewrite IH, (publish_targets_links topic fuel (topics t) (topics t2)) by done.
        destruct (publish_targets fuel topic (topics t) c _ _) as [l3|]; simpl; [|done].
        by rewrite !store_all_app, <- Ht1, <- Ht2.
      - by rewrite store_all_app, <- Ht1, <- Ht2. }
    destruct (wildcardChild (topics t !!! iterator)) as [w|].
    + rewrite IH, (publish_targets_links topic fuel (topics t) (topics t1)) by done.
      destruct (publish_targets fuel topic (topics t) w _ _) as [l2|]; simpl; [|done].
      by apply Htail.
    + by apply (Htail t1 []).
Qed.

Lemma publish_targets_npos (fuel : nat) (topic : string) (h : list Topic)
    (iterator : nat) (start : Z) :
  publish_targets fuel topic h iterator start npos = Some [iterator].
Proof. by destruct fuel. Qed.

(** Every activation starts further right in the topic. *)
Lemma publish_targets_total (topic : string) (fuel : nat) :
  sv_size topic < npos →
  ∀ (h : list Topic) (iterator : nat) (start stop : Z),
  0 <= start <= sv_size topic → sv_size topic - start < Z.of_nat fuel →
  is_Some (publish_targets fuel topic h iterator start stop).
Proof.
  intros Hsz. induction fuel as [|fuel IH]; intros h iterator start stop Hs Hf; simpl.
  - lia.
  - destruct (stop =? npos); [done|].
    set (stop' := sv_find topic "/" start).
    assert (∀ it', is_Some (publish_targets fuel topic h it' (wrap64 (stop' + 1)) stop'))
      as Hrec.
    { intros it'. destruct (decide (stop' = npos)) as [->|Hne].
      - by rewrite publish_targets_npos.
      - pose proof (next_start topic "/" start Hsz (proj1 Hs) Hne) as H.
        fold stop' in H. apply IH; lia. }
    destruct (wildcardChild (h !!! iterator)) as [w|].
    + destruct (Hrec w) as [l2 ->].
      destruct (children (h !!! iterator) !! _) as [c|]; [|done].
      by destruct (Hrec c) as [l3 ->].
    + destruct (children (h !!! iterator) !! _) as [c|]; [|done].
      by destruct (Hrec c) as [l3 ->].
Qed.

(** [publish], given the nodes its walk selects. *)
Lemma publish_eq (topic message : string) (t : TopicTree) (l : list nat) :
  publish_targets (S (String.length topic)) topic (topics t) (root t) 0 0 = Some l →
  publish topic message t = bump_messageId (store_all message l t).
Proof.
  intros Hl. unfold publish, publish_fuel. by rewrite publish_walk_targets, Hl.
Qed.

(** [publish] always completes. *)
Lemma publish_total (topic message : string) (t : TopicTree) :
  sv_size topic < npos →
  ∃ l, publish_targets (S (String.length topic)) topic (topics t) (root t) 0 0 = Some l
       ∧ publish_fuel (S (String.length topic)) topic message t
         = Some (bump_messageId (store_all message l t)).
Proof.
  intros Hsz.
  destruct (publish_targets_total topic (S (String.length topic)) Hsz (topics t) (root t) 0 0)
    as [l Hl]; [unfold sv_size; lia|unfold sv_size; lia|].
  exists l. split; [done|]. unfold publish_fuel. by rewrite publish_walk_targets, Hl.
Qed.

Lemma publish_none (topic message : string) (t : TopicTree) :
  publish_targets (S (String.length topic)) topic (topics t) (root t) 0 0 = Some [] →
  publish topic message t = bump_messageId t.
Proof. intros H. by rewrite (publish_eq topic message t [] H). Qed.

Lemma publish_single (topic message : string) (t : TopicTree) (p : nat) :
  publish_targets (S (String.length topic)) topic (topics t) (root t) 0 0 = Some [p] →
  (p < length (topics t))%nat → triggered (node t p) = false →
  triggeredTopics (publish topic message t) = triggeredTopics t ++ [p]
  ∧ min (publish topic message t)
    = (if set_begin (subs (node t p)) <? min t then set_begin (subs (node t p)) else min t)
  ∧ subs (node (publish topic message t) p) = subs (node t p)
  ∧ messages (node (publish topic message t) p)
    = map_assign (messageId t) message (messages (node t p))
  ∧ triggered (node (publish topic message t) p) = true
  ∧ (∀ q, q ≠ p → node (publish topic message t) q = node t q).
Proof.
  intros Hl Hp Htr. rewrite (publish_eq topic message t [p] Hl).
  unfold store_all, bump_messageId, publish_store, node in *. simpl. rewrite Htr. simpl.
  rewrite list_lookup_total_insert_eq by done. simpl.
  repeat split; try done.
  intros q Hq. by rewrite list_lookup_total_insert_ne.
Qed.

(** A node that becomes triggered is appended to the batch, whatever the
    size of the batch. *)
Lemma publish_store_appends (message : string) (p : nat) (t : TopicTree) :
  triggered (node t p) = false →
  triggeredTopics (publish_store message p t) = triggeredTopics t ++ [p]
  ∧ numTriggeredTopics (publish_store message p t) = numTriggeredTopics t + 1.
Proof.
  intros Htr. unfold numTriggeredTopics, publish_store. rewrite Htr. simpl.
  split; [done|]. rewrite length_app. simpl. lia.
Qed.

Lemma publish_store_triggered (message : string) (p : nat) (t : TopicTree) :
  triggered (node t p) = true →
  triggeredTopics (publish_store message p t) = triggeredTopics t.
Proof. intros Htr. unfold publish_store. by rewrite Htr. Qed.

(** ** Trimming *)

Lemma unused_spec (n : Topic) :
  unused n = true ↔
  subs n = [] ∧ children n = ∅ ∧ terminatingWildcardChild n = None ∧ wildcardChild n = None.
Proof.
  unfold unused.
  rewrite !andb_true_iff, !negb_true_iff, !bool_decide_eq_false, !Nat.eqb_eq,
    <- !eq_None_not_Some, map_size_empty_iff.
  split.
  - intros [[[H1 H2] H3] H4]. by apply nil_length_inv in H1.
  - intros (-> & H2 & H3 & H4). done.
Qed.

Lemma wf_arena_node (h : list Topic) (rt p : nat) :
  wf_arena h rt → (p < length h)%nat → node_wf h rt p.
Proof. intros [_ H] Hp. rewrite Forall_seq in H. apply H. lia. Qed.

Lemma wf_arena_child (h : list Topic) (rt p : nat) (k : string) (c : nat) :
  wf_arena h rt → (p < length h)%nat → children (h !!! p) !! k = Some c →
  (c < length h)%nat ∧ parent (h !!! c) = Some p ∧ name (h !!! c) = k.
Proof.
  intros Hwf Hp Hk. destruct (wf_arena_node h rt p Hwf Hp) as (_ & Hch & _).
  exact (map_Forall_lookup_1 _ _ _ _ Hch Hk).
Qed.

Lemma wf_arena_parent (h : list Topic) (rt p : nat) :
  wf_arena h rt → (p < length h)%nat → p ≠ rt →
  ∃ q, parent (h !!! p) = Some q ∧ (q < p)%nat.
Proof.
  intros Hwf Hp Hne. destruct (wf_arena_node h rt p Hwf Hp) as (Hpar & _).
  destruct (parent (h !!! p)) as [q|]; [|done]. exists q. by destruct Hpar.
Qed.

(** Replacing a node by one with the same name and parent, fewer children,
    consistent fast-path pointers and a sorted subscriber set keeps the
    arena well formed. *)
Lemma wf_arena_update (h : list Topic) (rt q : nat) (n' : Topic) :
  wf_arena h rt → (q < length h)%nat →
  parent n' = parent (h !!! q) → name n' = name (h !!! q) →
  children n' ⊆ children (h !!! q) →
  (∀ c, wildcardChild n' = Some c → children n' !! "+"%string = Some c) →
  (∀ c, terminatingWildcardChild n' = Some c → children n' !! "#"%string = Some c) →
  StronglySorted Z.lt (subs n') →
  wf_arena (<[q := n']> h) rt.
Proof.
  intros Hwf Hq Hpar Hname Hsub Hwc Htwc Hsorted.
  assert (∀ x, parent (<[q := n']> h !!! x) = parent (h !!! x)
               ∧ name (<[q := n']> h !!! x) = name (h !!! x)) as Hlinks.
  { intros x. rewrite list_lookup_total_insert. case_decide as Hd; [|done].
    destruct Hd as [<- _]. done. }
  split; [rewrite length_insert; apply Hwf|].
  rewrite length_insert. apply Forall_seq. intros p Hp.
  assert (p < length h)%nat as Hp' by lia.
  pose proof (wf_arena_node h rt p Hwf Hp') as (H1 & H2 & H3 & H4 & H5).
  unfold node_wf. rewrite (proj1 (Hlinks p)). split; [exact H1|].
  rewrite list_lookup_total_insert. case_decide as Hd.
  - destruct Hd as [<- _]. split; [|split; [|split]].
    + apply map_Forall_lookup. intros k c Hk.
      apply (lookup_weaken _ _ _ _ Hk) in Hsub.
      destruct (map_Forall_lookup_1 _ _ _ _ H2 Hsub) as (Hc & Hcp & Hcn).
      rewrite length_insert, (proj1 (Hlinks c)), (proj2 (Hlinks c)). done.
    + destruct (wildcardChild n') as [c|] eqn:E; [by apply Hwc|done].
    + destruct (terminatingWildcardChild n') as [c|] eqn:E; [by apply Htwc|done].
    + done.
  - split; [|done].
    apply map_Forall_lookup. intros k c Hk.
    destruct (map_Forall_lookup_1 _ _ _ _ H2 Hk) as (Hc & Hcp & Hcn).
    rewrite length_insert, (proj1 (Hlinks c)), (proj2 (Hlinks c)). done.
Qed.

Lemma wf_arena_detach (h : list Topic) (rt q : nat) (nm : string) :
  wf_arena h rt → (q < length h)%nat →
  wf_arena (<[q := detach_child nm (h !!! q)]> h) rt.
Proof.
  intros Hwf Hq.
  pose proof (wf_arena_node h rt q Hwf Hq) as (H1 & H2 & H3 & H4 & H5).
  apply wf_arena_update; try done; simpl.
  - apply delete_subseteq.
  - intros c. destruct (String.eqb_spec nm "#") as [->|Hne1].
    + intros Hc. rewrite Hc in H3. by rewrite lookup_delete_ne.
    + destruct (String.eqb_spec nm "+") as [->|Hne2]; [done|].
      intros Hc. rewrite Hc in H3. by rewrite lookup_delete_ne.
  - intros c. destruct (String.eqb_spec nm "#") as [->|Hne1]; [done|].
    intros Hc. rewrite Hc in H4. by rewrite lookup_delete_ne.
Qed.

Lemma wf_arena_erase_sub (h : list Topic) (rt p : nat) (s : Z) :
  wf_arena h rt → (p < length h)%nat →
  wf_arena (<[p := erase_sub s (h !!! p)]> h) rt.
Proof.
  intros Hwf Hp.
  pose proof (wf_arena_node h rt p Hwf Hp) as (H1 & H2 & H3 & H4 & H5).
  apply wf_arena_update; try done; simpl.
  - intros c Hc. by rewrite Hc in H3.
  - intros c Hc. by rewrite Hc in H4.
  - by apply StronglySorted_set_erase.
Qed.

Lemma detached_update (h : list Topic) (q : nat) (n' : Topic) (x : nat) :
  parent n' = parent (h !!! q) → name n' = name (h !!! q) →
  children n' ⊆ children (h !!! q) →
  (wildcardChild n' = None ∨ wildcardChild n' = wildcardChild (h !!! q)) →
  (terminatingWildcardChild n' = None
   ∨ terminatingWildcardChild n' = terminatingWildcardChild (h !!! q)) →
  detached h x → detached (<[q := n']> h) x.
Proof.
  intros Hpar Hname Hsub Hwc Htwc. unfold detached.
  assert (∀ y, parent (<[q := n']> h !!! y) = parent (h !!! y)
               ∧ name (<[q := n']> h !!! y) = name (h !!! y)) as Hlinks.
  { intros y. rewrite list_lookup_total_insert. case_decide as Hd; [|done].
    destruct Hd as [<- _]. done. }
  rewrite (proj1 (Hlinks x)), (proj2 (Hlinks x)).
  destruct (parent (h !!! x)) as [y|]; [|done].
  rewrite list_lookup_total_insert. case_decide as Hd; [|done].
  destruct Hd as [<- _]. intros (H1 & H2 & H3). split; [|split].
  - intros Hk. apply H1. by eapply lookup_weaken.
  - destruct Hwc as [->| ->]; done.
  - destruct Htwc as [->| ->]; done.
Qed.

Lemma detached_detach (h : list Topic) (q : nat) (nm : string) (x : nat) :
  detached h x → detached (<[q := detach_child nm (h !!! q)]> h) x.
Proof.
  apply detached_update; simpl; try done.
  - apply delete_subseteq.
  - destruct (String.eqb nm "#"), (String.eqb nm "+"); auto.
  - destruct (String.eqb nm "#"); auto.
Qed.

(** After the parent [q] of [p] has dropped the entry under [p]'s name,
    [p] is detached. *)
Lemma detached_after_detach (h : list Topic) (rt p q : nat) :
  wf_arena h rt → (p < length h)%nat → parent (h !!! p) = Some q → (q < p)%nat →
  detached (<[q := detach_child (name (h !!! p)) (h !!! q)]> h) p.
Proof.
  intros Hwf Hp Hpar Hqp.
  assert (q < length h)%nat as Hq by lia.
  pose proof (wf_arena_detach h rt q (name (h !!! p)) Hwf Hq) as Hwf'.
  set (h' := <[q := detach_child (name (h !!! p)) (h !!! q)]> h) in *.
  assert (length h' = length h) as Hlen by apply length_insert.
  assert (h' !!! p = h !!! p) as Hnp
    by (unfold h'; rewrite list_lookup_total_insert_ne; [done|lia]).
  assert (h' !!! q = detach_child (name (h !!! p)) (h !!! q)) as Hnq
    by (unfold h'; by rewrite list_lookup_total_insert_eq).
  assert (∀ k, children (h' !!! q) !! k = Some p → False) as Hno.
  { intros k Hk.
    destruct (wf_arena_child h' rt q k p Hwf') as (_ & _ & Hn); [lia|done|].
    rewrite Hnp in Hn. subst k. rewrite Hnq in Hk. simpl in Hk.
    by rewrite lookup_delete_eq in Hk. }
  unfold detached. rewrite Hnp, Hpar. split; [|split].
  - intros Hk. by eapply Hno.
  - intros Hw.
    pose proof (wf_arena_node h' rt q Hwf') as (_ & _ & H3 & _); [lia|].
    rewrite Hw in H3. by eapply Hno.
  - intros Hw.
    pose proof (wf_arena_node h' rt q Hwf') as (_ & _ & _ & H4 & _); [lia|].
    rewrite Hw in H4. by eapply Hno.
Qed.

Lemma trimmed_spec (h : list Topic) (rt : nat) :
  trimmed h rt ↔
  ∀ x, (x < length h)%nat → x ≠ rt → unused (h !!! x) = true → detached h x.
Proof.
  unfold trimmed. rewrite Forall_seq. split.
  - intros H x Hx. apply H. lia.
  - intros H x Hx. apply H. lia.
Qed.

(** [trimTree] from a node other than the root, in a tree where every
    other unused node is detached: it returns, without reaching a null
    parent, and leaves every unused node detached. *)
Lemma trimTree_ok (rt : nat) (fuel : nat) : ∀ (h : list Topic) (p : nat),
  wf_arena h rt → (p < length h)%nat → p ≠ rt → (p ≤ fuel)%nat →
  (∀ x, (x < length h)%nat → x ≠ rt → x ≠ p →
        unused (h !!! x) = true → detached h x) →
  ∃ h', trimTree fuel rt p h = Some h' ∧ wf_arena h' rt ∧ trimmed h' rt
        ∧ length h' = length h ∧ ∀ x, subs (h' !!! x) = subs (h !!! x).
Proof.
  induction fuel as [|fuel IH]; intros h p Hwf Hp Hne Hfuel Hothers.
  - (* p = 0 has no parent below it, so it is not a node other than the root *)
    destruct (wf_arena_parent h rt p Hwf Hp Hne) as (q & _ & Hq). lia.
  - cbn [trimTree].
    destruct (unused (h !!! p)) eqn:Hu.
    + destruct (wf_arena_parent h rt p Hwf Hp Hne) as (q & Hpar & Hq).
      rewrite Hpar.
      assert (q < length h)%nat as Hql by lia.
      set (h' := <[q := detach_child (name (h !!! p)) (h !!! q)]> h).
      assert (length h' = length h) as Hlen by apply length_insert.
      assert (wf_arena h' rt) as Hwf' by (by apply wf_arena_detach).
      assert (∀ x, subs (h' !!! x) = subs (h !!! x)) as Hsubs.
      { intros x. unfold h'. rewrite list_lookup_total_insert.
        case_decide as Hd; [|done]. destruct Hd as [<- _]. done. }
      assert (∀ x, (x < length h')%nat → x ≠ rt → x ≠ q →
                   unused (h' !!! x) = true → detached h' x) as Hothers'.
      { intros x Hx Hxr Hxq Hux.
        assert (h' !!! x = h !!! x) as Hnx
          by (unfold h'; by rewrite list_lookup_total_insert_ne).
        destruct (decide (x = p)) as [->|Hxp].
        - by eapply detached_after_detach.
        - apply detached_detach. apply Hothers; [lia|done|done|by rewrite <- Hnx]. }
      destruct (Nat.eqb_spec q rt) as [->|Hqr].
      * exists h'. repeat split; try done; try apply Hwf'.
        apply trimmed_spec. intros x Hx Hxr. by apply Hothers'.
      * destruct (IH h' q Hwf') as (h'' & Htrim & Hwf'' & Htr & Hlen'' & Hsubs'');
          [lia|done|lia|done|].
        exists h''. repeat split; try done; try apply Hwf''.
        -- lia.
        -- intros x. by rewrite Hsubs''.
    + exists h. repeat split; try done; try apply Hwf.
      apply trimmed_spec. intros x Hx Hxr Hux.
      destruct (decide (x = p)) as [->|Hxp]; [congruence|by apply Hothers].
Qed.

Lemma unsubscribe_each_ok (rt : nat) (s : Z) (fuel : nat) (l : list nat) :
  ∀ h : list Topic,
  wf_arena h rt → trimmed h rt → (length h ≤ fuel)%nat →
  Forall (λ p, (p < length h)%nat ∧ p ≠ rt) l →
  ∃ h', unsubscribe_each fuel rt s l h = Some h'
        ∧ wf_arena h' rt ∧ trimmed h' rt ∧ length h' = length h
        ∧ (∀ p, p ∈ l → s ∉ subs (h' !!! p))
        ∧ (∀ x s', s' ∈ subs (h' !!! x) → s' ∈ subs (h !!! x))
        ∧ (∀ x s', s' ≠ s → s' ∈ subs (h !!! x) → s' ∈ subs (h' !!! x)).
Proof.
  induction l as [|p l IH]; intros h Hwf Htr Hfuel Hl.
  - exists h. simpl. repeat split; try done; try apply Hwf.
    intros p Hp. by apply elem_of_nil in Hp.
  - apply Forall_cons in Hl as [[Hp Hpr] Hl].
    set (h1 := <[p := erase_sub s (h !!! p)]> h).
    assert (length h1 = length h) as Hlen1 by apply length_insert.
    assert (wf_arena h1 rt) as Hwf1 by (by apply wf_arena_erase_sub).
    assert (h1 !!! p = erase_sub s (h !!! p)) as Hn1
      by (unfold h1; by rewrite list_lookup_total_insert_eq).
    destruct (trimTree_ok rt fuel h1 p Hwf1) as (h2 & Htrim & Hwf2 & Htr2 & Hlen2 & Hsubs2);
      [lia|done|lia| |].
    { intros x Hx Hxr Hxp Hux.
      assert (h1 !!! x = h !!! x) as Hnx
        by (unfold h1; by rewrite list_lookup_total_insert_ne).
      apply detached_update; simpl; auto.
      rewrite trimmed_spec in Htr. apply Htr; [lia|done|by rewrite <- Hnx]. }
    destruct (IH h2 Hwf2 Htr2) as (h' & Hun & Hwf' & Htr' & Hlen' & Hgone & Hsub & Hkeep);
      [lia| |].
    { eapply Forall_impl; [exact Hl|]. simpl. intros x [Hx Hxr]. split; [lia|done]. }
    exists h'. cbn [unsubscribe_each]. fold h1. rewrite Htrim.
    split; [done|]. split; [done|]. split; [done|]. split; [lia|].
    assert (∀ x, subs (h2 !!! x)
                 = if decide (x = p) then set_erase s (subs (h !!! x)) else subs (h !!! x))
      as Hsubs2'.
    { intros x. rewrite Hsubs2. case_decide as Hd.
      - subst x. by rewrite Hn1.
      - unfold h1. by rewrite list_lookup_total_insert_ne. }
    split; [|split].
    + intros x Hx. apply elem_of_cons in Hx as [->|Hx]; [|by apply Hgone].
      intros Hin. apply Hsub in Hin. rewrite Hsubs2' in Hin.
      rewrite decide_True in Hin by done.
      revert Hin. apply not_elem_of_set_erase.
      by destruct (wf_arena_node h rt p Hwf Hp) as (_ & _ & _ & _ & ?).
    + intros x s' Hin. apply Hsub in Hin. rewrite Hsubs2' in Hin.
      case_decide; [by eapply elem_of_set_erase|done].
    + intros x s' Hne Hin. apply Hkeep; [done|]. rewrite Hsubs2'.
      case_decide; [by apply elem_of_set_erase_ne|done].
Qed.

Lemma wf_subscriptions_of (t : TopicTree) (s : Z) :
  wf t →
  Forall (λ p, (p < length (topics t))%nat ∧ p ≠ root t) (subscriptions_of t s).
Proof.
  intros [_ Hs]. unfold subscriptions_of.
  destruct (subscriptions t !! s) as [l|] eqn:E; simpl; [|constructor].
  exact (map_Forall_lookup_1 _ _ _ _ Hs E).
Qed.

(** [unsubscribeAll] on a well-formed tree whose unused nodes are all
    detached: it returns (no [trimTree] reaches the null parent of the
    root), removes the subscriber from the subscriber set of every node of
    its [subscriptions] list and from no other set, and leaves the tree
    well formed and without an unused node that its parent references. *)
Lemma unsubscribeAll_ok (s : Z) (t : TopicTree) :
  wf t → trimmed (topics t) (root t) →
  ∃ t', unsubscribeAll s t = Some t'
    ∧ (s ≠ 0 → ∀ p, p ∈ subscriptions_of t s → s ∉ subs (node t' p))
    ∧ (∀ p s', s' ≠ s → s' ∈ subs (node t p) ↔ s' ∈ subs (node t' p))
    ∧ trimmed (topics t') (root t')
    ∧ wf t'
    ∧ root t' = root t
    ∧ length (topics t') = length (topics t)
    ∧ parent (node t' (root t')) = None
    ∧ (∀ p s', s' ∈ subs (node t' p) → s' ∈ subs (node t p))
    ∧ triggeredTopics t' = triggeredTopics t ∧ min t' = min t.
Proof.
  intros Hwf Htr. unfold unsubscribeAll.
  assert (parent (node t (root t)) = None) as Hroot.
  { destruct Hwf as [Hwa _].
    destruct (wf_arena_node _ _ (root t) Hwa (proj1 Hwa)) as (Hp & _).
    unfold node. destruct (parent (topics t !!! root t)) as [q|]; [|done].
    by destruct Hp. }
  destruct (Z.eqb_spec s 0) as [->|Hs].
  - exists t. split; [done|]. split; [done|]. split; [done|]. split; [done|].
    split; [done|]. split; [done|]. split; [done|]. done.
  - destruct (unsubscribe_each_ok (root t) s (length (topics t))
                (subscriptions_of t s) (topics t))
      as (h' & Hun & Hwf' & Htr' & Hlen' & Hgone & Hsub & Hkeep);
      [apply Hwf|done|lia|by apply wf_subscriptions_of|].
    rewrite Hun. exists (set_topics h' t). simpl. unfold node. simpl.
    split; [done|]. split; [auto|]. split.
    { intros p s' Hne. split; [by apply Hkeep|by apply Hsub]. }
    split; [done|]. split.
    { split; [done|]. simpl. rewrite Hlen'. apply Hwf. }
    split; [done|]. split; [done|]. split; [|split; [apply Hsub|done]].
    destruct (wf_arena_node _ _ (root t) Hwf' (proj1 Hwf')) as (Hp & _).
    destruct (parent (h' !!! root t)) as [q|]; [|done]. by destruct Hp.
Qed.

(** ** Operations that keep the shape of the tree *)

Lemma same_shape_refl (h : list Topic) : same_shape h h.
Proof. by split. Qed.

Lemma same_shape_trans (h1 h2 h3 : list Topic) :
  same_shape h1 h2 → same_shape h2 h3 → same_shape h1 h3.
Proof.
  intros [L12 H12] [L23 H23]. split; [congruence|]. intros x.
  destruct (H12 x) as (A1 & A2 & A3 & A4 & A5 & A6).
  destruct (H23 x) as (B1 & B2 & B3 & B4 & B5 & B6).
  repeat split; congruence.
Qed.

Lemma same_shape_insert (h : list Topic) (p : nat) (n' : Topic) :
  name n' = name (h !!! p) → parent n' = parent (h !!! p) →
  children n' = children (h !!! p) → wildcardChild n' = wildcardChild (h !!! p) →
  terminatingWildcardChild n' = terminatingWildcardChild (h !!! p) →
  subs n' = subs (h !!! p) →
  same_shape h (<[p := n']> h).
Proof.
  intros H1 H2 H3 H4 H5 H6. split; [apply length_insert|].
  intros x. rewrite list_lookup_total_insert. case_decide as Hd; [|done].
  destruct Hd as [<- _]. done.
Qed.

Lemma wf_arena_shape (h h' : list Topic) (rt : nat) :
  same_shape h h' → wf_arena h rt → wf_arena h' rt.
Proof.
  intros [Hlen Hsh] [Hrt Hall]. split; [lia|].
  rewrite Hlen. rewrite Forall_seq in *. intros p Hp.
  specialize (Hall p Hp). unfold node_wf in *.
  destruct (Hsh p) as (_ & -> & -> & -> & -> & ->).
  destruct Hall as (H1 & H2 & H3 & H4 & H5).
  split; [done|]. split; [|done].
  apply map_Forall_lookup. intros k c Hk.
  destruct (map_Forall_lookup_1 _ _ _ _ H2 Hk) as (Hc & Hcp & Hcn).
  destruct (Hsh c) as (-> & -> & _). rewrite Hlen. done.
Qed.

Lemma unused_shape (h h' : list Topic) (x : nat) :
  same_shape h h' → unused (h' !!! x) = unused (h !!! x).
Proof.
  intros [_ Hsh]. destruct (Hsh x) as (_ & _ & E3 & E4 & E5 & E6).
  unfold unused. by rewrite E3, E4, E5, E6.
Qed.

Lemma detached_shape (h h' : list Topic) (x : nat) :
  same_shape h h' → detached h x → detached h' x.
Proof.
  intros [_ Hsh]. unfold detached.
  destruct (Hsh x) as (-> & -> & _).
  destruct (parent (h !!! x)) as [q|]; [|done].
  by destruct (Hsh q) as (_ & _ & -> & -> & -> & _).
Qed.

Lemma trimmed_shape (h h' : list Topic) (rt : nat) :
  same_shape h h' → trimmed h rt → trimmed h' rt.
Proof.
  intros Hsh. rewrite !trimmed_spec. intros Htr x Hx Hxr Hu.
  apply (detached_shape h h'); [done|]. apply Htr; [|done|].
  - destruct Hsh as [Hlen _]. lia.
  - by rewrite <- (unused_shape h h').
Qed.

Lemma publish_store_shape (message : string) (p : nat) (t : TopicTree) :
  same_shape (topics t) (topics (publish_store message p t)).
Proof.
  unfold publish_store, node.
  destruct (triggered (topics t !!! p)); simpl; by apply same_shape_insert.
Qed.

Lemma store_all_shape (message : string) (l : list nat) : ∀ t : TopicTree,
  same_shape (topics t) (topics (store_all message l t)).
Proof.
  induction l as [|p l IH]; intros t; [apply same_shape_refl|].
  eapply same_shape_trans; [apply publish_store_shape|apply IH].
Qed.

Lemma publish_store_fields (message : string) (p : nat) (t : TopicTree) :
  root (publish_store message p t) = root t
  ∧ subscriptions (publish_store message p t) = subscriptions t.
Proof. unfold publish_store. by destruct (triggered (node t p)). Qed.

Lemma store_all_fields (message : string) (l : list nat) : ∀ t : TopicTree,
  root (store_all message l t) = root t
  ∧ subscriptions (store_all message l t) = subscriptions t.
Proof.
  induction l as [|p l IH]; intros t; [done|].
  change (store_all message (p :: l) t)
    with (store_all message l (publish_store message p t)).
  destruct (IH (publish_store message p t)) as [-> ->].
  apply publish_store_fields.
Qed.

Lemma publish_shape (topic message : string) (t : TopicTree) :
  same_shape (topics t) (topics (publish topic message t))
  ∧ root (publish topic message t) = root t
  ∧ subscriptions (publish topic message t) = subscriptions t.
Proof.
  unfold publish, publish_fuel. rewrite publish_walk_targets.
  destruct (publish_targets _ _ _ _ _ _) as [l|]; simpl.
  - split; [apply store_all_shape|apply store_all_fields].
  - split; [apply same_shape_refl|done].
Qed.

Lemma reset_batch_shape (l : list nat) : ∀ h : list Topic,
  same_shape h (reset_batch l h).
Proof.
  induction l as [|p l IH]; intros h; [apply same_shape_refl|].
  change (reset_batch (p :: l) h) with (reset_batch l (<[p := reset_topic (h !!! p)]> h)).
  eapply same_shape_trans; [|apply IH]. by apply same_shape_insert.
Qed.

Lemma drain_shape (fuel : nat) (t t' : TopicTree) (log : list (Z * string)) :
  drain fuel t = Some (t', log) →
  same_shape (topics t) (topics t') ∧ root t' = root t
  ∧ subscriptions t' = subscriptions t.
Proof.
  unfold drain. destruct (numTriggeredTopics t =? 0).
  - intros [= <- <-]. split; [apply same_shape_refl|done].
  - destruct (merge_loop fuel t (merge_init t)); [|done].
    intros [= <- <-]. simpl. split; [apply reset_batch_shape|done].
Qed.

Lemma wf_shape (t t' : TopicTree) :
  same_shape (topics t) (topics t') → root t' = root t →
  subscriptions t' = subscriptions t →
  wf t ∧ trimmed (topics t) (root t) → wf t' ∧ trimmed (topics t') (root t').
Proof.
  intros Hsh Hrt Hsub [[Hwa Hs] Htr]. unfold wf. rewrite Hrt, Hsub.
  split; [split|].
  - by apply (wf_arena_shape (topics t)).
  - destruct Hsh as [-> _]. done.
  - by apply (trimmed_shape (topics t)).
Qed.

(** ** subscribe keeps the tree well formed *)

#[local] Arguments insert_child : simpl never.

Lemma insert_child_node (h : list Topic) (it : nat) (seg : string) (x : nat) :
  (it < length h)%nat →
  (insert_child h it seg).1 !!! x
  = if decide (x = it) then
      mkTopic (name (h !!! it)) (parent (h !!! it)) (triggered (h !!! it))
        (<[seg := length h]> (children (h !!! it)))
        (if String.eqb seg "+" then Some (length h) else wildcardChild (h !!! it))
        (if String.eqb seg "#" then Some (length h)
         else terminatingWildcardChild (h !!! it))
        (messages (h !!! it)) (subs (h !!! it))
    else if decide (x = length h) then newTopic seg (Some it)
    else h !!! x.
Proof.
  intros Hit. unfold insert_child. simpl.
  destruct (decide (x < length h)%nat) as [Hx|Hx].
  - rewrite lookup_total_app_l by (by rewrite length_insert).
    rewrite list_lookup_total_insert. case_decide as Hd.
    + destruct Hd as [<- _]. by rewrite decide_True.
    + rewrite decide_False by (intros ->; apply Hd; by split).
      rewrite decide_False by lia. done.
  - rewrite decide_False by lia.
    destruct (decide (x = length h)) as [->|Hne].
    + rewrite lookup_total_app_r by (rewrite length_insert; lia).
      rewrite length_insert, Nat.sub_diag. done.
    + rewrite !list_lookup_total_alt, !lookup_ge_None_2;
        [done|lia|rewrite length_app, length_insert; simpl; lia].
Qed.

Lemma wf_arena_insert_child (h : list Topic) (rt it : nat) (seg : string) :
  wf_arena h rt → (it < length h)%nat → children (h !!! it) !! seg = None →
  wf_arena (insert_child h it seg).1 rt.
Proof.
  intros Hwf Hit Hnone. split; [rewrite insert_child_length; destruct Hwf; lia|].
  rewrite insert_child_length. apply Forall_seq. intros p Hp.
  assert (∀ c, (c < length h)%nat →
               parent ((insert_child h it seg).1 !!! c) = parent (h !!! c)
               ∧ name ((insert_child h it seg).1 !!! c) = name (h !!! c)) as Hold.
  { intros c Hc. rewrite insert_child_node by done.
    case_decide as Hd; [by subst|]. by rewrite decide_False by lia. }
  unfold node_wf. rewrite insert_child_length, insert_child_node by done.
  destruct (decide (p = it)) as [->|Hpit]; [|destruct (decide (p = length h)) as [->|Hpl]].
  - destruct (wf_arena_node h rt it Hwf Hit) as (H1 & H2 & H3 & H4 & H5). cbn [name parent children wildcardChild terminatingWildcardChild subs messages triggered newTopic].
    split; [done|]. split; [|split; [|split; [|done]]].
    + apply map_Forall_insert_2.
      * rewrite insert_child_node by done.
        rewrite decide_False by lia. rewrite decide_True by done. cbn [name parent children wildcardChild terminatingWildcardChild subs messages triggered newTopic].
        split; [lia|done].
      * apply map_Forall_lookup. intros k c Hk.
        destruct (map_Forall_lookup_1 _ _ _ _ H2 Hk) as (Hc & Hcp & Hcn).
        destruct (Hold c Hc) as [-> ->]. split; [lia|done].
    + destruct (String.eqb_spec seg "+") as [->|Hne]; [apply lookup_insert_eq|].
      destruct (wildcardChild (h !!! it)) as [c|]; [|done].
      by rewrite lookup_insert_ne.
    + destruct (String.eqb_spec seg "#") as [->|Hne]; [apply lookup_insert_eq|].
      destruct (terminatingWildcardChild (h !!! it)) as [c|]; [|done].
      by rewrite lookup_insert_ne.
  - cbn [name parent children wildcardChild terminatingWildcardChild subs messages triggered newTopic]. destruct Hwf as [Hrt _].
    split; [split; lia|]. split; [apply map_Forall_empty|]. repeat split. constructor.
  - assert (p < length h)%nat as Hpl' by lia.
    destruct (wf_arena_node h rt p Hwf Hpl') as (H1 & H2 & H3 & H4 & H5).
    split; [done|]. split; [|done].
    apply map_Forall_lookup. intros k c Hk.
    destruct (map_Forall_lookup_1 _ _ _ _ H2 Hk) as (Hc & Hcp & Hcn).
    destruct (Hold c Hc) as [-> ->]. split; [lia|done].
Qed.

Lemma unused_has_child (n : Topic) (k : string) (c : nat) :
  children n !! k = Some c → unused n = false.
Proof.
  intros Hk. destruct (unused n) eqn:Hu; [|done].
  apply unused_spec in Hu as (_ & He & _). rewrite He in Hk.
  by rewrite lookup_empty in Hk.
Qed.

Lemma unused_has_sub (n : Topic) (s : Z) : s ∈ subs n → unused n = false.
Proof.
  intros Hs. destruct (unused n) eqn:Hu; [|done].
  apply unused_spec in Hu as (He & _). rewrite He in Hs. by apply elem_of_nil in Hs.
Qed.

Lemma detached_insert_child (h : list Topic) (rt it : nat) (seg : string) (x : nat) :
  wf_arena h rt → (it < length h)%nat → (x < length h)%nat → x ≠ it →
  detached h x → detached (insert_child h it seg).1 x.
Proof.
  intros Hwf Hit Hx Hxit. unfold detached.
  rewrite (insert_child_node h it seg x) by done.
  rewrite decide_False by done. rewrite decide_False by lia.
  destruct (parent (h !!! x)) as [q|] eqn:Hpar; [|done].
  assert (q < x)%nat as Hq.
  { destruct (wf_arena_node h rt x Hwf Hx) as (H1 & _). rewrite Hpar in H1. by destruct H1. }
  rewrite (insert_child_node h it seg q) by done.
  destruct (decide (q = it)) as [->|Hqit]; [|by rewrite decide_False by lia].
  cbn [name parent children wildcardChild terminatingWildcardChild subs messages triggered newTopic]. intros (H1 & H2 & H3). split; [|split].
  - destruct (decide (seg = name (h !!! x))) as [->|Hne].
    + rewrite lookup_insert_eq. intros [= ?]. lia.
    + by rewrite lookup_insert_ne.
  - destruct (String.eqb seg "+"); [intros [= ?]; lia|done].
  - destruct (String.eqb seg "#"); [intros [= ?]; lia|done].
Qed.

(** The walk of [subscribe] keeps the arena well formed; the only node
    it may leave unused and attached is the one it ends on. *)
Lemma subscribe_walk_wf (topic : string) (rt : nat) (fuel : nat) :
  ∀ (h : list Topic) (it : nat) (start stop : Z) (h' : list Topic) (it' : nat),
  subscribe_walk fuel topic h it start stop = Some (h', it') →
  wf_arena h rt → (it < length h)%nat →
  (∀ x, (x < length h)%nat → x ≠ rt → x ≠ it →
        unused (h !!! x) = true → detached h x) →
  wf_arena h' rt ∧ (it' < length h')%nat ∧ (length h ≤ length h')%nat
  ∧ (it ≠ rt ∨ stop ≠ npos → it' ≠ rt)
  ∧ (∀ x, (x < length h')%nat → x ≠ rt → x ≠ it' →
          unused (h' !!! x) = true → detached h' x).
Proof.
  induction fuel as [|fuel IH]; intros h it start stop h' it'; simpl.
  - destruct (Z.eqb_spec stop npos) as [Hs|Hs]; [|done].
    intros [= <- <-] Hwf Hit Htr.
    split; [done|]. split; [done|]. split; [done|]. split; [|done].
    intros [?|?]; done.
  - destruct (Z.eqb_spec stop npos) as [Hs|Hs].
    { intros [= <- <-] Hwf Hit Htr.
    split; [done|]. split; [done|]. split; [done|]. split; [|done].
    intros [?|?]; done. }
    set (stop' := sv_find topic "/" start).
    set (segment := sv_substr topic start (wrap64 (stop' - start))).
    destruct (children (h !!! it) !! segment) as [c|] eqn:Hc.
    + intros Hw Hwf Hit Htr.
      destruct (wf_arena_child h rt it segment c Hwf Hit Hc) as (Hcl & Hcp & Hcn).
      assert (c ≠ rt) as Hcrt.
      { destruct (wf_arena_node h rt c Hwf Hcl) as (H1 & _). rewrite Hcp in H1.
        by destruct H1. }
      apply IH in Hw as (H1 & H2 & H3 & H4 & H5); [|done|done|].
      * split; [done|]. split; [done|]. split; [done|]. split; [|done].
        intros _. apply H4. by left.
      * intros x Hx Hxr Hxc Hu. destruct (decide (x = it)) as [->|Hxit].
        -- by rewrite (unused_has_child _ _ _ Hc) in Hu.
        -- by apply Htr.
    + destruct (insert_child h it segment) as [h1 c] eqn:Hic.
      intros Hw Hwf Hit Htr.
      assert (h1 = (insert_child h it segment).1) as Hh1 by (by rewrite Hic).
      assert (c = length h) as Hcn by (unfold insert_child in Hic; congruence).
      assert (length h1 = S (length h)) as Hlen1
        by (rewrite Hh1; apply insert_child_length).
      assert (c ≠ rt) as Hcrt by (destruct Hwf; lia).
      apply IH in Hw as (H1 & H2 & H3 & H4 & H5).
      * split; [done|]. split; [done|]. split; [lia|]. split; [|done].
        intros _. apply H4. by left.
      * rewrite Hh1. by apply wf_arena_insert_child.
      * lia.
      * intros x Hx Hxr Hxc Hu. rewrite Hh1 in Hu |- *.
        assert (x < length h)%nat as Hx' by lia.
        rewrite insert_child_node in Hu by done.
        destruct (decide (x = it)) as [->|Hxit].
        -- exfalso. revert Hu. rewrite (unused_has_child _ segment (length h)); [done|].
           cbn [name parent children wildcardChild terminatingWildcardChild subs messages triggered newTopic]. apply lookup_insert_eq.
        -- rewrite decide_False in Hu by lia.
           apply (detached_insert_child h rt); try done. by apply Htr.
Qed.

Lemma subscribe_wf (topic : string) (s : Z) (t : TopicTree) :
  wf t ∧ trimmed (topics t) (root t) →
  wf (subscribe topic s t) ∧ trimmed (topics (subscribe topic s t)) (root (subscribe topic s t)).
Proof.
  intros [Hwf Htr]. unfold subscribe, subscribe_fuel.
  destruct (subscribe_walk _ _ _ _ _ _) as [[h it]|] eqn:Hw; simpl; [|done].
  destruct Hwf as [Hwa Hsubs]. rewrite trimmed_spec in Htr.
  destruct (subscribe_walk_wf _ (root t) _ _ _ _ _ _ _ Hw Hwa (proj1 Hwa))
    as (Hwa' & Hit & Hlen & Hne & Htr').
  { intros x Hx Hxr _ Hu. by apply Htr. }
  assert (it ≠ root t) as Hitr by (apply Hne; right; unfold npos; lia).
  destruct (wf_arena_node h (root t) it Hwa' Hit) as (H1 & H2 & H3 & H4 & H5).
  assert (wf_arena (<[it := add_sub s (h !!! it)]> h) (root t)) as Hwa''.
  { apply wf_arena_update; try done; simpl.
    - intros c Hc. by rewrite Hc in H3.
    - intros c Hc. by rewrite Hc in H4.
    - by apply StronglySorted_set_insert. }
  split; [split; [done|]|].
  - simpl. rewrite length_insert. apply map_Forall_insert_2.
    + apply Forall_app. split.
      * pose proof (wf_subscriptions_of t s (conj Hwa Hsubs)) as Hold.
        eapply Forall_impl; [exact Hold|]. simpl. intros x [Hx Hxr]. split; [lia|done].
      * apply Forall_singleton. done.
    + eapply map_Forall_impl; [exact Hsubs|]. simpl. intros s' l Hl.
      eapply Forall_impl; [exact Hl|]. simpl. intros x [Hx Hxr]. split; [lia|done].
  - apply trimmed_spec. rewrite length_insert. intros x Hx Hxr Hu.
    destruct (decide (x = it)) as [->|Hxit].
    + rewrite list_lookup_total_insert_eq in Hu by done.
      rewrite (unused_has_sub _ s) in Hu; [done|].
      simpl. apply elem_of_set_insert. by left.
    + rewrite list_lookup_total_insert_ne in Hu by done.
      apply detached_update; simpl; auto.
Qed.

Lemma wf_emptyTree : wf emptyTree ∧ trimmed (topics emptyTree) (root emptyTree).
Proof. split; apply (bool_decide_unpack _); vm_compute; exact I. Qed.

(** ** Reachable states *)

(** Every reachable tree is well formed and has no unused node that its
    parent still references. *)
Lemma reachable_wf (t : TopicTree) :
  reachable t → wf t ∧ trimmed (topics t) (root t).
Proof.
  induction 1 as [|topic s t Hs _ IH|topic message t _ IH|s t t' _ IH Hun
                  |fuel t t' log _ IH Hdr].
  - apply wf_emptyTree.
  - by apply subscribe_wf.
  - destruct (publish_shape topic message t) as (Hsh & Hrt & Hsub).
    by apply (wf_shape t).
  - destruct IH as [Hwf Htr].
    destruct (unsubscribeAll_ok s t Hwf Htr) as (t'' & Hun' & _ & _ & Htr' & Hwf' & _).
    rewrite Hun in Hun'. by injection Hun' as ->.
  - destruct (drain_shape fuel t t' log Hdr) as (Hsh & Hrt & Hsub).
    by apply (wf_shape t).
Qed.

(** C9: in every state the public operations lead to, [unsubscribeAll]
    returns, removes the subscriber from the subscriber set of every node
    of its [subscriptions] list (and from no other set), and leaves no node
    other than the root both unused (no subscribers, no children, no
    wildcard children) and referenced by its parent, be it through the
    children map or through a fast-path pointer: trimming went up from
    every node that became unused.  The root stays: no [trimTree] reaches
    its null parent, and the arena keeps every node. *)
Theorem unsubscribeAll_trims (s : Z) (t : TopicTree) :
  reachable t →
  ∃ t', unsubscribeAll s t = Some t'
    ∧ (s ≠ 0 → ∀ p, p ∈ subscriptions_of t s → s ∉ subs (node t' p))
    ∧ (∀ p s', s' ≠ s → s' ∈ subs (node t p) ↔ s' ∈ subs (node t' p))
    ∧ (∀ x, (x < length (topics t'))%nat → x ≠ root t' →
            unused (node t' x) = true → detached (topics t') x)
    ∧ root t' = root t
    ∧ length (topics t') = length (topics t)
    ∧ parent (node t' (root t')) = None
    ∧ reachable t'.
Proof.
  intros Hreach. destruct (reachable_wf t Hreach) as [Hwf Htr].
  destruct (unsubscribeAll_ok s t Hwf Htr)
    as (t' & Hun & Hgone & Hkeep & Htr' & Hwf' & Hroot & Hlen & Hpar & _).
  exists t'. split; [done|]. split; [done|]. split; [done|]. split.
  { by apply trimmed_spec. }
  split; [done|]. split; [done|]. split; [done|].
  by apply (reach_unsubscribeAll s t).
Qed.

Lemma unsubscribeAll_trims_witness :
  ∃ t', unsubscribeAll 10 (subscribe "a/b" 10 emptyTree) = Some t'
    ∧ (∀ p, p ∈ subscriptions_of (subscribe "a/b" 10 emptyTree) 10 → 10 ∉ subs (node t' p))
    ∧ (∀ x, (x < length (topics t'))%nat → x ≠ root t' →
            unused (node t' x) = true → detached (topics t') x)
    ∧ root t' = 0%nat.
Proof.
  destruct (unsubscribeAll_trims 10 (subscribe "a/b" 10 emptyTree))
    as (t' & Hun & Hgone & _ & Htr & Hroot & _).
  - apply reach_subscribe; [lia|apply reach_empty].
  - exists t'. split; [exact Hun|]. split; [apply Hgone; lia|]. split; [exact Htr|].
    exact Hroot.
Defined.

(** ** drain: the reset *)

Lemma lookup_total_reset (h : list Topic) (q p : nat) :
  messages (<[q := reset_topic (h !!! q)]> h !!! p) = []
  ∧ triggered (<[q := reset_topic (h !!! q)]> h !!! p) = false
  ∨ <[q := reset_topic (h !!! q)]> h !!! p = h !!! p.
Proof.
  destruct (decide (q = p)) as [->|Hne].
  - destruct (decide (p < length h)%nat) as [Hlt|Hge].
    + left. rewrite list_lookup_total_insert_eq by done. done.
    + right. rewrite list_insert_ge by lia. done.
  - right. by rewrite list_lookup_total_insert_ne.
Qed.

Lemma reset_batch_keeps (l : list nat) : ∀ (h : list Topic) (p : nat),
  messages (h !!! p) = [] → triggered (h !!! p) = false →
  messages (reset_batch l h !!! p) = [] ∧ triggered (reset_batch l h !!! p) = false.
Proof.
  induction l as [|q l IH]; intros h p Hm Ht; [done|].
  change (reset_batch (q :: l) h) with (reset_batch l (<[q := reset_topic (h !!! q)]> h)).
  destruct (lookup_total_reset h q p) as [[Hm' Ht']|Heq].
  - by apply IH.
  - apply IH; by rewrite Heq.
Qed.

Lemma reset_batch_clears (l : list nat) : ∀ (h : list Topic) (p : nat),
  p ∈ l →
  messages (reset_batch l h !!! p) = [] ∧ triggered (reset_batch l h !!! p) = false.
Proof.
  induction l as [|q l IH]; intros h p Hin; [by apply elem_of_nil in Hin|].
  change (reset_batch (q :: l) h) with (reset_batch l (<[q := reset_topic (h !!! q)]> h)).
  apply elem_of_cons in Hin as [->|Hin]; [|by apply IH].
  destruct (decide (q < length h)%nat) as [Hlt|Hge].
  - apply reset_batch_keeps; by rewrite list_lookup_total_insert_eq.
  - rewrite list_insert_ge by lia.
    apply reset_batch_keeps; rewrite list_lookup_total_alt, lookup_ge_None_2 by lia; done.
Qed.

(** ** drain: the counter of the merge loop *)

Lemma live_app (a b : list (list Z)) : live (a ++ b) = live a + live b.
Proof. induction a as [|[|x c] a IH]; simpl; lia. Qed.

Lemma live_nonneg (a : list (list Z)) : 0 <= live a.
Proof. induction a as [|[|x c] a IH]; simpl; lia. Qed.

Lemma live_le_length (a : list (list Z)) : live a <= Z.of_nat (length a).
Proof. induction a as [|[|x c] a IH]; simpl length; simpl live; lia. Qed.

Lemma live_lt_length (a : list (list Z)) : [] ∈ a → live a < Z.of_nat (length a).
Proof.
  induction a as [|c a IH]; intros Hin; [by apply elem_of_nil in Hin|].
  apply elem_of_cons in Hin as [<-|Hin].
  - pose proof (live_le_length a). simpl length; simpl live; lia.
  - specialize (IH Hin). destruct c; simpl length; simpl live; lia.
Qed.

(** [nonEmpty] minus the number of live cursors never shrinks: the loop
    decrements [nonEmpty] only when a live cursor reaches its end. *)
Lemma scan_step_slack (mn i : Z) (cur : list Z) (p : nat) (a : Scan) :
  sc_nonEmpty (scan_step mn i cur p a) - live (sc_it (scan_step mn i cur p a))
  = sc_nonEmpty a - live (sc_it a) - live [cur].
Proof.
  unfold scan_step. destruct cur as [|x rest]; simpl.
  - rewrite live_app. simpl. lia.
  - destruct (x =? mn); simpl; rewrite live_app; destruct rest; simpl; lia.
Qed.

Lemma scan_slack (mn : Z) (its : list (list Z)) : ∀ (tt : list nat) (i : Z) (a : Scan),
  sc_nonEmpty a - live (sc_it a) - live its
  <= sc_nonEmpty (scan mn i its tt a) - live (sc_it (scan mn i its tt a)).
Proof.
  induction its as [|cur its IH]; intros tt i a.
  - destruct tt; simpl; lia.
  - destruct tt as [|p tt].
    + pose proof (live_nonneg its). destruct cur; simpl; lia.
    + specialize (IH tt (i + 1) (scan_step mn i cur p a)).
      rewrite scan_step_slack in IH.
      change (cur :: its) with ([cur] ++ its) at 1.
      rewrite live_app. simpl scan. lia.
Qed.

Lemma merge_step_slack (t : TopicTree) (m : Merge) :
  nonEmpty m - live (it m) <= nonEmpty (merge_step t m) - live (it (merge_step t m)).
Proof.
  pose proof (scan_slack (cur_min m) (it m) (triggeredTopics t) 0
                (mkScan [] (nonEmpty m) UINTPTR_MAX 0 [])) as H.
  simpl in H. unfold merge_step.
  destruct (String.length _ =? 0)%nat; simpl; lia.
Qed.

(** Once [nonEmpty] exceeds the number of live cursors the loop condition
    stays true for ever. *)
Lemma merge_loop_stuck (t : TopicTree) (fuel : nat) : ∀ m : Merge,
  live (it m) < nonEmpty m → merge_loop fuel t m = None.
Proof.
  induction fuel as [|fuel IH]; intros m Hm; simpl;
    pose proof (live_nonneg (it m));
    destruct (Z.eqb_spec (nonEmpty m) 0); try lia; [done|].
  apply IH. pose proof (merge_step_slack t m). lia.
Qed.

(** [drain] never leaves the merge loop when a node of the batch has no
    subscriber. *)
Lemma drain_stuck (t : TopicTree) :
  (∃ p, p ∈ triggeredTopics t ∧ subs (node t p) = []) →
  ∀ fuel, merge_loop fuel t (merge_init t) = None ∧ drain fuel t = None.
Proof.
  intros (p & Hp & Hs) fuel.
  assert (merge_loop fuel t (merge_init t) = None) as Hloop.
  { apply merge_loop_stuck. unfold merge_init, numTriggeredTopics. simpl.
    rewrite <- (length_map (λ q, subs (node t q)) (triggeredTopics t)).
    apply live_lt_length. rewrite <- Hs.
    apply (list_elem_of_fmap_2 (λ q, subs (node t q))), Hp. }
  split; [done|]. unfold drain. rewrite Hloop.
  destruct (Z.eqb_spec (numTriggeredTopics t) 0) as [Hz|Hnz]; [|done].
  unfold numTriggeredTopics in Hz.
  destruct (triggeredTopics t); [by apply elem_of_nil in Hp|simpl in Hz; lia].
Qed.

(** C2 fails on the code.  [nonEmpty] starts at [numTriggeredTopics], so
    it counts a triggered node without subscribers as a live cursor, but
    no iteration ever decrements it for that node: when some node of the
    batch has an empty subscriber set, [drain] never leaves the merge loop
    and never reaches the reset, whatever the fuel. *)
Theorem drain_diverges_on_empty_subscriber_set (t : TopicTree) :
  (∃ p, p ∈ triggeredTopics t ∧ subs (node t p) = []) →
  ∀ fuel, merge_loop fuel t (merge_init t) = None ∧ drain fuel t = None.
Proof. intros H fuel. by apply drain_stuck. Qed.

Lemma drain_diverges_on_empty_subscriber_set_witness :
  unsubscribeAll 5 (publish "a" "M" (subscribe "a" 5 emptyTree)) = Some stranded_batch
  ∧ triggeredTopics stranded_batch = [1%nat]
  ∧ subs (node stranded_batch 1) = []
  ∧ drain 1000 stranded_batch = None.
Proof.
  split; [vm_compute; reflexivity|].
  split; [vm_compute; reflexivity|].
  split; [vm_compute; reflexivity|].
  apply (drain_diverges_on_empty_subscriber_set stranded_batch).
  exists 1%nat. split; [vm_compute; left|vm_compute; reflexivity].
Defined.

(** ** drain: the inner loop in closed form *)

Lemma scan_closed_form (mn : Z) (its : list (list Z)) :
  ∀ (tt : list nat) (i : Z) (a : Scan),
  length its = length tt →
  scan mn i its tt a
  = mkScan (sc_it a ++ map (advance mn) its)
      (sc_nonEmpty a - (live its - live (map (advance mn) its)))
      (fold_left lower (map (advance mn) its) (sc_nextMin a))
      (mask_acc i (map (hit mn) its) (sc_intersection a))
      (sc_per a ++ hit_nodes mn its tt).
Proof.
  induction its as [|c its IH]; intros tt i a Hlen.
  - destruct a, tt; simpl; rewrite ?app_nil_r; f_equal; lia.
  - destruct tt as [|p tt]; [done|].
    injection Hlen as Hlen. cbn [scan]. rewrite IH by done.
    destruct a as [ait an am ai ap]. unfold scan_step. simpl.
    destruct c as [|x r]; simpl.
    + rewrite <- app_assoc. simpl. f_equal; try lia.
    + destruct (x =? mn); simpl; rewrite <- !app_assoc; simpl.
      * destruct r; simpl; f_equal; try lia.
      * f_equal; try lia.
Qed.

(** ** drain: cursors over sorted subscriber sets *)

Lemma drop_below_sorted (mn : Z) (s : list Z) :
  StronglySorted Z.lt s → StronglySorted Z.lt (drop_below mn s).
Proof.
  induction 1 as [|x r Hs IH Hall]; simpl; [constructor|].
  destruct (x <? mn); [done|]. by constructor.
Qed.

Lemma elem_of_drop_below (mn x : Z) (s : list Z) :
  StronglySorted Z.lt s → x ∈ drop_below mn s ↔ x ∈ s ∧ mn <= x.
Proof.
  induction 1 as [|y r Hs IH Hall]; simpl.
  - rewrite elem_of_nil. tauto.
  - destruct (Z.ltb_spec y mn) as [Hlt|Hge].
    + rewrite IH, elem_of_cons. split; [tauto|]. intros [[->|H] Hx]; [lia|done].
    + split; [|tauto]. intros Hx. split; [done|].
      assert (y <= x) by (apply (StronglySorted_head_le y x r); [by constructor|done]).
      lia.
Qed.

Lemma drop_below_id (mn : Z) (s : list Z) :
  Forall (λ x, mn <= x) s → drop_below mn s = s.
Proof.
  destruct 1 as [|x r Hx _]; simpl; [done|].
  destruct (Z.ltb_spec x mn); [lia|done].
Qed.

(** Two bounds with no element of the set between them cut it alike. *)
Lemma drop_below_between (lo hi : Z) (s : list Z) :
  lo <= hi → (∀ x, x ∈ s → lo <= x → hi <= x) →
  drop_below hi s = drop_below lo s.
Proof.
  intros Hle. induction s as [|y r IH]; intros Hgap; simpl; [done|].
  assert (y ∈ y :: r) as Hy by (apply elem_of_cons; by left).
  specialize (Hgap y Hy) as Hy'.
  destruct (Z.ltb_spec y hi), (Z.ltb_spec y lo); try lia; [|done].
  apply IH. intros x Hx. apply Hgap. apply elem_of_cons. by right.
Qed.

Lemma hit_drop_below (mn : Z) (s : list Z) :
  StronglySorted Z.lt s → hit mn (drop_below mn s) = bool_decide (mn ∈ s).
Proof.
  intros Hs.
  pose proof (drop_below_sorted mn s Hs) as Hs'.
  pose proof (elem_of_drop_below mn mn s Hs) as Hin.
  destruct (drop_below mn s) as [|x r] eqn:E; simpl.
  - symmetry. apply bool_decide_eq_false. intros H.
    assert (mn ∈ @nil Z) as H' by (apply Hin; split; [done|lia]).
    by apply elem_of_nil in H'.
  - destruct (Z.eqb_spec x mn) as [->|Hne]; symmetry.
    + apply bool_decide_eq_true. apply Hin. apply elem_of_cons. by left.
    + apply bool_decide_eq_false. intros H.
      assert (mn ∈ x :: r) as H' by (apply Hin; split; [done|lia]).
      assert (x ∈ drop_below mn s) as Hx by (rewrite E; apply elem_of_cons; by left).
      apply (elem_of_drop_below mn x s Hs) in Hx as [_ Hx].
      pose proof (StronglySorted_head_le x mn r Hs' H'). lia.
Qed.

Lemma advance_drop_below (mn : Z) (s : list Z) :
  StronglySorted Z.lt s → advance mn (drop_below mn s) = drop_below (mn + 1) s.
Proof.
  induction 1 as [|x r Hs IH Hall]; simpl; [done|].
  destruct (Z.ltb_spec x mn) as [Hlt|Hge].
  - destruct (Z.ltb_spec x (mn + 1)); [done|lia].
  - simpl. destruct (Z.eqb_spec x mn) as [->|Hne].
    + destruct (Z.ltb_spec mn (mn + 1)); [|lia].
      symmetry. apply drop_below_id.
      eapply Forall_impl; [exact Hall|]. simpl. intros; lia.
    + destruct (Z.ltb_spec x (mn + 1)); [lia|done].
Qed.

(** ** drain: the next minimum *)

Lemma fold_lower_le (cs : list (list Z)) : ∀ acc : Z,
  fold_left lower cs acc <= acc
  ∧ ∀ y r, (y :: r) ∈ cs → fold_left lower cs acc <= y.
Proof.
  induction cs as [|c cs IH]; intros acc; simpl.
  - split; [lia|]. intros y r H. by apply elem_of_nil in H.
  - destruct (IH (lower acc c)) as [H1 H2].
    assert (lower acc c <= acc) as Hl
      by (unfold lower; destruct c as [|z ?]; [lia|destruct (Z.gtb_spec acc z); lia]).
    split; [lia|]. intros y r Hin.
    apply elem_of_cons in Hin as [<-|Hin]; [|by eapply H2].
    assert (lower acc (y :: r) <= y)
      by (simpl; destruct (Z.gtb_spec acc y); lia).
    lia.
Qed.

Lemma fold_lower_attained (cs : list (list Z)) : ∀ acc : Z,
  fold_left lower cs acc = acc
  ∨ ∃ r, (fold_left lower cs acc :: r) ∈ cs.
Proof.
  induction cs as [|c cs IH]; intros acc; simpl; [by left|].
  destruct (IH (lower acc c)) as [Heq|[r Hr]].
  - rewrite Heq. unfold lower. destruct c as [|z r]; [by left|].
    destruct (Z.gtb_spec acc z); [|by left].
    right. exists r. apply elem_of_cons. by left.
  - right. exists r. apply elem_of_cons. by right.
Qed.

Lemma live_pos_iff (cs : list (list Z)) :
  live cs ≠ 0 ↔ ∃ y r, (y :: r) ∈ cs.
Proof.
  induction cs as [|[|y r] cs IH]; simpl.
  - split; [done|]. intros (y & r & H). by apply elem_of_nil in H.
  - rewrite IH. split; intros (y & r & H); exists y, r.
    + apply elem_of_cons. by right.
    + by apply elem_of_cons in H as [|H].
  - pose proof (live_nonneg cs). split; [|lia].
    intros _. exists y, r. apply elem_of_cons. by left.
Qed.

(** ** drain: intersection keys *)

(** For indices up to 31 every node has a bit of its own among the low 32
    bits (node 31 also sets the bits above). *)
Lemma bit_table :
  Forall (λ i, Forall (λ j, Z.testbit (bit i) j = bool_decide (i = j)) (seqZ 0 32))
    (seqZ 0 32).
Proof. apply (bool_decide_unpack _). vm_compute. exact I. Qed.

Lemma bit_testbit (i j : Z) :
  0 <= i < 32 → 0 <= j < 32 → Z.testbit (bit i) j = bool_decide (i = j).
Proof.
  intros Hi Hj. pose proof bit_table as H.
  rewrite Forall_seqZ in H.
  assert (0 <= i < 0 + 32) as Hi' by lia. specialize (H i Hi').
  rewrite Forall_seqZ in H. apply H. lia.
Qed.

Lemma mask_acc_testbit (bs : list bool) : ∀ (i acc j : Z),
  0 <= i → i + Z.of_nat (length bs) <= 32 → 0 <= j < 32 →
  Z.testbit (mask_acc i bs acc) j
  = Z.testbit acc j || (bool_decide (i <= j) && default false (bs !! Z.to_nat (j - i))).
Proof.
  induction bs as [|b bs IH]; intros i acc j Hi Hlen Hj; simpl.
  - by rewrite andb_false_r, orb_false_r.
  - simpl in Hlen. rewrite IH by lia.
    assert (Z.testbit (if b then Z.lor acc (bit i) else acc) j
            = Z.testbit acc j || (b && bool_decide (i = j))) as ->.
    { destruct b; simpl; [|by rewrite orb_false_r].
      rewrite Z.lor_spec, bit_testbit by lia. done. }
    destruct (decide (i = j)) as [->|Hne].
    + rewrite Z.sub_diag. simpl.
      rewrite (bool_decide_eq_false_2 (j + 1 <= j)) by lia.
      rewrite (bool_decide_eq_true_2 (j = j)) by done.
      rewrite (bool_decide_eq_true_2 (j <= j)) by lia.
      simpl. by rewrite andb_true_r, orb_false_r.
    + rewrite (bool_decide_eq_false_2 (i = j)) by done.
      rewrite andb_false_r, orb_false_r.
      destruct (decide (i <= j)) as [Hle|Hgt].
      * rewrite (bool_decide_eq_true_2 (i + 1 <= j)) by lia.
        rewrite (bool_decide_eq_true_2 (i <= j)) by lia.
        replace (Z.to_nat (j - i)) with (S (Z.to_nat (j - (i + 1)))) by lia.
        done.
      * rewrite (bool_decide_eq_false_2 (i + 1 <= j)) by lia.
        rewrite (bool_decide_eq_false_2 (i <= j)) by lia. done.
Qed.

(** Up to 32 nodes, two different subsets never share a key. *)
Lemma mask_acc_inj (bs bs' : list bool) :
  length bs = length bs' → (length bs ≤ 32)%nat →
  mask_acc 0 bs 0 = mask_acc 0 bs' 0 → bs = bs'.
Proof.
  intros Hlen Hle Hkey. apply list_eq. intros k.
  destruct (decide (k < length bs)%nat) as [Hk|Hk].
  - assert (0 <= 0) as H0 by lia.
    assert (0 <= Z.of_nat k < 32) as Hk32 by lia.
    assert (0 + Z.of_nat (length bs) <= 32) as Hl1 by lia.
    assert (0 + Z.of_nat (length bs') <= 32) as Hl2 by lia.
    pose proof (mask_acc_testbit bs 0 0 (Z.of_nat k) H0 Hl1 Hk32) as H1.
    pose proof (mask_acc_testbit bs' 0 0 (Z.of_nat k) H0 Hl2 Hk32) as H2.
    rewrite Hkey, H2 in H1. clear H2.
    rewrite Z.bits_0, Z.sub_0_r, Nat2Z.id in H1. simpl in H1.
    rewrite (bool_decide_eq_true_2 (0 <= Z.of_nat k)) in H1 by lia. simpl in H1.
    destruct (lookup_lt_is_Some_2 bs k Hk) as [b Hb].
    assert (k < length bs')%nat as Hk' by lia.
    destruct (lookup_lt_is_Some_2 bs' k Hk') as [b' Hb'].
    rewrite Hb, Hb' in *. simpl in H1. by rewrite H1.
  - rewrite !lookup_ge_None_2 by lia. done.
Qed.

Lemma total_advance (mn : Z) (cs : list (list Z)) :
  (total (map (advance mn) cs) ≤ total cs)%nat
  ∧ (Exists (λ c, hit mn c = true) cs → (total (map (advance mn) cs) < total cs)%nat).
Proof.
  unfold total. induction cs as [|c cs [IH1 IH2]]; simpl.
  - split; [lia|]. intros H. by apply Exists_nil in H.
  - rewrite !length_app.
    assert (length (advance mn c) ≤ length c)%nat as Hc
      by (destruct c as [|x r]; simpl; [lia|destruct (x =? mn); simpl; lia]).
    split; [lia|]. intros H. apply Exists_cons in H as [H|H].
    + destruct c as [|x r]; simpl in *; [done|]. rewrite H. simpl. lia.
    + specialize (IH2 H). lia.
Qed.

Lemma hit_nodes_matched (t : TopicTree) (mn : Z) (tt : list nat) :
  Forall (λ p, StronglySorted Z.lt (subs (node t p))) tt →
  hit_nodes mn (map (drop_below mn) (map (λ p, subs (node t p)) tt)) tt
  = filter (λ p, mn ∈ subs (node t p)) tt.
Proof.
  induction 1 as [|p tt Hp Htt IH]; simpl; [done|].
  rewrite hit_drop_below by done. rewrite filter_cons.
  destruct (decide (mn ∈ subs (node t p))) as [Hin|Hnin].
  - rewrite bool_decide_eq_true_2 by done. by rewrite IH.
  - rewrite bool_decide_eq_false_2 by done. by rewrite IH.
Qed.

Lemma triggered_sets_elem (t : TopicTree) (S : list Z) :
  S ∈ triggered_sets t ↔ ∃ p, p ∈ triggeredTopics t ∧ S = subs (node t p).
Proof.
  unfold triggered_sets. rewrite list_elem_of_In, in_map_iff.
  split; intros (p & H1 & H2); exists p.
  - by rewrite list_elem_of_In.
  - by rewrite <- list_elem_of_In.
Qed.

(** Under the modelled shift, nodes [i] and [i + 32] set the same bits. *)
Lemma bit_period (i : Z) : bit (i + 32) = bit i.
Proof.
  unfold bit, int_shl. f_equal. f_equal. f_equal.
  rewrite <- (Z.mul_1_l 32) at 1. by rewrite Z.mod_add.
Qed.

(** C6 fails on the code.  [1 << i] is a shift of the [int] 1: node 31
    sets bits 31 to 63 (the sign extension of [INT_MIN]) and node [i + 32]
    sets the bits of node [i].  With 33 nodes in the batch, each with a
    subscriber of its own, the subscribers of node 0 and of node 32 belong
    to different subsets of the batch and have the same key: the
    subscriber of node 32 is looked up under the key of node 0 and
    receives the payload of node 0. *)
Theorem intersection_bits_collide :
  bit 31 = 2 ^ 64 - 2 ^ 31
  ∧ (∀ i, bit (i + 32) = bit i)
  ∧ length (triggeredTopics batch33) = 33%nat
  ∧ matched_nodes batch33 100 = [1%nat] ∧ matched_nodes batch33 132 = [33%nat]
  ∧ pattern batch33 100 ≠ pattern batch33 132
  ∧ key_of batch33 100 = key_of batch33 132
  ∧ messages (node batch33 1) = [(0, "aa"%string)]
  ∧ messages (node batch33 33) = [(32, "ea"%string)]
  ∧ ∃ t' log, drain 33 batch33 = Some (t', log)
      ∧ log !! 0%nat = Some (100, "aa"%string)
      ∧ log !! 32%nat = Some (132, "aa"%string).
Proof.
  split; [reflexivity|]. split; [exact bit_period|].
  split; [vm_compute; reflexivity|].
  split; [vm_compute; reflexivity|]. split; [vm_compute; reflexivity|].
  split; [vm_compute; discriminate|]. split; [vm_compute; reflexivity|].
  split; [vm_compute; reflexivity|]. split; [vm_compute; reflexivity|].
  destruct (drain 33 batch33) as [[t' log]|] eqn:E; [|by vm_compute in E].
  exists t', log. split; [done|].
  vm_compute in E. injection E as <- <-. split; reflexivity.
Qed.

(** ** drain: the merged payload *)

Lemma complete_from_spec (h : list Topic) (per : list nat) :
  ∀ acc : list (Z * string),
  sorted_keys acc →
  sorted_keys (fold_left (λ c p, map_insert_range c (messages (h !!! p))) per acc)
  ∧ ∀ k, map_at k (fold_left (λ c p, map_insert_range c (messages (h !!! p))) per acc)
         = match map_at k acc with Some v => Some v | None => first_at k h per end.
Proof.
  induction per as [|p per IH]; intros acc Hs; simpl.
  - split; [done|]. intros k. by destruct (map_at k acc).
  - destruct (IH (map_insert_range acc (messages (h !!! p)))) as [H1 H2];
      [by apply map_insert_range_sorted|].
    split; [done|]. intros k. rewrite H2, map_insert_range_at by done.
    by destruct (map_at k acc).
Qed.

(** The map [drain] builds for an intersection has ascending sequence
    ids, and holds under each id the message of the first node of the
    intersection that has one: an id present on several nodes appears
    once. *)
Lemma complete_of_spec (h : list Topic) (per : list nat) :
  sorted_keys (complete_of h per)
  ∧ ∀ k, map_at k (complete_of h per) = first_at k h per.
Proof.
  destruct (complete_from_spec h per []) as [H1 H2]; [constructor|].
  split; [done|]. intros k. by rewrite H2.
Qed.

(** The payload is the messages of that map appended in ascending order
    of sequence id. *)
Lemma build_payload_spec (h : list Topic) (per : list nat) :
  build_payload h per
  = fold_right String.append ""%string (map snd (complete_of h per)).
Proof. unfold build_payload. by rewrite fold_append. Qed.

(** ** drain: one iteration of the merge on a well-formed batch *)

Lemma merge_scan (t : TopicTree) (mn ne : Z) :
  Forall (λ S, StronglySorted Z.lt S ∧ Forall (λ x, x < UINTPTR_MAX) S) (triggered_sets t) →
  Exists (λ S, mn ∈ S) (triggered_sets t) →
  ne = live (map (drop_below mn) (triggered_sets t)) →
  let a := scan mn 0 (map (drop_below mn) (triggered_sets t)) (triggeredTopics t)
             (mkScan [] ne UINTPTR_MAX 0 []) in
  mn < sc_nextMin a
  ∧ sc_it a = map (drop_below (sc_nextMin a)) (triggered_sets t)
  ∧ sc_nonEmpty a = live (sc_it a)
  ∧ (sc_nonEmpty a ≠ 0 → Exists (λ S, sc_nextMin a ∈ S) (triggered_sets t))
  ∧ (sc_nonEmpty a = 0 → sc_nextMin a = UINTPTR_MAX)
  ∧ (∀ S x, S ∈ triggered_sets t → x ∈ S → mn < x → sc_nextMin a <= x)
  ∧ sc_intersection a = key_of t mn
  ∧ sc_per a = matched_nodes t mn
  ∧ (total (sc_it a) < total (map (drop_below mn) (triggered_sets t)))%nat.
Proof.
  intros Hsets Hatt Hne a. subst a.
  rewrite scan_closed_form by (unfold triggered_sets; by rewrite !length_map).
  cbn [sc_it sc_nonEmpty sc_nextMin sc_intersection sc_per app].
  assert (∀ S, S ∈ triggered_sets t → StronglySorted Z.lt S) as Hsorted.
  { intros S HS. rewrite Forall_forall in Hsets. by apply Hsets. }
  assert (∀ S x, S ∈ triggered_sets t → x ∈ S → x < UINTPTR_MAX) as Hbound.
  { intros S x HS Hx. rewrite Forall_forall in Hsets.
    destruct (Hsets S HS) as [_ Hb]. rewrite Forall_forall in Hb. by apply Hb. }
  (* the cursors after the iteration *)
  assert (map (advance mn) (map (drop_below mn) (triggered_sets t))
          = map (drop_below (mn + 1)) (triggered_sets t)) as Hadv.
  { rewrite map_map. apply map_ext_in. intros S HS%list_elem_of_In.
    apply advance_drop_below. by apply Hsorted. }
  rewrite Hadv.
  set (nm := fold_left lower (map (drop_below (mn + 1)) (triggered_sets t)) UINTPTR_MAX).
  assert (mn < UINTPTR_MAX) as Hmn.
  { apply Exists_exists in Hatt as (S & HS & Hin). by eapply Hbound. }
  assert (∀ r, (nm :: r) ∈ map (drop_below (mn + 1)) (triggered_sets t) →
               mn < nm ∧ Exists (λ S, nm ∈ S) (triggered_sets t)) as Hhead.
  { intros r Hr. apply list_elem_of_In, in_map_iff in Hr as (S & HS & Hin).
    apply list_elem_of_In in Hin.
    assert (nm ∈ drop_below (mn + 1) S) as Hnm
      by (rewrite HS; apply elem_of_cons; by left).
    apply elem_of_drop_below in Hnm as [Hnm Hle]; [|by apply Hsorted].
    split; [lia|]. apply Exists_exists. by exists S. }
  assert (mn < nm) as Hlt.
  { destruct (fold_lower_attained (map (drop_below (mn + 1)) (triggered_sets t)) UINTPTR_MAX)
      as [Heq|[r Hr]]; fold nm in Heq || fold nm in Hr.
    - lia.
    - by apply Hhead in Hr as [? _]. }
  assert (∀ S x, S ∈ triggered_sets t → x ∈ S → mn < x → nm <= x) as Hgap.
  { intros S x HS Hx Hmx.
    assert (x ∈ drop_below (mn + 1) S) as Hx'
      by (apply elem_of_drop_below; [by apply Hsorted|split; [done|lia]]).
    pose proof (drop_below_sorted (mn + 1) S (Hsorted S HS)) as Hs'.
    destruct (drop_below (mn + 1) S) as [|y r] eqn:E; [by apply elem_of_nil in Hx'|].
    pose proof (StronglySorted_head_le y x r Hs' Hx') as Hyx.
    destruct (fold_lower_le (map (drop_below (mn + 1)) (triggered_sets t)) UINTPTR_MAX)
      as [_ Hle]. fold nm in Hle.
    assert (nm <= y); [|lia].
    apply (Hle y r). apply list_elem_of_In, in_map_iff. exists S.
    split; [done|by apply list_elem_of_In]. }
  assert (map (drop_below (mn + 1)) (triggered_sets t)
          = map (drop_below nm) (triggered_sets t)) as Hcut.
  { apply map_ext_in. intros S HS%list_elem_of_In. symmetry.
    apply drop_below_between; [lia|]. intros x Hx Hmx. apply (Hgap S); [done|done|lia]. }
  split; [done|]. split; [done|]. split; [lia|]. split.
  { intros Hlive.
    assert (live (map (drop_below (mn + 1)) (triggered_sets t)) ≠ 0) as Hl by lia.
    apply live_pos_iff in Hl as (y & r & Hyr).
    destruct (fold_lower_attained (map (drop_below (mn + 1)) (triggered_sets t)) UINTPTR_MAX)
      as [Heq|[r' Hr']]; fold nm in Heq || fold nm in Hr'.
    - exfalso.
      destruct (fold_lower_le (map (drop_below (mn + 1)) (triggered_sets t)) UINTPTR_MAX)
        as [_ Hle]. fold nm in Hle. specialize (Hle y r Hyr).
      apply list_elem_of_In, in_map_iff in Hyr as (S & HS & Hin).
      apply list_elem_of_In in Hin.
      assert (y ∈ drop_below (mn + 1) S) as Hy
        by (rewrite HS; apply elem_of_cons; by left).
      apply elem_of_drop_below in Hy as [Hy _]; [|by apply Hsorted].
      pose proof (Hbound S y Hin Hy). lia.
    - by apply Hhead in Hr' as [_ ?]. }
  split.
  { intros Hlive.
    destruct (fold_lower_attained (map (drop_below (mn + 1)) (triggered_sets t)) UINTPTR_MAX)
      as [Heq|[r' Hr']]; fold nm in Heq || fold nm in Hr'; [done|exfalso].
    assert (live (map (drop_below (mn + 1)) (triggered_sets t)) ≠ 0); [|lia].
    apply live_pos_iff. by exists nm, r'. }
  split; [done|]. split.
  { unfold key_of, pattern. f_equal. rewrite map_map. apply map_ext_in.
    intros S HS%list_elem_of_In. apply hit_drop_below. by apply Hsorted. }
  split.
  { unfold matched_nodes, triggered_sets. apply hit_nodes_matched.
    apply Forall_forall. intros p Hp. apply Hsorted.
    apply triggered_sets_elem. by exists p. }
  rewrite <- Hadv. apply total_advance.
  apply Exists_exists in Hatt as (S & HS & Hin).
  apply Exists_exists. exists (drop_below mn S). split.
  - apply list_elem_of_In, in_map_iff. exists S. split; [done|by apply list_elem_of_In].
  - rewrite hit_drop_below by (by apply Hsorted). by apply bool_decide_eq_true_2.
Qed.

Lemma string_length_zero (v : string) : String.length v = 0%nat ↔ v = ""%string.
Proof. destruct v; simpl; split; congruence. Qed.

Lemma merge_step_inv (t : TopicTree) (m : Merge) :
  Forall (λ S, StronglySorted Z.lt S ∧ Forall (λ x, x < UINTPTR_MAX) S) (triggered_sets t) →
  merge_inv t m → nonEmpty m ≠ 0 →
  merge_inv t (merge_step t m)
  ∧ (total (it (merge_step t m)) < total (it m))%nat.
Proof.
  intros Hsets Hinv Hne.
  destruct Hinv as [Hit Hn Hatt _ Hsorted Hcalls Hcache Hcached Hpay Hbuilt Hkeys Hreuse].
  specialize (Hatt Hne).
  assert (nonEmpty m = live (map (drop_below (cur_min m)) (triggered_sets t))) as Hn'
    by (by rewrite <- Hit).
  pose proof (merge_scan t (cur_min m) (nonEmpty m) Hsets Hatt Hn') as Hscan.
  unfold merge_step. cbv zeta. rewrite Hit.
  set (a := scan (cur_min m) 0 (map (drop_below (cur_min m)) (triggered_sets t))
              (triggeredTopics t) (mkScan [] (nonEmpty m) UINTPTR_MAX 0 [])) in *.
  cbn zeta in Hscan.
  destruct Hscan as (Hlt & Hit' & Hn'' & Hatt' & Hend' & Hgap & Hkey & Hper & Htot).
  rewrite Hkey, Hper. fold (payload_of t (cur_min m)).
  assert (∀ s, s ∈ map fst (calls m) → s < cur_min m) as Hbelow
    by (intros s Hs; by apply Hcalls in Hs as [? _]).
  assert (∀ pl s, s ∈ map fst (calls m ++ [(cur_min m, pl)])
                  ↔ s ∈ map fst (calls m) ∨ s = cur_min m) as Hsnoc.
  { intros pl s. rewrite map_app, elem_of_app. simpl.
    by rewrite list_elem_of_singleton. }
  assert (∀ pl s, s ∈ map fst (calls m ++ [(cur_min m, pl)])
                  ↔ s < sc_nextMin a ∧ Exists (λ S, s ∈ S) (triggered_sets t)) as Hcalls'.
  { intros pl s. rewrite Hsnoc, Hcalls. split.
    - intros [[H1 H2]| ->]; split; try done; lia.
    - intros [H1 H2]. destruct (decide (s = cur_min m)) as [|Hsm]; [by right|left].
      split; [|done]. apply Exists_exists in H2 as (S & HS & Hin).
      destruct (decide (s < cur_min m)) as [|Hge]; [done|].
      assert (sc_nextMin a <= s) by (apply (Hgap S); [done|done|lia]). lia. }
  assert (∀ pl, StronglySorted Z.lt (map fst (calls m ++ [(cur_min m, pl)]))) as Hsorted'.
  { intros pl. rewrite map_app. simpl. by apply StronglySorted_snoc. }
  destruct (Nat.eqb_spec
              (String.length (default ""%string
                                (intersectionCache m !! key_of t (cur_min m)))) 0)
    as [Hmiss|Hhit].
  - (* the payload is built *)
    apply string_length_zero in Hmiss.
    assert (∀ v, intersectionCache m !! key_of t (cur_min m) = Some v → v = ""%string)
      as Hempty by (intros v Hv; by rewrite Hv in Hmiss).
    split; [|exact Htot].
    constructor; cbn [it nonEmpty cur_min intersectionCache calls built].
    + done.
    + done.
    + done.
    + intros Hz. left. by apply Hend'.
    + apply Hsorted'.
    + apply Hcalls'.
    + intros k v Hk Hv. destruct (decide (k = key_of t (cur_min m))) as [->|Hkne].
      * rewrite lookup_insert_eq in Hk. injection Hk as <-.
        exists (cur_min m). rewrite elem_of_app, list_elem_of_singleton. auto.
      * rewrite lookup_insert_ne in Hk by done.
        destruct (Hcache k v Hk Hv) as (s & Hs & Hks & Hvs).
        exists s. rewrite elem_of_app. auto.
    + intros s Hs Hps. apply Hsnoc in Hs as [Hs| ->].
      * destruct (Hcached s Hs Hps) as (v & Hv & Hvne).
        destruct (decide (key_of t s = key_of t (cur_min m))) as [Heq|Hkne].
        -- rewrite Heq in Hv. by apply Hempty in Hv.
        -- exists v. by rewrite lookup_insert_ne.
      * exists (payload_of t (cur_min m)). by rewrite lookup_insert_eq.
    + intros s pl Hin. apply elem_of_app in Hin as [Hin|Hin].
      * destruct (Hpay s pl Hin) as (s' & Hs' & Hk' & Hp').
        exists s'. rewrite elem_of_app. auto.
      * apply list_elem_of_singleton in Hin. injection Hin as -> ->.
        exists (cur_min m). rewrite elem_of_app, list_elem_of_singleton. auto.
    + intros s Hs. apply Hsnoc. apply elem_of_app in Hs as [Hs|Hs].
      * left. by apply Hbuilt.
      * right. by apply list_elem_of_singleton in Hs.
    + rewrite filter_app, map_app. apply NoDup_app. split; [done|]. split.
      * intros k Hk Hk'. rewrite filter_cons in Hk'.
        destruct (decide (payload_of t (cur_min m) ≠ ""%string)) as [Hpne|];
          [|by apply elem_of_nil in Hk'].
        simpl in Hk'. apply list_elem_of_singleton in Hk' as ->.
        apply list_elem_of_In, in_map_iff in Hk as (s & Hks & Hs).
        apply list_elem_of_In, list_elem_of_filter in Hs as [Hps Hs].
        destruct (Hcached s (Hbuilt s Hs) Hps) as (v & Hv & Hvne).
        rewrite Hks in Hv. by apply Hempty in Hv.
      * rewrite filter_cons. destruct (decide (payload_of t (cur_min m) ≠ ""%string));
          simpl; [apply NoDup_singleton|apply NoDup_nil_2].
    + intros s s1 Hs Hs1 Hlt1 Hk1.
      apply Hsnoc in Hs1. apply elem_of_app in Hs as [Hs|Hs].
      * destruct Hs1 as [Hs1| ->]; [by eapply Hreuse|].
        apply Hbuilt, Hbelow in Hs. lia.
      * apply list_elem_of_singleton in Hs as ->.
        destruct Hs1 as [Hs1| ->]; [|lia].
        destruct (decide (payload_of t s1 = ""%string)) as [|Hpne]; [done|].
        destruct (Hcached s1 Hs1 Hpne) as (v & Hv & Hvne).
        rewrite Hk1 in Hv. by apply Hempty in Hv.
  - (* the payload comes from the cache *)
    destruct (intersectionCache m !! key_of t (cur_min m)) as [v|] eqn:Hv; [|done].
    simpl in Hhit. rewrite string_length_zero in Hhit. simpl.
    split; [|exact Htot].
    constructor; cbn [it nonEmpty cur_min intersectionCache calls built].
    + done.
    + done.
    + done.
    + intros Hz. left. by apply Hend'.
    + apply Hsorted'.
    + apply Hcalls'.
    + done.
    + intros s Hs Hps. apply Hsnoc in Hs as [Hs| ->]; [by apply Hcached|].
      by exists v.
    + intros s pl Hin. apply elem_of_app in Hin as [Hin|Hin]; [by apply Hpay|].
      apply list_elem_of_singleton in Hin. injection Hin as -> ->.
      destruct (Hcache _ _ Hv Hhit) as (s' & Hs' & Hk' & Hp'). by exists s'.
    + intros s Hs. apply Hsnoc. left. by apply Hbuilt.
    + done.
    + intros s s1 Hs Hs1 Hlt1 Hk1. apply Hsnoc in Hs1 as [Hs1| ->]; [by eapply Hreuse|].
      apply Hbuilt, Hbelow in Hs. lia.
Qed.

(** ** drain: the merge loop on a well-formed batch *)

Lemma live_le_total (cs : list (list Z)) : live cs <= Z.of_nat (total cs).
Proof.
  unfold total. induction cs as [|[|x c] cs IH]; simpl; [lia|lia|].
  rewrite length_app in *. lia.
Qed.

Lemma live_all_nonempty (cs : list (list Z)) :
  Forall (λ c, c ≠ []) cs → live cs = Z.of_nat (length cs).
Proof.
  induction 1 as [|c cs Hc _ IH]; [done|].
  destruct c; [done|]. simpl length; simpl live. lia.
Qed.

Lemma merge_loop_inv (t : TopicTree) :
  Forall (λ S, StronglySorted Z.lt S ∧ Forall (λ x, x < UINTPTR_MAX) S) (triggered_sets t) →
  ∀ (fuel : nat) (m : Merge),
  merge_inv t m → (total (it m) ≤ fuel)%nat →
  ∃ m', merge_loop fuel t m = Some m' ∧ merge_inv t m' ∧ nonEmpty m' = 0.
Proof.
  intros Hsets. induction fuel as [|fuel IH]; intros m Hinv Hfuel; simpl.
  - destruct (Z.eqb_spec (nonEmpty m) 0) as [Hz|Hnz]; [by exists m|].
    pose proof (live_le_total (it m)). pose proof (live_nonneg (it m)).
    rewrite (inv_nonEmpty t m Hinv) in Hnz. lia.
  - destruct (Z.eqb_spec (nonEmpty m) 0) as [Hz|Hnz]; [by exists m|].
    destruct (merge_step_inv t m Hsets Hinv Hnz) as [Hinv' Htot].
    apply IH; [done|lia].
Qed.

Lemma batch_ok_sets (t : TopicTree) :
  batch_ok t →
  Forall (λ S, StronglySorted Z.lt S ∧ Forall (λ x, x < UINTPTR_MAX) S) (triggered_sets t).
Proof.
  intros [H _]. eapply Forall_impl; [exact H|]. simpl.
  intros S (_ & Hs & Hb). split; [done|].
  eapply Forall_impl; [exact Hb|]. simpl. intros; lia.
Qed.

Lemma merge_init_inv (t : TopicTree) : batch_ok t → merge_inv t (merge_init t).
Proof.
  intros [Hsets Hmin].
  assert (∀ S x, S ∈ triggered_sets t → x ∈ S → min t <= x) as Hge.
  { intros S x HS Hx. rewrite Forall_forall in Hsets.
    destruct (Hsets S HS) as (_ & _ & Hb). rewrite Forall_forall in Hb.
    by apply Hb. }
  constructor; unfold merge_init; cbn [it nonEmpty cur_min intersectionCache calls built].
  - fold (triggered_sets t). rewrite <- (map_id (triggered_sets t)) at 1.
    apply map_ext_in. intros S HS%list_elem_of_In. symmetry. apply drop_below_id.
    apply Forall_forall. intros x Hx. by eapply Hge.
  - fold (triggered_sets t). rewrite live_all_nonempty.
    + unfold numTriggeredTopics, triggered_sets. by rewrite length_map.
    + eapply Forall_impl; [exact Hsets|]. simpl. by intros S (? & _).
  - intros Hne. destruct Hmin as [Hnil|Hex]; [|done].
    unfold numTriggeredTopics in Hne. by rewrite Hnil in Hne.
  - intros Hz. right. unfold numTriggeredTopics in Hz.
    destruct (triggeredTopics t); [done|simpl in Hz; lia].
  - constructor.
  - intros s. simpl. split; [by intros ?%elem_of_nil|].
    intros [Hlt Hex]. apply Exists_exists in Hex as (S & HS & Hin).
    pose proof (Hge S s HS Hin). lia.
  - intros k v Hk. by rewrite lookup_empty in Hk.
  - intros s Hs. by apply elem_of_nil in Hs.
  - intros s pl Hs. by apply elem_of_nil in Hs.
  - intros s Hs. by apply elem_of_nil in Hs.
  - simpl. constructor.
  - intros s s1 Hs. by apply elem_of_nil in Hs.
Qed.

(** The merge on a well-formed batch runs to its end within as many
    iterations as the sets of the batch have subscribers. *)
Lemma merge_loop_ok (t : TopicTree) :
  batch_ok t →
  ∃ m, merge_loop (total (triggered_sets t)) t (merge_init t) = Some m
       ∧ merge_inv t m ∧ nonEmpty m = 0.
Proof.
  intros Hok. apply merge_loop_inv.
  - by apply batch_ok_sets.
  - by apply merge_init_inv.
  - unfold merge_init, triggered_sets. simpl. lia.
Qed.

(** ** drain: the subscribers of a batch *)

Lemma all_subscribers_sorted (t : TopicTree) : StronglySorted Z.lt (all_subscribers t).
Proof.
  unfold all_subscribers. induction (triggered_sets t) as [|S sets IH]; simpl; [constructor|].
  induction S as [|x S IHS]; simpl; [done|]. by apply StronglySorted_set_insert.
Qed.

Lemma elem_of_all_subscribers (t : TopicTree) (s : Z) :
  s ∈ all_subscribers t ↔ Exists (λ S, s ∈ S) (triggered_sets t).
Proof.
  unfold all_subscribers. induction (triggered_sets t) as [|S sets IH]; simpl.
  - rewrite Exists_nil, elem_of_nil. tauto.
  - rewrite Exists_cons, <- IH. clear IH.
    induction S as [|x S IHS]; simpl.
    + rewrite elem_of_nil. tauto.
    + rewrite elem_of_set_insert, IHS, elem_of_cons. tauto.
Qed.

Lemma merge_done_calls (t : TopicTree) (m : Merge) :
  Forall (λ S, StronglySorted Z.lt S ∧ Forall (λ x, x < UINTPTR_MAX) S) (triggered_sets t) →
  merge_inv t m → nonEmpty m = 0 → map fst (calls m) = all_subscribers t.
Proof.
  intros Hsets Hinv Hz.
  apply StronglySorted_lt_unique;
    [apply (inv_sorted t m Hinv)|apply all_subscribers_sorted|].
  intros s. rewrite (inv_calls t m Hinv), elem_of_all_subscribers.
  split; [tauto|]. intros Hex. split; [|done].
  apply Exists_exists in Hex as (S & HS & Hin).
  destruct (decide (s < cur_min m)) as [|Hge]; [done|exfalso].
  rewrite Forall_forall in Hsets. destruct (Hsets S HS) as [Hsorted _].
  assert (s ∈ drop_below (cur_min m) S) as Hs
    by (apply elem_of_drop_below; [done|split; [done|lia]]).
  assert (live (it m) ≠ 0); [|rewrite <- (inv_nonEmpty t m Hinv) in *; lia].
  rewrite (inv_it t m Hinv). apply live_pos_iff.
  destruct (drop_below (cur_min m) S) as [|y r] eqn:E; [by apply elem_of_nil in Hs|].
  exists y, r. rewrite <- E. apply list_elem_of_In, in_map_iff. exists S.
  split; [done|by apply list_elem_of_In].
Qed.

Lemma pattern_matched (t : TopicTree) (s s' : Z) :
  pattern t s = pattern t s' → matched_nodes t s = matched_nodes t s'.
Proof.
  unfold pattern, matched_nodes, triggered_sets. rewrite !map_map.
  induction (triggeredTopics t) as [|p tt IH]; simpl; [done|].
  intros [= Hp Htt]. rewrite !filter_cons, (IH Htt).
  destruct (decide (s ∈ subs (node t p))), (decide (s' ∈ subs (node t p))); try done.
  - rewrite bool_decide_eq_true_2, bool_decide_eq_false_2 in Hp by done. done.
  - rewrite bool_decide_eq_false_2, bool_decide_eq_true_2 in Hp by done. done.
Qed.

Lemma key_of_inj (t : TopicTree) (s s' : Z) :
  (length (triggeredTopics t) ≤ 32)%nat →
  key_of t s = key_of t s' → pattern t s = pattern t s'.
Proof.
  intros Hlen. apply mask_acc_inj; unfold pattern, triggered_sets;
    rewrite ?length_map; done.
Qed.

Lemma all_subscribers_spec (t : TopicTree) (s : Z) :
  s ∈ all_subscribers t ↔ ∃ p, p ∈ triggeredTopics t ∧ s ∈ subs (node t p).
Proof.
  rewrite elem_of_all_subscribers, Exists_exists. split.
  - intros (S & HS & Hin). apply triggered_sets_elem in HS as (p & Hp & ->). eauto.
  - intros (p & Hp & Hin). exists (subs (node t p)). split; [|done].
    apply triggered_sets_elem. eauto.
Qed.

Lemma calls_by_payload (f : Z → string) (l : list (Z * string)) :
  (∀ s pl, (s, pl) ∈ l → pl = f s) → l = map (λ s, (s, f s)) (map fst l).
Proof.
  induction l as [|[s pl] l IH]; intros H; simpl; [done|].
  rewrite <- IH.
  - rewrite <- (H s pl); [done|]. apply elem_of_cons. by left.
  - intros s' pl' Hin. apply H. apply elem_of_cons. by right.
Qed.

Lemma merge_loop_done (fuel : nat) (t : TopicTree) (m : Merge) :
  nonEmpty m = 0 → merge_loop fuel t m = Some m.
Proof. intros H. destruct fuel; simpl; by rewrite H. Qed.

(** ** drain: what it delivers on a well-formed batch *)

(** On a well-formed batch [drain] returns, having called [cb] once for
    each distinct subscriber of the batch, in ascending order; when the
    batch has at most 32 nodes, each call carries the payload merged from
    the nodes that subscriber belongs to. *)
Theorem drain_delivers_once (t : TopicTree) :
  batch_ok t →
  ∃ t' log, drain (total (triggered_sets t)) t = Some (t', log)
    ∧ map fst log = all_subscribers t
    ∧ StronglySorted Z.lt (map fst log)
    ∧ (∀ s, s ∈ map fst log ↔ ∃ p, p ∈ triggeredTopics t ∧ s ∈ subs (node t p))
    ∧ ((length (triggeredTopics t) ≤ 32)%nat →
       log = map (λ s, (s, payload_of t s)) (all_subscribers t)).
Proof.
  intros Hok. unfold drain.
  destruct (merge_loop_ok t Hok) as (m & Hloop & Hinv & Hz).
  pose proof (merge_done_calls t m (batch_ok_sets t Hok) Hinv Hz) as Hcalls.
  assert (∃ t', (if numTriggeredTopics t =? 0 then Some (t, [])
                 else match merge_loop (total (triggered_sets t)) t (merge_init t) with
                      | Some m0 =>
                          Some (mkTree (reset_batch (triggeredTopics t) (topics t)) (root t)
                                  (messageId t) [] (cur_min m0) (subscriptions t), calls m0)
                      | None => None
                      end) = Some (t', calls m)) as [t' Ht'].
  { destruct (Z.eqb_spec (numTriggeredTopics t) 0) as [Hnum|Hnum].
    - exists t. f_equal. f_equal.
      assert (merge_loop (total (triggered_sets t)) t (merge_init t) = Some (merge_init t))
        as Hinit.
      { by apply merge_loop_done. }
      rewrite Hinit in Hloop. by injection Hloop as <-.
    - rewrite Hloop. eauto. }
  exists t', (calls m). rewrite Ht', Hcalls.
  split; [done|]. split; [done|]. split; [apply all_subscribers_sorted|].
  split; [apply all_subscribers_spec|].
  intros Hlen. rewrite <- Hcalls. apply calls_by_payload.
  intros s pl Hin.
  destruct (inv_payload t m Hinv s pl Hin) as (s' & _ & Hk & ->).
  unfold payload_of. f_equal. by apply pattern_matched, key_of_inj.
Qed.

Lemma batch_ok_empty_payload_batch : batch_ok empty_payload_batch.
Proof.
  assert (triggered_sets empty_payload_batch = [[1; 2]]) as Hs by (vm_compute; reflexivity).
  assert (min empty_payload_batch = 1) as Hm by (vm_compute; reflexivity).
  unfold batch_ok. rewrite Hs, Hm. split.
  - apply Forall_singleton. split; [done|]. split.
    + repeat constructor.
    + repeat constructor; unfold UINTPTR_MAX; lia.
  - right. apply Exists_cons. left. left.
Qed.

(** C5 fails on the code.  The cache is tested with
    [intersectionCache[intersection].length() == 0], which a cached empty
    payload passes like a missing one: with an empty message published to
    a topic of two subscribers, both have the same matched subset and the
    payload is built for each of them, two constructions for one
    subset. *)
Lemma empty_payload_built_twice :
  ∃ m, merge_loop 2 empty_payload_batch (merge_init empty_payload_batch) = Some m
    ∧ calls m = [(1, ""%string); (2, ""%string)]
    ∧ built m = [1; 2]
    ∧ pattern empty_payload_batch 1 = pattern empty_payload_batch 2
    ∧ length (remove_dups (map (pattern empty_payload_batch)
                             (all_subscribers empty_payload_batch))) = 1%nat
    ∧ ¬ (length (built m)
         ≤ length (remove_dups (map (pattern empty_payload_batch)
                                  (all_subscribers empty_payload_batch))))%nat.
Proof.
  eexists. split; [vm_compute; reflexivity|].
  split; [reflexivity|]. split; [reflexivity|].
  split; [vm_compute; reflexivity|]. split; [vm_compute; reflexivity|].
  vm_compute. lia.
Qed.

(** ** drain: the state it leaves *)

Lemma batch_ok_two_topic_batch : batch_ok two_topic_batch.
Proof.
  assert (triggered_sets two_topic_batch = [[20]; [10]]) as Hs by (vm_compute; reflexivity).
  assert (min two_topic_batch = 10) as Hm by (vm_compute; reflexivity).
  unfold batch_ok. rewrite Hs, Hm. split.
  - repeat apply Forall_cons_2; [| |done].
    + split; [done|]. split; repeat constructor; unfold UINTPTR_MAX; lia.
    + split; [done|]. split; repeat constructor; unfold UINTPTR_MAX; lia.
  - right. apply Exists_cons. right. apply Exists_cons. left. left.
Qed.

(** ** The batch under disciplined use *)

Lemma bounded_node (h : list Topic) (p : nat) :
  bounded h → Forall (λ x, x < UINTPTR_MAX) (subs (h !!! p)).
Proof.
  intros Hb. destruct (decide (p < length h)%nat) as [Hp|Hp].
  - by apply (Forall_lookup_total_1 _ _ p) in Hb.
  - rewrite list_lookup_total_alt, lookup_ge_None_2 by lia. constructor.
Qed.

Lemma bounded_shape (h h' : list Topic) : same_shape h h' → bounded h → bounded h'.
Proof.
  intros [Hlen Hsh] Hb. unfold bounded. apply Forall_lookup. intros p n Hn.
  apply list_lookup_total_correct in Hn as <-.
  destruct (Hsh p) as (_ & _ & _ & _ & _ & ->). by apply bounded_node.
Qed.

Lemma sorted_node (h : list Topic) (rt p : nat) :
  wf_arena h rt → StronglySorted Z.lt (subs (h !!! p)).
Proof.
  intros Hwf. destruct (decide (p < length h)%nat) as [Hp|Hp].
  - by destruct (wf_arena_node h rt p Hwf Hp) as (_ & _ & _ & _ & ?).
  - rewrite list_lookup_total_alt, lookup_ge_None_2 by lia. constructor.
Qed.

Lemma triggered_sets_shape (t t' : TopicTree) :
  same_shape (topics t) (topics t') → triggeredTopics t' = triggeredTopics t →
  triggered_sets t' = triggered_sets t.
Proof.
  intros [_ Hsh] Htt. unfold triggered_sets, node. rewrite Htt.
  apply map_ext. intros p. by destruct (Hsh p) as (_ & _ & _ & _ & _ & ->).
Qed.

(** Storing on a node that has subscribers keeps the batch ready. *)
Lemma publish_store_batch_inv (message : string) (p : nat) (t : TopicTree) :
  batch_inv t →
  subs (node t p) ≠ [] → StronglySorted Z.lt (subs (node t p)) →
  Forall (λ x, x < UINTPTR_MAX) (subs (node t p)) →
  batch_inv (publish_store message p t).
Proof.
  intros [[Hsets Hmin] Hreset] Hne Hsorted Hbound.
  pose proof (publish_store_shape message p t) as Hsh.
  unfold batch_inv, batch_ok.
  destruct (triggered (node t p)) eqn:Htr.
  - assert (triggeredTopics (publish_store message p t) = triggeredTopics t
            ∧ min (publish_store message p t) = min t) as [Htt Hm]
      by (unfold publish_store; by rewrite Htr).
    rewrite (triggered_sets_shape t _ Hsh Htt), Htt, Hm. done.
  - assert (triggeredTopics (publish_store message p t) = triggeredTopics t ++ [p]
            ∧ min (publish_store message p t)
              = (if set_begin (subs (node t p)) <? min t
                 then set_begin (subs (node t p)) else min t)) as [Htt Hm]
      by (unfold publish_store; by rewrite Htr).
    assert (triggered_sets (publish_store message p t)
            = triggered_sets t ++ [subs (node t p)]) as Hts.
    { unfold triggered_sets. rewrite Htt, map_app. simpl. f_equal.
      - apply map_ext. intros q. unfold node.
        by destruct (proj2 Hsh q) as (_ & _ & _ & _ & _ & ->).
      - unfold node. by destruct (proj2 Hsh p) as (_ & _ & _ & _ & _ & ->). }
    rewrite Hts, Htt, Hm.
    destruct (subs (node t p)) as [|x0 r] eqn:Hs; [done|]. simpl.
    assert (∀ x, x ∈ x0 :: r → x0 <= x) as Hhead
      by (intros x; by apply StronglySorted_head_le).
    split; [split|].
    + apply Forall_app. split.
      * eapply Forall_impl; [exact Hsets|]. simpl. intros S (H1 & H2 & H3).
        split; [done|]. split; [done|].
        eapply Forall_impl; [exact H3|]. simpl. intros x Hx.
        destruct (Z.ltb_spec x0 (min t)); lia.
      * apply Forall_singleton. split; [done|]. split; [done|].
        apply Forall_forall. intros x Hx. rewrite Forall_forall in Hbound.
        specialize (Hbound x Hx). specialize (Hhead x Hx).
        destruct (Z.ltb_spec x0 (min t)); lia.
    + right. apply Exists_app. destruct (Z.ltb_spec x0 (min t)) as [Hlt|Hge].
      * right. apply Exists_cons. left. apply elem_of_cons. by left.
      * left. destruct Hmin as [Hnil|Hex]; [|done].
        rewrite Forall_forall in Hbound.
        assert (x0 < UINTPTR_MAX) by (apply Hbound, elem_of_cons; by left).
        rewrite (Hreset Hnil) in Hge. lia.
    + intros Hnil. by apply app_eq_nil in Hnil as [_ ?].
Qed.

Lemma store_all_batch_inv (message : string) (rt : nat) (l : list nat) :
  ∀ t : TopicTree,
  batch_inv t → wf_arena (topics t) rt → bounded (topics t) →
  Forall (λ p, subs (node t p) ≠ []) l →
  batch_inv (store_all message l t).
Proof.
  induction l as [|p l IH]; intros t Hinv Hwf Hb Hl; [done|].
  apply Forall_cons in Hl as [Hp Hl].
  change (store_all message (p :: l) t)
    with (store_all message l (publish_store message p t)).
  pose proof (publish_store_shape message p t) as Hsh.
  apply IH.
  - apply publish_store_batch_inv; [done|done|by eapply sorted_node|by apply bounded_node].
  - by apply (wf_arena_shape (topics t)).
  - by apply (bounded_shape (topics t)).
  - eapply Forall_impl; [exact Hl|]. simpl. intros q Hq. unfold node in *.
    by destruct (proj2 Hsh q) as (_ & _ & _ & _ & _ & ->).
Qed.

Lemma batch_inv_bump (t : TopicTree) : batch_inv t → batch_inv (bump_messageId t).
Proof. done. Qed.

(** The merge loop returns the same state whatever fuel lets it return. *)
Lemma merge_loop_det (t : TopicTree) (f1 : nat) :
  ∀ (f2 : nat) (m r1 r2 : Merge),
  merge_loop f1 t m = Some r1 → merge_loop f2 t m = Some r2 → r1 = r2.
Proof.
  induction f1 as [|f1 IH]; intros f2 m r1 r2; destruct f2; simpl;
    destruct (nonEmpty m =? 0); try congruence. apply IH.
Qed.

(** After [drain] the batch is empty and [min] is back at [UINTPTR_MAX]. *)
Lemma drain_batch_inv (fuel : nat) (t t' : TopicTree) (log : list (Z * string)) :
  batch_inv t → drain fuel t = Some (t', log) → batch_inv t'.
Proof.
  intros [Hok Hreset] Hdr. unfold drain in Hdr.
  destruct (Z.eqb_spec (numTriggeredTopics t) 0) as [Hz|Hnz].
  - injection Hdr as <- <-. done.
  - destruct (merge_loop fuel t (merge_init t)) as [m|] eqn:Hloop; [|done].
    injection Hdr as <- <-.
    destruct (merge_loop_ok t Hok) as (m' & Hloop' & Hinv & Hzero).
    rewrite (merge_loop_det t _ _ _ _ _ Hloop Hloop').
    split.
    + split; [constructor|by left].
    + intros _. simpl. destruct (inv_end t m' Hinv Hzero) as [E|E]; [done|].
      unfold numTriggeredTopics in Hnz. by rewrite E in Hnz.
Qed.

Lemma subscribe_walk_bounded (topic : string) (fuel : nat) :
  ∀ (h : list Topic) (it : nat) (start stop : Z) (h' : list Topic) (it' : nat),
  subscribe_walk fuel topic h it start stop = Some (h', it') →
  bounded h → bounded h'.
Proof.
  induction fuel as [|fuel IH]; intros h it start stop h' it'; simpl.
  - destruct (stop =? npos); [|done]. by intros [= <- <-].
  - destruct (stop =? npos); [by intros [= <- <-]|].
    destruct (children (h !!! it) !! _) as [c|]; [apply IH|].
    intros Hw Hb. eapply IH; [exact Hw|].
    unfold bounded. apply Forall_app. split.
    + apply Forall_insert; [done|]. simpl. by apply bounded_node.
    + apply Forall_singleton. constructor.
Qed.

Lemma subscribe_bounded (topic : string) (s : Z) (t : TopicTree) :
  s < UINTPTR_MAX → bounded (topics t) → bounded (topics (subscribe topic s t)).
Proof.
  intros Hs Hb. unfold subscribe, subscribe_fuel.
  destruct (subscribe_walk _ _ _ _ _ _) as [[h it]|] eqn:Hw; simpl; [|done].
  pose proof (subscribe_walk_bounded _ _ _ _ _ _ _ _ Hw Hb) as Hb'.
  apply Forall_insert; [done|]. simpl. apply Forall_forall.
  intros x Hx. apply elem_of_set_insert in Hx as [->|Hx]; [done|].
  pose proof (bounded_node h it Hb') as H. rewrite Forall_forall in H. by apply H.
Qed.

Lemma batch_inv_frame (t t' : TopicTree) :
  triggeredTopics t = [] → triggeredTopics t' = triggeredTopics t → min t' = min t →
  batch_inv t → batch_inv t'.
Proof.
  intros Hnil Htt Hm [_ Hreset]. rewrite Hnil in Htt. split.
  - split; [|by left]. unfold triggered_sets. rewrite Htt. constructor.
  - intros _. rewrite Hm. by apply Hreset.
Qed.

(** Under disciplined use the batch is always one the merge of [drain]
    is written for. *)
Lemma disciplined_batch (t : TopicTree) :
  disciplined t → reachable t ∧ bounded (topics t) ∧ batch_inv t.
Proof.
  induction 1 as [|topic s t Hs _ (IHr & IHb & IHi) Hnil
                  |s t t' _ (IHr & IHb & IHi) Hnil Hun
                  |topic message t l _ (IHr & IHb & IHi) Hl Hne
                  |fuel t t' log _ (IHr & IHb & IHi) Hdr].
  - split; [constructor|]. split.
    + apply Forall_singleton. constructor.
    + split; [split; [constructor|by left]|done].
  - destruct Hs as [Hs0 Hs1]. split; [apply reach_subscribe; [lia|done]|].
    split; [by apply subscribe_bounded|].
    destruct (subscribe_fields topic s t) as [Htt Hm].
    by apply (batch_inv_frame t).
  - destruct (reachable_wf t IHr) as [Hwf Htr].
    destruct (unsubscribeAll_ok s t Hwf Htr)
      as (t'' & Hun' & _ & _ & _ & _ & _ & Hlen & _ & Hsub & Htt & Hm).
    rewrite Hun in Hun'. injection Hun' as <-.
    split; [by apply (reach_unsubscribeAll s t)|]. split.
    + unfold bounded. apply Forall_lookup. intros p n Hn.
      apply list_lookup_total_correct in Hn as <-.
      apply Forall_forall. intros x Hx.
      apply Hsub in Hx. pose proof (bounded_node (topics t) p IHb) as H.
      rewrite Forall_forall in H. by apply H.
    + by apply (batch_inv_frame t).
  - split; [by apply reach_publish|].
    destruct (publish_shape topic message t) as (Hsh & _ & _).
    split; [by apply (bounded_shape (topics t))|].
    rewrite (publish_eq topic message t l Hl). apply batch_inv_bump.
    destruct (reachable_wf t IHr) as [[Hwa _] _].
    by apply (store_all_batch_inv message (root t)).
  - split; [by apply (reach_drain fuel t t' log)|].
    destruct (drain_shape fuel t t' log Hdr) as (Hsh & _ & _).
    split; [by apply (bounded_shape (topics t))|].
    by apply (drain_batch_inv fuel t t' log).
Qed.

(** ** drain on small batches *)

Lemma drain_single_node (t : TopicTree) (p : nat) (s k : Z) (m : string) :
  triggeredTopics t = [p] → subs (node t p) = [s] → messages (node t p) = [(k, m)] →
  min t = s → s < UINTPTR_MAX →
  ∃ t', drain 1 t = Some (t', [(s, m)]).
Proof.
  intros Htt Hsubs Hmsg Hmin Hs.
  assert (triggered_sets t = [[s]]) as Hsets
    by (unfold triggered_sets; by rewrite Htt; simpl; rewrite Hsubs).
  assert (batch_ok t) as Hok.
  { unfold batch_ok. rewrite Hsets, Hmin. split.
    - apply Forall_singleton. split; [done|]. split; [repeat constructor|].
      apply Forall_singleton. lia.
    - right. apply Exists_cons. left. apply elem_of_cons. by left. }
  destruct (drain_delivers_once t Hok) as (t' & log & Hdrain & _ & _ & _ & Hlog).
  rewrite Hsets in Hdrain. change (total [[s]]) with 1%nat in Hdrain.
  exists t'. rewrite Hdrain. f_equal. f_equal.
  rewrite Hlog by (rewrite Htt; simpl; lia).
  unfold all_subscribers. rewrite Hsets. simpl. f_equal. f_equal.
  unfold payload_of, matched_nodes. rewrite Htt, filter_cons, decide_True, filter_nil.
  - unfold build_payload, complete_of. simpl. unfold node in Hmsg. by rewrite Hmsg.
  - rewrite Hsubs. apply elem_of_cons. by left.
Qed.

Lemma drain_empty_batch (fuel : nat) (t : TopicTree) :
  triggeredTopics t = [] → drain fuel t = Some (t, []).
Proof. intros H. unfold drain, numTriggeredTopics. by rewrite H. Qed.

Lemma scan_all_empty (mn : Z) (its : list (list Z)) :
  ∀ (tt : list nat) (i : Z) (a : Scan),
  Forall (λ c, c = []) its → length its = length tt →
  scan mn i its tt a
  = mkScan (sc_it a ++ its) (sc_nonEmpty a) (sc_nextMin a) (sc_intersection a) (sc_per a).
Proof.
  induction its as [|c its IH]; intros tt i a Hall Hlen.
  - destruct a, tt; simpl; by rewrite ?app_nil_r.
  - destruct tt as [|p tt]; [done|]. injection Hlen as Hlen.
    apply Forall_cons in Hall as [-> Hall]. cbn [scan]. rewrite IH by done.
    simpl. by rewrite <- app_assoc.
Qed.

Lemma merge_step_all_empty (t : TopicTree) (m : Merge) :
  Forall (λ c, c = []) (it m) → length (it m) = length (triggeredTopics t) →
  it (merge_step t m) = it m
  ∧ cur_min (merge_step t m) = UINTPTR_MAX
  ∧ map fst (calls (merge_step t m)) = map fst (calls m) ++ [cur_min m].
Proof.
  intros Hall Hlen. unfold merge_step. cbv zeta.
  rewrite scan_all_empty by done. cbn [sc_it sc_nonEmpty sc_nextMin sc_intersection sc_per app].
  destruct (String.length _ =? 0)%nat; cbn [it cur_min calls];
    rewrite map_app; done.
Qed.

(** When every node of the batch has lost its subscribers, the merge
    calls [cb] for the stale [min] and then for [UINTPTR_MAX] only. *)
Lemma merge_prefix_all_empty (t : TopicTree) (n : nat) :
  Forall (λ p, subs (node t p) = []) (triggeredTopics t) →
  ∀ c, c ∈ merge_prefix n t → c.1 = min t ∨ c.1 = UINTPTR_MAX.
Proof.
  intros Hall. unfold merge_prefix.
  assert (Forall (λ c, c = []) (it (Nat.iter n (merge_step t) (merge_init t)))
          ∧ length (it (Nat.iter n (merge_step t) (merge_init t)))
            = length (triggeredTopics t)
          ∧ (cur_min (Nat.iter n (merge_step t) (merge_init t)) = min t
             ∨ cur_min (Nat.iter n (merge_step t) (merge_init t)) = UINTPTR_MAX)
          ∧ ∀ x, x ∈ map fst (calls (Nat.iter n (merge_step t) (merge_init t))) →
                 x = min t ∨ x = UINTPTR_MAX) as (_ & _ & _ & H).
  { induction n as [|n (IH1 & IH2 & IH3 & IH4)].
    - simpl. split; [|split; [by rewrite length_map|split; [by left|]]].
      + apply Forall_forall. intros c Hc.
        apply list_elem_of_In, in_map_iff in Hc as (p & <- & Hp).
        rewrite Forall_forall in Hall. apply Hall. by apply list_elem_of_In.
      + intros x Hx. by apply elem_of_nil in Hx.
    - rewrite !Nat.iter_succ.
      destruct (merge_step_all_empty t _ IH1 IH2) as (E1 & E2 & E3).
      rewrite E1, E2, E3. split; [done|]. split; [done|]. split; [by right|].
      intros x Hx. apply elem_of_app in Hx as [Hx|Hx]; [by apply IH4|].
      apply list_elem_of_singleton in Hx as ->. done. }
  intros c Hc. apply H. apply list_elem_of_In, in_map. by apply list_elem_of_In.
Qed.

(** ** The scenarios of the specification *)

(** Scenario 1: two subscribers, one publish, two deliveries. *)
Example scenario_two_subscribers :
  snd <$> drain 2 two_topic_batch = Some [(10, "M1"%string); (20, "M1"%string)].
Proof. vm_compute. reflexivity. Qed.

(** Scenario 2: one subscriber on two nodes triggered by one publish. *)
Example scenario_overlap_once :
  snd <$> drain 1 (publish "a/b" "M1" (subscribe "a/#" 10 (subscribe "a/b" 10 emptyTree)))
  = Some [(10, "M1"%string)].
Proof. vm_compute. reflexivity. Qed.

(** Scenario 3: a publish without subscribers leaves the batch empty. *)
Example scenario_no_subscribers :
  drain 0 (publish "x/y" "Z" emptyTree)
  = Some (bump_messageId emptyTree, []).
Proof. vm_compute. reflexivity. Qed.

(** Scenario 4: unsubscribing the only subscriber removes "a/b" and "a";
    subscribing again allocates the path afresh. *)
Example scenario_trim_and_resubscribe :
  ∃ t, unsubscribeAll 10 (subscribe "a/b" 10 emptyTree) = Some t
       ∧ children (node t 0) = ∅ ∧ children (node t 1) = ∅
       ∧ children (node (subscribe "a/b" 20 t) 0) !! "a"%string = Some 3%nat
       ∧ children (node (subscribe "a/b" 20 t) 3) !! "b"%string = Some 4%nat
       ∧ subs (node (subscribe "a/b" 20 t) 4) = [20].
Proof. eexists. split; [vm_compute; reflexivity|]. vm_compute. repeat split. Qed.

(** C1 fails on the code.  [min] is lowered by [publish] only, when a node
    becomes triggered; a subscriber with a lower address that joins the
    node afterwards is not seen, and [drain] starts the merge at a [min]
    that no cursor points at.  Subscriber 5 is then called twice, first
    with the payload of the empty intersection. *)
Theorem drain_stale_min_calls_twice :
  snd <$> drain 3 (subscribe "a" 3 (publish "a" "M" (subscribe "a" 5 emptyTree)))
  = Some [(5, ""%string); (3, "M"%string); (5, "M"%string)].
Proof. vm_compute. reflexivity. Qed.

(** ** The wildcard scenarios *)

Ltac walk_of topic t :=
  let v := eval vm_compute in
    (subscribe_walk (S (String.length topic)) topic (topics t) (root t) 0 0) in
  match v with
  | Some (?h, ?it) =>
      let H := fresh "Hwalk" in
      assert (subscribe_walk (S (String.length topic)) topic (topics t) (root t) 0 0
              = Some (h, it)) as H by (vm_compute; reflexivity);
      rewrite (subscribe_eq topic _ t h it H); clear H
  end.

Lemma hash_tree_shape (s : Z) :
  length (topics (hash_tree s)) = 3%nat
  ∧ root (hash_tree s) = 0%nat
  ∧ node (hash_tree s) 2 = mkTopic "#" (Some 1%nat) false ∅ None None [] [s]
  ∧ triggered (node (hash_tree s) 1) = false
  ∧ triggeredTopics (hash_tree s) = []
  ∧ min (hash_tree s) = UINTPTR_MAX
  ∧ messageId (hash_tree s) = 0
  ∧ publish_targets 4 "a/b" (topics (hash_tree s)) 0 0 0 = Some [2%nat]
  ∧ publish_targets 6 "a/b/c" (topics (hash_tree s)) 0 0 0 = Some [2%nat]
  ∧ publish_targets 2 "a" (topics (hash_tree s)) 0 0 0 = Some [1%nat].
Proof.
  unfold hash_tree. walk_of "a/#"%string emptyTree.
  unfold node. cbn [topics root triggeredTopics min messageId emptyTree].
  repeat split; vm_compute; reflexivity.
Qed.

Lemma plus_tree_shape (s : Z) :
  length (topics (plus_tree s)) = 4%nat
  ∧ root (plus_tree s) = 0%nat
  ∧ node (plus_tree s) 3 = mkTopic "c" (Some 2%nat) false ∅ None None [] [s]
  ∧ triggered (node (plus_tree s) 2) = false
  ∧ subs (node (plus_tree s) 2) = []
  ∧ triggeredTopics (plus_tree s) = []
  ∧ min (plus_tree s) = UINTPTR_MAX
  ∧ messageId (plus_tree s) = 0
  ∧ publish_targets 6 "a/b/c" (topics (plus_tree s)) 0 0 0 = Some [3%nat]
  ∧ publish_targets 8 "a/b/x/c" (topics (plus_tree s)) 0 0 0 = Some []
  ∧ publish_targets 4 "a/c" (topics (plus_tree s)) 0 0 0 = Some [2%nat].
Proof.
  unfold plus_tree. walk_of "a/+/c"%string emptyTree.
  unfold node. cbn [topics root triggeredTopics min messageId emptyTree].
  repeat split; vm_compute; reflexivity.
Qed.

Lemma lt_UINTPTR_MAX (s : Z) : s < UINTPTR_MAX → (s <? UINTPTR_MAX) = true.
Proof. intros H. by apply Z.ltb_lt. Qed.


(** ** The capacity of the batch *)

(** C4 fails on the code.  [publish] stores at
    [triggeredTopics[numTriggeredTopics++]] without comparing the index
    with the size of the array: the 65th node triggered since the last
    [drain] is stored at index 64, and [publish] reports nothing. *)
Theorem triggered_batch_overflows :
  numTriggeredTopics (publish_many 64 (subscribe_many 65 emptyTree)) = TRIGGERED_CAPACITY
  ∧ batch65 = publish (topic_name 64) (topic_name 64)
                (publish_many 64 (subscribe_many 65 emptyTree))
  ∧ triggeredTopics batch65 !! 64%nat = Some 65%nat
  ∧ numTriggeredTopics batch65 = 65
  ∧ TRIGGERED_CAPACITY < numTriggeredTopics batch65.
Proof. vm_compute. repeat split. Qed.

(** ** The loops over a topic visit its segments *)

Lemma segments_nonempty (s : string) : segments s ≠ [].
Proof.
  induction s as [|c s IH]; simpl; [done|].
  destruct (Ascii.eqb c "/"); [done|]. by destruct (segments s).
Qed.

Lemma join_segments_cons (x : string) (l : list string) :
  l ≠ [] → join_segments (x :: l) = String.append x (String "/" (join_segments l)).
Proof. by destruct l. Qed.

Lemma join_segments_segments (s : string) : join_segments (segments s) = s.
Proof.
  induction s as [|c s IH]; [done|].
  cbn [segments]. destruct (Ascii.eqb_spec c "/") as [->|Hc].
  - rewrite join_segments_cons by apply segments_nonempty. by rewrite IH.
  - pose proof (segments_nonempty s) as Hne.
    destruct (segments s) as [|x r]; [done|].
    destruct r as [|y r].
    + cbn [join_segments] in *. by rewrite IH.
    + rewrite join_segments_cons in * by done.
      change (String c (String.append x (String "/" (join_segments (y :: r)))) = String c s).
      by rewrite IH.
Qed.

Lemma segments_no_separator (s : string) :
  Forall (λ x, has_separator x = false) (segments s).
Proof.
  induction s as [|c s IH]; cbn [segments].
  - by constructor.
  - destruct (Ascii.eqb c "/") eqn:E.
    + by constructor.
    + pose proof (segments_nonempty s) as Hne.
      destruct (segments s) as [|x r]; [done|].
      apply Forall_cons in IH as [Hx Hr]. constructor; [|done].
      cbn [has_separator]. by rewrite E, Hx.
Qed.

Lemma take_string_all (s : string) : take_string (String.length s) s = s.
Proof. induction s as [|c s IH]; simpl; [done|]. by rewrite IH. Qed.

Lemma drop_string_drop (a : nat) : ∀ (b : nat) (s : string),
  drop_string a (drop_string b s) = drop_string (b + a) s.
Proof.
  intros b. revert a. induction b as [|b IH]; intros a s; [done|].
  destruct s as [|c s]; simpl.
  - by destruct a.
  - apply IH.
Qed.

Lemma segments_find (s : string) : ∀ pos : nat,
  match find_char "/" s pos with
  | None => segments s = [s]
  | Some i =>
      (pos ≤ i)%nat
      ∧ segments s = take_string (i - pos) s :: segments (drop_string (S (i - pos)) s)
  end.
Proof.
  induction s as [|c s IH]; intros pos; [done|].
  cbn [find_char segments]. destruct (Ascii.eqb c "/") eqn:E.
  - split; [done|]. by rewrite Nat.sub_diag.
  - specialize (IH (S pos)). destruct (find_char "/" s (S pos)) as [i|].
    + destruct IH as [Hle ->]. split; [lia|].
      replace (i - pos)%nat with (S (i - S pos)) by lia. done.
    + by rewrite IH.
Qed.

(** One iteration of the scanning loops: [find] and [substr] cut the next
    segment off the rest of the topic. *)
Lemma scan_segment (topic : string) (start : Z) :
  sv_size topic < npos → 0 <= start <= sv_size topic →
  let stop' := sv_find topic "/" start in
  let segment := sv_substr topic start (wrap64 (stop' - start)) in
  (stop' = npos ∧ segments (drop_string (Z.to_nat start) topic) = [segment])
  ∨ (stop' ≠ npos
     ∧ segments (drop_string (Z.to_nat start) topic)
       = segment :: segments (drop_string (Z.to_nat (wrap64 (stop' + 1))) topic)).
Proof.
  intros Hsz Hs. cbv zeta. unfold sv_find, sv_substr, sv_size in *.
  pose proof (length_drop_string (Z.to_nat start) topic) as Hlen.
  destruct (Z.leb_spec (Z.of_nat (String.length topic)) start) as [Hge|Hlt].
  - left. split; [done|].
    assert (String.length (drop_string (Z.to_nat start) topic) = 0%nat) as H0 by lia.
    destruct (drop_string (Z.to_nat start) topic); [|done].
    replace (Z.to_nat (Z.min (wrap64 (npos - start))
                         (Z.of_nat (String.length topic) - start))) with 0%nat; [done|].
    unfold wrap64, npos in *. rewrite Z.mod_small by lia. lia.
  - pose proof (segments_find (drop_string (Z.to_nat start) topic) (Z.to_nat start)) as Hf.
    destruct (find_char "/" (drop_string (Z.to_nat start) topic) (Z.to_nat start))
      as [i|] eqn:E.
    + right. destruct Hf as [Hle Hseg].
      apply find_char_bounds in E.
      assert (Z.of_nat i ≠ npos) as Hne by (unfold npos in *; lia).
      split; [done|]. rewrite Hseg. f_equal.
      * f_equal. unfold wrap64, npos in *. rewrite Z.mod_small by lia. lia.
      * rewrite drop_string_drop. f_equal. f_equal.
        unfold wrap64, npos in *. rewrite Z.mod_small by lia. lia.
    + left. split; [done|]. rewrite Hf. f_equal.
      replace (Z.to_nat (Z.min (wrap64 (npos - start))
                           (Z.of_nat (String.length topic) - start)))
        with (String.length (drop_string (Z.to_nat start) topic)).
      * by rewrite take_string_all.
      * unfold wrap64, npos in *. rewrite Z.mod_small by lia. lia.
Qed.

Lemma subscribe_walk_segments (topic : string) (fuel : nat) :
  sv_size topic < npos →
  ∀ (h : list Topic) (iterator : nat) (start stop : Z),
  stop ≠ npos → 0 <= start <= sv_size topic → sv_size topic - start < Z.of_nat fuel →
  subscribe_walk fuel topic h iterator start stop
  = Some (subscribe_path h iterator (segments (drop_string (Z.to_nat start) topic))).
Proof.
  intros Hsz. induction fuel as [|fuel IH]; intros h iterator start stop Hstop Hs Hf.
  - lia.
  - cbn [subscribe_walk]. destruct (Z.eqb_spec stop npos) as [|_]; [done|].
    destruct (scan_segment topic start Hsz Hs) as [[Hn Hseg]|[Hn Hseg]];
      cbv zeta in Hseg; rewrite Hseg; cbn [subscribe_path].
    + rewrite Hn.
      destruct (match children (h !!! iterator)
                        !! sv_substr topic start (wrap64 (npos - start)) with
                | Some c => (h, c)
                | None => insert_child h iterator
                            (sv_substr topic start (wrap64 (npos - start)))
                end) as [h1 c].
      by rewrite subscribe_walk_npos.
    + destruct (match children (h !!! iterator)
                        !! sv_substr topic start
                             (wrap64 (sv_find topic "/" start - start)) with
                | Some c => (h, c)
                | None => insert_child h iterator
                            (sv_substr topic start
                               (wrap64 (sv_find topic "/" start - start)))
                end) as [h1 c].
      pose proof (next_start topic "/" start Hsz (proj1 Hs) Hn) as Hnext.
      apply IH; [done|lia|lia].
Qed.

Lemma publish_targets_segments (topic : string) (fuel : nat) :
  sv_size topic < npos →
  ∀ (h : list Topic) (iterator : nat) (start stop : Z),
  stop ≠ npos → 0 <= start <= sv_size topic → sv_size topic - start < Z.of_nat fuel →
  publish_targets fuel topic h iterator start stop
  = Some (match_targets h iterator (segments (drop_string (Z.to_nat start) topic))).
Proof.
  intros Hsz. induction fuel as [|fuel IH]; intros h iterator start stop Hstop Hs Hf.
  - lia.
  - cbn [publish_targets]. destruct (Z.eqb_spec stop npos) as [|_]; [done|].
    destruct (scan_segment topic start Hsz Hs) as [[Hn Hseg]|[Hn Hseg]];
      cbv zeta in Hseg; rewrite Hseg; cbn [match_targets].
    + rewrite Hn.
      destruct (terminatingWildcardChild (h !!! iterator)),
        (wildcardChild (h !!! iterator)),
        (children (h !!! iterator) !! sv_substr topic start (wrap64 (npos - start)));
        by rewrite ?publish_targets_npos, ?app_nil_r.
    + pose proof (next_start topic "/" start Hsz (proj1 Hs) Hn) as Hnext.
      assert (∀ x, publish_targets fuel topic h x
                     (wrap64 (sv_find topic "/" start + 1)) (sv_find topic "/" start)
                   = Some (match_targets h x
                             (segments (drop_string
                                (Z.to_nat (wrap64 (sv_find topic "/" start + 1))) topic))))
        as Hrec by (intros x; apply IH; [done|lia|lia]).
      destruct (terminatingWildcardChild (h !!! iterator)),
        (wildcardChild (h !!! iterator)),
        (children (h !!! iterator)
           !! sv_substr topic start (wrap64 (sv_find topic "/" start - start)));
        by rewrite ?Hrec, ?app_nil_r.
Qed.



Lemma lookup_total_ge (h : list Topic) (x : nat) :
  (length h ≤ x)%nat → h !!! x = newTopic "" None.
Proof. intros Hx. by rewrite list_lookup_total_alt, lookup_ge_None_2. Qed.

Lemma subscribe_path_grows (segs : list string) :
  ∀ (h : list Topic) (iterator : nat) (h' : list Topic) (it' : nat),
  subscribe_path h iterator segs = (h', it') →
  closed h → (iterator < length h)%nat →
  (length h ≤ length h')%nat ∧ closed h' ∧ (it' < length h')%nat
  ∧ ∀ q k c, (q < length h)%nat → children (h !!! q) !! k = Some c →
             children (h' !!! q) !! k = Some c.
Proof.
  induction segs as [|seg segs IH]; intros h iterator h' it'; cbn [subscribe_path].
  - intros [= <- <-]. auto.
  - destruct (children (h !!! iterator) !! seg) as [c|] eqn:Hc.
    + intros Hw Hcl Hit. apply IH in Hw; [done|done|]. by eapply closed_lookup.
    + destruct (insert_child h iterator seg) as [h1 c] eqn:Hic.
      intros Hw Hcl Hit.
      assert (h1 = (insert_child h iterator seg).1) as Hh1 by (by rewrite Hic).
      assert (c = length h) as Hcn by (unfold insert_child in Hic; congruence).
      apply IH in Hw.
      * destruct Hw as (Hlen & Hcl' & Hit' & Hkeep).
        rewrite Hh1, insert_child_length in Hlen.
        split; [lia|]. split; [done|]. split; [done|].
        intros q k c' Hq Hk. apply Hkeep.
        -- rewrite Hh1, insert_child_length. lia.
        -- rewrite Hh1. by apply insert_child_keeps.
      * rewrite Hh1. by apply insert_child_closed.
      * rewrite Hh1, insert_child_length. lia.
Qed.

(** The path [subscribe] has walked is in the tree afterwards. *)
Lemma subscribe_path_follow (segs : list string) :
  ∀ (h : list Topic) (iterator : nat) (h' : list Topic) (it' : nat),
  subscribe_path h iterator segs = (h', it') →
  closed h → (iterator < length h)%nat →
  follow h' iterator segs = Some it'.
Proof.
  induction segs as [|seg segs IH]; intros h iterator h' it'; cbn [subscribe_path follow].
  - by intros [= <- <-].
  - destruct (children (h !!! iterator) !! seg) as [c|] eqn:Hc.
    + intros Hw Hcl Hit.
      pose proof (closed_lookup h iterator seg c Hcl Hc) as Hlt.
      destruct (subscribe_path_grows segs h c h' it' Hw Hcl Hlt) as (_ & _ & _ & Hkeep).
      rewrite (Hkeep iterator seg c Hit Hc). by eapply IH.
    + destruct (insert_child h iterator seg) as [h1 c] eqn:Hic.
      intros Hw Hcl Hit.
      assert (h1 = (insert_child h iterator seg).1) as Hh1 by (by rewrite Hic).
      assert (c = length h) as Hcn by (unfold insert_child in Hic; congruence).
      assert (closed h1) as Hcl1 by (rewrite Hh1; by apply insert_child_closed).
      assert (c < length h1)%nat as Hlt by (rewrite Hh1, insert_child_length; lia).
      destruct (subscribe_path_grows segs h1 c h' it' Hw Hcl1 Hlt) as (_ & _ & _ & Hkeep).
      assert (children (h1 !!! iterator) !! seg = Some c) as Hnew
        by (rewrite Hh1, Hcn; by apply insert_child_lookup_new).
      rewrite (Hkeep iterator seg c); [by eapply IH| |done].
      rewrite Hh1, insert_child_length. lia.
Qed.

(** [subscribe] changes no subscriber set, message map or flag on its
    way. *)
Lemma subscribe_path_data (segs : list string) :
  ∀ (h : list Topic) (iterator : nat) (h' : list Topic) (it' : nat),
  subscribe_path h iterator segs = (h', it') →
  closed h → (iterator < length h)%nat →
  ∀ x, subs (h' !!! x) = subs (h !!! x)
       ∧ messages (h' !!! x) = messages (h !!! x)
       ∧ triggered (h' !!! x) = triggered (h !!! x).
Proof.
  induction segs as [|seg segs IH]; intros h iterator h' it'; cbn [subscribe_path].
  - by intros [= <- <-].
  - destruct (children (h !!! iterator) !! seg) as [c|] eqn:Hc.
    + intros Hw Hcl Hit x. eapply IH; [exact Hw|done|by eapply closed_lookup].
    + destruct (insert_child h iterator seg) as [h1 c] eqn:Hic.
      intros Hw Hcl Hit x.
      assert (h1 = (insert_child h iterator seg).1) as Hh1 by (by rewrite Hic).
      assert (c = length h) as Hcn by (unfold insert_child in Hic; congruence).
      apply IH with (x := x) in Hw.
      * destruct Hw as (-> & -> & ->).
        rewrite Hh1, insert_child_node by done.
        destruct (decide (x = iterator)) as [->|_]; [done|].
        destruct (decide (x = length h)) as [->|_]; [|done].
        by rewrite lookup_total_ge.
      * rewrite Hh1. by apply insert_child_closed.
      * rewrite Hh1, insert_child_length. lia.
Qed.

Lemma wf_arena_closed (h : list Topic) (rt : nat) : wf_arena h rt → closed h.
Proof.
  intros Hwa. apply Forall_lookup. intros i n Hi k c Hc.
  assert (i < length h)%nat as Hlt by (by eapply lookup_lt_Some).
  apply list_lookup_total_correct in Hi. subst n.
  by destruct (wf_arena_child h rt i k c Hwa Hlt Hc).
Qed.

Lemma match_targets_links (h h' : list Topic) (segs : list string) :
  same_links h h' → ∀ iterator, match_targets h' iterator segs = match_targets h iterator segs.
Proof.
  intros Hl. induction segs as [|seg segs IH]; intros iterator; [done|].
  cbn [match_targets]. destruct (Hl iterator) as (-> & -> & ->).
  destruct (terminatingWildcardChild (h !!! iterator)),
    (wildcardChild (h !!! iterator)), (children (h !!! iterator) !! seg);
    by rewrite ?IH.
Qed.

Lemma same_links_add_sub (h : list Topic) (p : nat) (s : Z) :
  same_links h (<[p := add_sub s (h !!! p)]> h).
Proof.
  intros x. destruct (decide (x = p)) as [->|Hne].
  - destruct (decide (p < length h)%nat) as [Hlt|Hge].
    + by rewrite list_lookup_total_insert_eq.
    + by rewrite list_insert_ge by lia.
  - by rewrite list_lookup_total_insert_ne.
Qed.

(** The node a pattern spells is among the nodes a publish of that very
    topic stores on; it is the last one. *)
Lemma follow_target (h : list Topic) (segs : list string) : ∀ (iterator p : nat),
  follow h iterator segs = Some p →
  ∃ l, match_targets h iterator segs = l ++ [p].
Proof.
  induction segs as [|seg segs IH]; intros iterator p; cbn [follow match_targets].
  - intros [= <-]. by exists [].
  - destruct (children (h !!! iterator) !! seg) as [c|]; [|done].
    intros Hf. destruct (IH c p Hf) as [l ->].
    eexists. by rewrite !app_assoc.
Qed.



(** What a store leaves on the nodes of the arena. *)
Lemma publish_store_node (message : string) (p : nat) (t : TopicTree) :
  length (topics (publish_store message p t)) = length (topics t)
  ∧ messageId (publish_store message p t) = messageId t
  ∧ (∀ x, x ≠ p → node (publish_store message p t) x = node t x)
  ∧ ((p < length (topics t))%nat →
     messages (node (publish_store message p t) p)
     = map_assign (messageId t) message (messages (node t p))
     ∧ triggered (node (publish_store message p t) p) = true)
  ∧ (∀ q, q ∈ triggeredTopics t → q ∈ triggeredTopics (publish_store message p t))
  ∧ (triggered (node t p) = false → p ∈ triggeredTopics (publish_store message p t)).
Proof.
  unfold publish_store, node, set_topics.
  destruct (triggered (topics t !!! p)) eqn:Htr; cbn [topics messageId triggeredTopics];
    rewrite length_insert.
  - split; [done|]. split; [done|]. split.
    { intros x Hx. by rewrite list_lookup_total_insert_ne. }
    split; [|done].
    intros Hp. by rewrite list_lookup_total_insert_eq.
  - split; [done|]. split; [done|]. split.
    { intros x Hx. by rewrite list_lookup_total_insert_ne. }
    split.
    { intros Hp. by rewrite list_lookup_total_insert_eq. }
    split.
    + intros q Hq. apply elem_of_app. by left.
    + intros _. apply elem_of_app. right. by apply list_elem_of_singleton.
Qed.

Lemma store_all_keeps (message : string) (l : list nat) : ∀ t : TopicTree,
  length (topics (store_all message l t)) = length (topics t)
  ∧ messageId (store_all message l t) = messageId t
  ∧ (∀ x, x ∉ l → node (store_all message l t) x = node t x)
  ∧ (∀ q, q ∈ triggeredTopics t → q ∈ triggeredTopics (store_all message l t)).
Proof.
  induction l as [|p l IH]; intros t; [done|].
  change (store_all message (p :: l) t)
    with (store_all message l (publish_store message p t)).
  destruct (IH (publish_store message p t)) as (H1 & H2 & H3 & H4).
  destruct (publish_store_node message p t) as (G1 & G2 & G3 & _ & G5 & _).
  split; [congruence|]. split; [congruence|]. split.
  - intros x Hx. rewrite not_elem_of_cons in Hx. destruct Hx as [Hxp Hxl].
    rewrite H3 by done. by apply G3.
  - intros q Hq. by apply H4, G5.
Qed.


(** X1.  [subscribe] walks the topic segment by segment: the segments are the
    parts between the separators, empty ones included (joined again with
    separators they give the topic back, and none holds a separator); for
    each it follows the child of that name or allocates it, and it adds the
    subscriber to the node reached after the last one. *)
Theorem subscribe_by_segments (topic : string) (s : Z) (t : TopicTree) :
  sv_size topic < npos →
  join_segments (segments topic) = topic
  ∧ Forall (λ x, has_separator x = false) (segments topic)
  ∧ segments topic ≠ []
  ∧ subscribe topic s t
    = let '(h, it) := subscribe_path (topics t) (root t) (segments topic) in
      mkTree (<[it := add_sub s (h !!! it)]> h) (root t) (messageId t)
        (triggeredTopics t) (min t)
        (<[s := subscriptions_of t s ++ [it]]> (subscriptions t)).
Proof.
  intros Hsz. split; [apply join_segments_segments|].
  split; [apply segments_no_separator|]. split; [apply segments_nonempty|].
  pose proof (subscribe_walk_segments topic (S (String.length topic)) Hsz
                (topics t) (root t) 0 0) as Hw.
  change (drop_string (Z.to_nat 0) topic) with topic in Hw.
  destruct (subscribe_path (topics t) (root t) (segments topic)) as [h it].
  apply subscribe_eq, Hw; unfold npos, sv_size in *; lia.
Qed.

Lemma subscribe_by_segments_witness :
  segments "a//b/" = ["a"; ""; "b"; ""]%string
  ∧ subscribe "a//b/" 7 emptyTree
    = let '(h, it) := subscribe_path (topics emptyTree) (root emptyTree)
                        ["a"; ""; "b"; ""]%string in
      mkTree (<[it := add_sub 7 (h !!! it)]> h) 0 0 [] UINTPTR_MAX
        (<[7 := [it]]> ∅).
Proof.
  split; [reflexivity|].
  assert (sv_size "a//b/" < npos) as Hsz by (vm_compute; reflexivity).
  destruct (subscribe_by_segments "a//b/" 7 emptyTree Hsz) as (_ & _ & _ & H).
  exact H.
Defined.

Lemma publish_segments (topic message : string) (t : TopicTree) :
  sv_size topic < npos →
  publish topic message t
  = bump_messageId
      (store_all message (match_targets (topics t) (root t) (segments topic)) t).
Proof.
  intros Hsz. apply publish_eq.
  pose proof (publish_targets_segments topic (S (String.length topic)) Hsz
                (topics t) (root t) 0 0) as Hw.
  change (drop_string (Z.to_nat 0) topic) with topic in Hw.
  apply Hw; unfold npos, sv_size in *; lia.
Qed.

(** X2.  [publish] matches the topic segment by segment: at a node and a
    segment it stores on the terminating wildcard child, matches the rest
    below the wildcard child, and matches the rest below the child named by
    the segment; a node reached when the segments are used up is stored
    on.  The sequence id then goes up by one. *)
Theorem publish_by_segments (topic message : string) (t : TopicTree) :
  sv_size topic < npos →
  publish topic message t
  = bump_messageId
      (store_all message (match_targets (topics t) (root t) (segments topic)) t).
Proof. apply publish_segments. Qed.

Lemma publish_by_segments_witness :
  match_targets (topics two_topic_batch) (root two_topic_batch) (segments "a/b") = [3%nat; 2%nat]
  ∧ publish "a/b" "M2" two_topic_batch
    = bump_messageId (store_all "M2" [3%nat; 2%nat] two_topic_batch).
Proof.
  assert (match_targets (topics two_topic_batch) (root two_topic_batch) (segments "a/b") = [3%nat; 2%nat])
    as Hm by (vm_compute; reflexivity).
  split; [exact Hm|].
  assert (sv_size "a/b" < npos) as Hsz by (vm_compute; reflexivity).
  pose proof (publish_by_segments "a/b" "M2" two_topic_batch Hsz) as H.
  rewrite Hm in H.
  exact H.
Defined.

(** ** What the operations keep *)

Lemma links_ok_default (h : list Topic) (x : nat) :
  (length h ≤ x)%nat → links_ok (h !!! x).
Proof.
  intros Hx. rewrite lookup_total_ge by done.
  unfold links_ok. cbn [newTopic wildcardChild terminatingWildcardChild children].
  by rewrite !lookup_empty.
Qed.

Lemma trims_refl (n : Topic) : trims n n.
Proof. unfold trims. split_and!; auto. Qed.

Lemma trims_trans (n1 n2 n3 : Topic) : trims n1 n2 → trims n2 n3 → trims n1 n3.
Proof.
  intros (A1 & A2 & A3 & A4 & A5 & A6 & A7) (B1 & B2 & B3 & B4 & B5 & B6 & B7).
  split; [congruence|]. split; [congruence|]. split; [congruence|].
  split; [congruence|]. split; [auto|]. split; [auto|].
  by transitivity (children n2).
Qed.

Lemma trims_erase_sub (s : Z) (n : Topic) : trims n (erase_sub s n).
Proof.
  split; [done|]. split; [done|]. split; [done|]. split; [done|]. split; [done|].
  split; [|done]. cbn [subs erase_sub]. intros x. apply elem_of_set_erase.
Qed.

Lemma trims_detach_child (nm : string) (n : Topic) : trims n (detach_child nm n).
Proof.
  split; [done|]. split; [done|]. split; [done|]. split; [done|].
  split; [|split; [done|apply delete_subseteq]].
  unfold links_ok, detach_child. cbn [wildcardChild terminatingWildcardChild children].
  intros [Hw Ht].
  destruct (String.eqb_spec nm "#") as [->|Hh].
  - rewrite lookup_delete_eq, lookup_delete_ne by done. done.
  - destruct (String.eqb_spec nm "+") as [->|Hp].
    + rewrite lookup_delete_eq, lookup_delete_ne by done. done.
    + rewrite !lookup_delete_ne by done. done.
Qed.

Lemma trims_insert (h : list Topic) (q : nat) (n' : Topic) :
  trims (h !!! q) n' → ∀ x, trims (h !!! x) (<[q := n']> h !!! x).
Proof.
  intros Hn x. destruct (decide (x = q)) as [->|Hne].
  - destruct (decide (q < length h)%nat) as [Hlt|Hge].
    + by rewrite list_lookup_total_insert_eq.
    + rewrite list_insert_ge by lia. apply trims_refl.
  - rewrite list_lookup_total_insert_ne by done. apply trims_refl.
Qed.

Lemma trimTree_trims (rt : nat) (fuel : nat) : ∀ (h : list Topic) (p : nat) (h' : list Topic),
  trimTree fuel rt p h = Some h' →
  length h' = length h ∧ ∀ x, trims (h !!! x) (h' !!! x).
Proof.
  induction fuel as [|fuel IH]; intros h p h'; cbn [trimTree].
  - destruct (unused (h !!! p)); [|intros [= <-]; split; [done|intros; apply trims_refl]].
    destruct (parent (h !!! p)) as [par|]; [|done].
    destruct (par =? rt)%nat; [|done].
    intros [= <-]. rewrite length_insert. split; [done|].
    apply trims_insert, trims_detach_child.
  - destruct (unused (h !!! p)); [|intros [= <-]; split; [done|intros; apply trims_refl]].
    destruct (parent (h !!! p)) as [par|]; [|done].
    destruct (par =? rt)%nat.
    + intros [= <-]. rewrite length_insert. split; [done|].
      apply trims_insert, trims_detach_child.
    + intros Hrec. apply IH in Hrec as [Hlen Htr].
      rewrite length_insert in Hlen. split; [done|].
      intros x. eapply trims_trans; [|apply Htr].
      apply trims_insert, trims_detach_child.
Qed.

Lemma unsubscribe_each_trims (rt : nat) (s : Z) (fuel : nat) (l : list nat) :
  ∀ (h h' : list Topic),
  unsubscribe_each fuel rt s l h = Some h' →
  length h' = length h ∧ ∀ x, trims (h !!! x) (h' !!! x).
Proof.
  induction l as [|p l IH]; intros h h'; cbn [unsubscribe_each].
  - intros [= <-]. split; [done|]. intros; apply trims_refl.
  - destruct (trimTree fuel rt p (<[p := erase_sub s (h !!! p)]> h)) as [h1|] eqn:Ht;
      [|done].
    intros Hrec. apply IH in Hrec as [Hlen Htr].
    apply trimTree_trims in Ht as [Hlen1 Htr1]. rewrite length_insert in Hlen1.
    split; [congruence|].
    intros x. eapply trims_trans; [|apply Htr].
    eapply trims_trans; [|apply Htr1].
    apply trims_insert, trims_erase_sub.
Qed.

Lemma insert_child_frame (h : list Topic) (it : nat) (seg : string) (x : nat) :
  (it < length h)%nat →
  subs ((insert_child h it seg).1 !!! x) = subs (h !!! x)
  ∧ messages ((insert_child h it seg).1 !!! x) = messages (h !!! x)
  ∧ triggered ((insert_child h it seg).1 !!! x) = triggered (h !!! x)
  ∧ (links_ok (h !!! x) → links_ok ((insert_child h it seg).1 !!! x)).
Proof.
  intros Hit. rewrite insert_child_node by done.
  destruct (decide (x = it)) as [->|Hne].
  - split; [done|]. split; [done|]. split; [done|].
    unfold links_ok. cbn [wildcardChild terminatingWildcardChild children].
    intros [Hw Ht]. split.
    + destruct (String.eqb_spec seg "+") as [->|Hp].
      * by rewrite lookup_insert_eq.
      * by rewrite lookup_insert_ne.
    + destruct (String.eqb_spec seg "#") as [->|Hp].
      * by rewrite lookup_insert_eq.
      * by rewrite lookup_insert_ne.
  - destruct (decide (x = length h)) as [->|Hne'].
    + rewrite lookup_total_ge by lia. split; [done|]. split; [done|]. split; [done|].
      intros _. unfold links_ok.
      cbn [newTopic wildcardChild terminatingWildcardChild children].
      by rewrite !lookup_empty.
    + done.
Qed.

(** The walk of [subscribe] changes no subscriber set, message map or
    flag, and keeps the fast-path pointers in step with the children
    maps. *)
Lemma subscribe_walk_frame (topic : string) (fuel : nat) :
  ∀ (h : list Topic) (iterator : nat) (start stop : Z) (h' : list Topic) (it' : nat),
  subscribe_walk fuel topic h iterator start stop = Some (h', it') →
  closed h → (iterator < length h)%nat →
  ∀ x, subs (h' !!! x) = subs (h !!! x)
       ∧ messages (h' !!! x) = messages (h !!! x)
       ∧ triggered (h' !!! x) = triggered (h !!! x)
       ∧ (links_ok (h !!! x) → links_ok (h' !!! x)).
Proof.
  induction fuel as [|fuel IH]; intros h iterator start stop h' it'; cbn [subscribe_walk].
  - destruct (stop =? npos); [|done]. by intros [= <- <-].
  - destruct (stop =? npos); [by intros [= <- <-]|].
    set (stop' := sv_find topic "/" start).
    set (segment := sv_substr topic start (wrap64 (stop' - start))).
    destruct (children (h !!! iterator) !! segment) as [c|] eqn:Hc.
    + intros Hw Hcl Hit x. eapply IH; [exact Hw|done|by eapply closed_lookup].
    + destruct (insert_child h iterator segment) as [h1 c] eqn:Hic.
      intros Hw Hcl Hit x.
      assert (h1 = (insert_child h iterator segment).1) as Hh1 by (by rewrite Hic).
      assert (c = length h) as Hcn by (unfold insert_child in Hic; congruence).
      apply IH with (x := x) in Hw.
      * destruct Hw as (-> & -> & -> & Hl). rewrite Hh1.
        destruct (insert_child_frame h iterator segment x Hit) as (-> & -> & -> & Hl').
        split; [done|]. split; [done|]. split; [done|].
        intros Hx. apply Hl. rewrite Hh1. by apply Hl'.
      * rewrite Hh1. by apply insert_child_closed.
      * rewrite Hh1, insert_child_length. lia.
Qed.

(** The nodes a publish stores on are nodes of the arena, and none is the
    root: the walk descends before it stores. *)
Lemma publish_targets_range (topic : string) (h : list Topic) (rt : nat) (fuel : nat) :
  wf_arena h rt →
  ∀ (iterator : nat) (start stop : Z) (l : list nat),
  publish_targets fuel topic h iterator start stop = Some l →
  (iterator < length h)%nat → (stop ≠ npos ∨ iterator ≠ rt) →
  Forall (λ p, (p < length h)%nat ∧ p ≠ rt) l.
Proof.
  intros Hwa. induction fuel as [|fuel IH]; intros iterator start stop l;
    cbn [publish_targets].
  - destruct (Z.eqb_spec stop npos) as [->|Hne]; [|done].
    intros [= <-] Hit [?|?]; [done|]. by apply Forall_singleton.
  - destruct (Z.eqb_spec stop npos) as [->|Hne].
    { intros [= <-] Hit [?|?]; [done|]. by apply Forall_singleton. }
    set (stop' := sv_find topic "/" start).
    set (segment := sv_substr topic start (wrap64 (stop' - start))).
    intros Hl Hit _.
    pose proof (wf_arena_node h rt iterator Hwa Hit) as (_ & _ & Hwc & Htwc & _).
    assert (∀ k c, children (h !!! iterator) !! k = Some c → (c < length h)%nat ∧ c ≠ rt)
      as Hchild.
    { intros k c Hc.
      destruct (wf_arena_child h rt iterator k c Hwa Hit Hc) as (Hlt & Hpar & _).
      split; [done|].
      pose proof (wf_arena_node h rt c Hwa Hlt) as (Hp & _).
      rewrite Hpar in Hp. by destruct Hp. }
    assert (Forall (λ p, (p < length h)%nat ∧ p ≠ rt)
              (match terminatingWildcardChild (h !!! iterator) with
               | Some w => [w]
               | None => []
               end)) as H1.
    { destruct (terminatingWildcardChild (h !!! iterator)) as [w|]; [|done].
      apply Forall_singleton. by eapply Hchild. }
    destruct (wildcardChild (h !!! iterator)) as [w|] eqn:Hw.
    + destruct (publish_targets fuel topic h w (wrap64 (stop' + 1)) stop') as [l2|] eqn:H2;
        [|done].
      apply IH in H2; [|by eapply Hchild|right; by eapply Hchild].
      destruct (children (h !!! iterator) !! segment) as [c|] eqn:Hc.
      * destruct (publish_targets fuel topic h c (wrap64 (stop' + 1)) stop') as [l3|] eqn:H3;
          [|done].
        apply IH in H3; [|by eapply Hchild|right; by eapply Hchild].
        injection Hl as <-. rewrite !Forall_app. done.
      * injection Hl as <-. rewrite !Forall_app. done.
    + destruct (children (h !!! iterator) !! segment) as [c|] eqn:Hc.
      * destruct (publish_targets fuel topic h c (wrap64 (stop' + 1)) stop') as [l3|] eqn:H3;
          [|done].
        apply IH in H3; [|by eapply Hchild|right; by eapply Hchild].
        injection Hl as <-. rewrite !Forall_app. done.
      * injection Hl as <-. rewrite !Forall_app. done.
Qed.

Lemma map_assign_elem_inv (k : Z) (x : string) (m : list (Z * string)) (e : Z * string) :
  e ∈ map_assign k x m → e = (k, x) ∨ e ∈ m.
Proof.
  induction m as [|[k' v'] m IH]; cbn [map_assign].
  - rewrite list_elem_of_singleton. by left.
  - destruct (k <? k').
    { rewrite elem_of_cons. intros [->|H]; [by left|by right]. }
    destruct (k =? k').
    { rewrite elem_of_cons. intros [->|H]; [by left|].
      right. apply elem_of_cons. by right. }
    rewrite !elem_of_cons. intros [->|H]; [right; by left|].
    destruct (IH H) as [->|H']; [by left|right; by right].
Qed.

Lemma links_ok_shape (h h' : list Topic) (x : nat) :
  same_shape h h' → links_ok (h !!! x) → links_ok (h' !!! x).
Proof.
  intros [_ Hs]. destruct (Hs x) as (_ & _ & Hc & Hw & Ht & _).
  unfold links_ok. by rewrite Hc, Hw, Ht.
Qed.

(** One store keeps the invariants, with the sequence id of the publish
    in use. *)
Lemma publish_store_inv (message : string) (p : nat) (t : TopicTree) :
  tree_inv (messageId t + 1) t → 0 <= messageId t →
  (∀ q v, (messageId t, v) ∈ messages (node t q) → v = message) →
  (p < length (topics t))%nat → p ≠ root t →
  tree_inv (messageId t + 1) (publish_store message p t)
  ∧ (∀ q v, (messageId t, v) ∈ messages (node (publish_store message p t) q) →
            v = message).
Proof.
  intros [Hlinks Hnd Hfl Hmsg Hsame Hroot] Hid Hcur Hp Hpr.
  destruct (publish_store_node message p t) as (G1 & G2 & G3 & G4 & G5 & G6).
  destruct (G4 Hp) as [Gm Gt].
  destruct (publish_store_fields message p t) as [Grt _].
  pose proof (publish_store_shape message p t) as Hsh.
  assert (∀ q e, e ∈ messages (node (publish_store message p t) q) →
                 e = (messageId t, message) ∨ e ∈ messages (node t q)) as Hel.
  { intros q e. destruct (decide (q = p)) as [->|Hne].
    - rewrite Gm. apply map_assign_elem_inv.
    - rewrite G3 by done. by right. }
  assert (∀ q v, (messageId t, v) ∈ messages (node (publish_store message p t) q) →
                 v = message) as Hcur'.
  { intros q v Hv. destruct (Hel q _ Hv) as [[= ->]|Hold]; [done|by eapply Hcur]. }
  split; [|done]. split.
  - intros q. apply (links_ok_shape _ _ q Hsh), Hlinks.
  - destruct (triggered (node t p)) eqn:Htr.
    + by rewrite publish_store_triggered.
    + destruct (publish_store_appends message p t Htr) as [-> _].
      apply NoDup_app. split; [done|]. split; [|apply NoDup_singleton].
      intros x Hx ->%list_elem_of_singleton. apply Hfl in Hx. congruence.
  - intros q. destruct (decide (q = p)) as [->|Hne].
    + rewrite Gt. split; [done|]. intros _.
      destruct (triggered (node t p)) eqn:Htr.
      * rewrite publish_store_triggered by done. by apply Hfl.
      * by apply G6.
    + rewrite G3 by done. rewrite <- Hfl.
      destruct (triggered (node t p)) eqn:Htr.
      * by rewrite publish_store_triggered.
      * destruct (publish_store_appends message p t Htr) as [-> _].
        rewrite elem_of_app, list_elem_of_singleton. tauto.
  - intros q. destruct (decide (q = p)) as [->|Hne].
    + destruct (Hmsg p) as (Hs & Hk & _). unfold messages_ok. rewrite Gm, Gt.
      split; [by apply map_assign_sorted|]. split; [|done].
      apply Forall_forall. intros y Hy. apply map_assign_keys in Hy as [->|Hy]; [lia|].
      rewrite Forall_forall in Hk. by apply Hk.
    + rewrite G3 by done. apply Hmsg.
  - intros a b k v w Hv Hw.
    destruct (decide (k = messageId t)) as [->|Hk].
    + rewrite (Hcur' a v Hv), (Hcur' b w Hw). done.
    + destruct (Hel a _ Hv) as [[= ? ?]|Hv']; [done|].
      destruct (Hel b _ Hw) as [[= ? ?]|Hw']; [done|].
      by eapply Hsame.
  - rewrite Grt, G3 by done. done.
Qed.

Lemma store_all_inv (message : string) (l : list nat) : ∀ t : TopicTree,
  tree_inv (messageId t + 1) t → 0 <= messageId t →
  (∀ q v, (messageId t, v) ∈ messages (node t q) → v = message) →
  Forall (λ p, (p < length (topics t))%nat ∧ p ≠ root t) l →
  tree_inv (messageId t + 1) (store_all message l t).
Proof.
  induction l as [|p l IH]; intros t Hinv Hid Hcur Hl; [done|].
  change (store_all message (p :: l) t)
    with (store_all message l (publish_store message p t)).
  apply Forall_cons in Hl as [[Hp Hpr] Hl].
  destruct (publish_store_inv message p t Hinv Hid Hcur Hp Hpr) as [Hinv' Hcur'].
  destruct (publish_store_node message p t) as (G1 & G2 & _).
  destruct (publish_store_fields message p t) as [Grt _].
  destruct (store_all_keeps message l (publish_store message p t)) as (_ & K2 & _).
  rewrite <- G2 in Hinv' |- *. rewrite <- G2 in Hcur', Hid.
  rewrite <- K2. rewrite K2. apply IH; [done|done|done|].
  rewrite G1, Grt. done.
Qed.

Lemma tree_inv_bump (next : Z) (t : TopicTree) :
  tree_inv next t → tree_inv next (bump_messageId t).
Proof. intros [H1 H2 H3 H4 H5 H6]. by split. Qed.

Lemma tree_inv_weaken (next next' : Z) (t : TopicTree) :
  next <= next' → tree_inv next t → tree_inv next' t.
Proof.
  intros Hle [H1 H2 H3 H4 H5 H6]. split; try done.
  intros p. destruct (H4 p) as (Hs & Hk & He). split; [done|]. split; [|done].
  eapply Forall_impl; [exact Hk|]. simpl. lia.
Qed.

(** [publish] keeps the invariants. *)
Lemma publish_inv (topic message : string) (t : TopicTree) :
  state_inv t → wf_arena (topics t) (root t) →
  state_inv (publish topic message t).
Proof.
  intros [Hinv Hid] Hwa. unfold publish, publish_fuel.
  rewrite publish_walk_targets.
  destruct (publish_targets (S (String.length topic)) topic (topics t) (root t) 0 0)
    as [l|] eqn:Hl; [|done].
  change (state_inv (bump_messageId (store_all message l t))).
  apply publish_targets_range with (rt := root t) in Hl;
    [|done|apply Hwa|left; unfold npos; lia].
  assert (tree_inv (messageId t + 1) (store_all message l t)) as Hst.
  { apply store_all_inv; [|done| |done].
    - apply tree_inv_weaken with (next := messageId t); [lia|done].
    - intros q v Hv. destruct (ti_messages _ _ Hinv q) as (_ & Hk & _).
      rewrite Forall_forall in Hk.
      assert (messageId t ∈ map fst (messages (node t q))) as Hin.
      { apply list_elem_of_fmap. by exists (messageId t, v). }
      apply Hk in Hin. lia. }
  destruct (store_all_keeps message l t) as (_ & K2 & _).
  split.
  - apply tree_inv_bump. cbn [bump_messageId messageId]. by rewrite K2.
  - cbn [bump_messageId messageId]. lia.
Qed.

(** [subscribe] keeps the invariants. *)
Lemma subscribe_inv (topic : string) (s : Z) (t : TopicTree) :
  state_inv t → wf t → trimmed (topics t) (root t) →
  state_inv (subscribe topic s t).
Proof.
  intros [[Hlinks Hnd Hfl Hmsg Hsame Hroot] Hid] [Hwa Hsubs] Htr.
  unfold subscribe, subscribe_fuel.
  destruct (subscribe_walk _ _ _ _ _ _) as [[h it]|] eqn:Hw; [|by split].
  change (state_inv (mkTree (<[it := add_sub s (h !!! it)]> h) (root t) (messageId t)
                       (triggeredTopics t) (min t)
                       (<[s := subscriptions_of t s ++ [it]]> (subscriptions t)))).
  rewrite trimmed_spec in Htr.
  destruct (subscribe_walk_wf _ (root t) _ _ _ _ _ _ _ Hw Hwa (proj1 Hwa))
    as (_ & Hit & _ & Hne & _).
  { intros x Hx Hxr _ Hu. by apply Htr. }
  assert (it ≠ root t) as Hitr by (apply Hne; right; unfold npos; lia).
  pose proof (subscribe_walk_frame _ _ _ _ _ _ _ _ Hw (wf_arena_closed _ _ Hwa) (proj1 Hwa))
    as Hfr.
  assert (∀ x, messages (<[it := add_sub s (h !!! it)]> h !!! x) = messages (node t x)
               ∧ triggered (<[it := add_sub s (h !!! it)]> h !!! x) = triggered (node t x)
               ∧ links_ok (<[it := add_sub s (h !!! it)]> h !!! x)
               ∧ (x ≠ it → subs (<[it := add_sub s (h !!! it)]> h !!! x) = subs (node t x)))
    as Hnode.
  { intros x. destruct (Hfr x) as (Hs & Hm & Ht & Hl). specialize (Hl (Hlinks x)).
    destruct (decide (x = it)) as [->|Hx].
    - rewrite list_lookup_total_insert_eq by done. done.
    - rewrite list_lookup_total_insert_ne by done. done. }
  split; [|done]. split; unfold node; cbn [topics triggeredTopics messageId root].
  - intros p. apply Hnode.
  - done.
  - intros p. destruct (Hnode p) as (_ & -> & _). apply Hfl.
  - intros p. destruct (Hnode p) as (Hm & Ht & _). unfold messages_ok.
    rewrite Hm, Ht. apply Hmsg.
  - intros p q k v w. destruct (Hnode p) as (-> & _), (Hnode q) as (-> & _). apply Hsame.
  - destruct (Hnode (root t)) as (_ & -> & _ & ->); done.
Qed.

(** [unsubscribeAll] keeps the invariants. *)
Lemma unsubscribeAll_inv (s : Z) (t t' : TopicTree) :
  state_inv t → unsubscribeAll s t = Some t' → state_inv t'.
Proof.
  intros [[Hlinks Hnd Hfl Hmsg Hsame Hroot] Hid]. unfold unsubscribeAll.
  destruct (s =? 0); [intros [= <-]; by split|].
  destruct (unsubscribe_each _ _ _ _ _) as [h'|] eqn:He; [|done].
  intros [= <-]. apply unsubscribe_each_trims in He as [_ Htr].
  split; [|done]. split; unfold node, set_topics; cbn [topics triggeredTopics messageId root].
  - intros p. destruct (Htr p) as (_ & _ & _ & _ & Hl & _). apply Hl, Hlinks.
  - done.
  - intros p. destruct (Htr p) as (_ & _ & -> & _). apply Hfl.
  - intros p. destruct (Htr p) as (_ & _ & Ht & Hm & _). unfold messages_ok.
    rewrite Hm, Ht. apply Hmsg.
  - intros p q k v w. destruct (Htr p) as (_ & _ & _ & -> & _).
    destruct (Htr q) as (_ & _ & _ & -> & _). apply Hsame.
  - destruct (Htr (root t)) as (_ & _ & -> & _ & _ & Hs & _). destruct Hroot as [Hr0 Hr1].
    split; [|done]. unfold node in Hr0. rewrite Hr0 in Hs.
    destruct (subs (h' !!! root t)) as [|x r]; [done|].
    exfalso. eapply elem_of_nil, Hs. apply elem_of_cons. by left.
Qed.

(** After [drain] no node holds a message or a flag, and the invariants
    hold. *)
Lemma drain_inv (fuel : nat) (t t' : TopicTree) (log : list (Z * string)) :
  state_inv t → drain fuel t = Some (t', log) →
  state_inv t'
  ∧ ∀ p, messages (node t' p) = [] ∧ triggered (node t' p) = false.
Proof.
  intros [[Hlinks Hnd Hfl Hmsg Hsame Hroot] Hid] Hd.
  destruct (drain_shape fuel t t' log Hd) as (Hsh & Hrt & _).
  assert (messageId t' = messageId t ∧ triggeredTopics t' = []
          ∧ ∀ p, messages (node t' p) = [] ∧ triggered (node t' p) = false)
    as (Hmid & Hbatch & Hclear).
  { revert Hd. unfold drain, numTriggeredTopics.
    destruct (Z.eqb_spec (Z.of_nat (length (triggeredTopics t))) 0) as [Hz|Hnz].
    - intros [= <- <-].
      assert (triggeredTopics t = []) as Hnil
        by (destruct (triggeredTopics t); [done|simpl in Hz; lia]).
      split; [done|]. split; [done|].
      intros p. destruct (triggered (node t p)) eqn:Htr.
      + apply Hfl in Htr. rewrite Hnil in Htr. by apply elem_of_nil in Htr.
      + split; [|done]. by apply Hmsg.
    - destruct (merge_loop fuel t (merge_init t)) as [m|]; [|done].
      intros [= <- <-]. split; [done|]. split; [done|].
      intros p. unfold node. cbn [topics].
      destruct (decide (p ∈ triggeredTopics t)) as [Hin|Hout].
      + by apply reset_batch_clears.
      + assert (triggered (node t p) = false) as Htr.
        { destruct (triggered (node t p)) eqn:E; [|done]. by apply Hfl in E. }
        apply reset_batch_keeps; [by apply Hmsg|done]. }
  split; [|done]. split; [|lia]. split.
  - intros p. apply (links_ok_shape _ _ p Hsh), Hlinks.
  - rewrite Hbatch. apply NoDup_nil_2.
  - intros p. rewrite Hbatch. destruct (Hclear p) as [_ ->].
    split; [by intros ?%elem_of_nil|done].
  - intros p. destruct (Hclear p) as [Hm Ht]. unfold messages_ok. rewrite Hm.
    split; [constructor|]. split; [constructor|done].
  - intros p q k v w. destruct (Hclear p) as [-> _]. by intros ?%elem_of_nil.
  - destruct (Hclear (root t')) as [_ ->]. split; [|done].
    destruct Hsh as [_ Hs]. rewrite Hrt. unfold node.
    destruct (Hs (root t)) as (_ & _ & _ & _ & _ & ->). apply Hroot.
Qed.

Lemma state_inv_emptyTree : state_inv emptyTree.
Proof.
  split; [|done]. split.
  - intros p. destruct p as [|p]; [done|]. by apply links_ok_default; simpl; lia.
  - apply NoDup_nil_2.
  - intros p. split; [by intros ?%elem_of_nil|].
    destruct p as [|[|p]]; done.
  - intros p. assert (messages (node emptyTree p) = [] ) as Hm
      by (destruct p as [|[|p]]; done).
    unfold messages_ok. rewrite Hm. split; [constructor|]. split; [constructor|done].
  - intros p q k v w. assert (messages (node emptyTree p) = [] ) as ->
      by (destruct p as [|[|p]]; done). by intros ?%elem_of_nil.
  - done.
Qed.

(** Every reachable state satisfies the invariants. *)
Lemma reachable_inv (t : TopicTree) : reachable t → state_inv t.
Proof.
  induction 1 as [|topic s t Hs Hr IH|topic message t Hr IH|s t t' Hr IH Hu
                  |fuel t t' log Hr IH Hd].
  - apply state_inv_emptyTree.
  - destruct (reachable_wf t Hr) as [Hwf Htr]. by apply subscribe_inv.
  - destruct (reachable_wf t Hr) as [[Hwa _] _]. by apply publish_inv.
  - by eapply unsubscribeAll_inv.
  - by eapply drain_inv.
Qed.

(** ** What a publish stores on *)



Lemma follow_links (h h' : list Topic) (segs : list string) :
  same_links h h' → ∀ iterator, follow h' iterator segs = follow h iterator segs.
Proof.
  intros Hl. induction segs as [|seg segs IH]; intros iterator; [done|].
  cbn [follow]. destruct (Hl iterator) as (-> & _).
  destruct (children (h !!! iterator) !! seg); [apply IH|done].
Qed.

Lemma same_shape_links (h h' : list Topic) : same_shape h h' → same_links h h'.
Proof. intros [_ Hs] x. destruct (Hs x) as (_ & _ & ? & ? & ? & _). done. Qed.

Lemma subscribe_path_length (segs : list string) :
  ∀ (h : list Topic) (iterator : nat) (h' : list Topic) (it' : nat),
  subscribe_path h iterator segs = (h', it') →
  (length h' ≤ length h + length segs)%nat.
Proof.
  induction segs as [|seg segs IH]; intros h iterator h' it'; cbn [subscribe_path].
  - intros [= <- <-]. simpl. lia.
  - destruct (children (h !!! iterator) !! seg) as [c|].
    + intros Hw. apply IH in Hw. simpl. lia.
    + destruct (insert_child h iterator seg) as [h1 c] eqn:Hic.
      assert (h1 = (insert_child h iterator seg).1) as Hh1 by (by rewrite Hic).
      intros Hw. apply IH in Hw. rewrite Hh1, insert_child_length in Hw. simpl. lia.
Qed.

(** The targets of a publish, as the nodes of the arena they are. *)
Lemma publish_targets_of (topic : string) (t : TopicTree) :
  sv_size topic < npos → wf_arena (topics t) (root t) →
  publish_targets (S (String.length topic)) topic (topics t) (root t) 0 0
  = Some (match_targets (topics t) (root t) (segments topic))
  ∧ Forall (λ p, (p < length (topics t))%nat ∧ p ≠ root t)
      (match_targets (topics t) (root t) (segments topic)).
Proof.
  intros Hsz Hwa.
  pose proof (publish_targets_segments topic (S (String.length topic)) Hsz
                (topics t) (root t) 0 0) as Hw.
  change (drop_string (Z.to_nat 0) topic) with topic in Hw.
  assert (publish_targets (S (String.length topic)) topic (topics t) (root t) 0 0
          = Some (match_targets (topics t) (root t) (segments topic))) as Ht
    by (apply Hw; unfold npos, sv_size in *; lia).
  split; [done|].
  eapply publish_targets_range; [exact Hwa|exact Ht|apply Hwa|left; unfold npos; lia].
Qed.





(** ** What a subscribe adds *)

Lemma subscribe_effect (topic : string) (s : Z) (t : TopicTree) :
  reachable t → sv_size topic < npos →
  ∃ it,
    follow (topics (subscribe topic s t)) (root t) (segments topic) = Some it
    ∧ it ≠ root t ∧ (it < length (topics (subscribe topic s t)))%nat
    ∧ subscriptions_of (subscribe topic s t) s = subscriptions_of t s ++ [it]
    ∧ (∀ s', s' ≠ s →
         subscriptions_of (subscribe topic s t) s' = subscriptions_of t s')
    ∧ (∀ p, subs (node (subscribe topic s t) p)
            = if decide (p = it) then set_insert s (subs (node t p))
              else subs (node t p))
    ∧ (∀ p, messages (node (subscribe topic s t) p) = messages (node t p)
            ∧ triggered (node (subscribe topic s t) p) = triggered (node t p))
    ∧ triggeredTopics (subscribe topic s t) = triggeredTopics t
    ∧ min (subscribe topic s t) = min t
    ∧ messageId (subscribe topic s t) = messageId t
    ∧ root (subscribe topic s t) = root t
    ∧ (∀ q k c, (q < length (topics t))%nat → children (node t q) !! k = Some c →
                children (node (subscribe topic s t) q) !! k = Some c)
    ∧ (length (topics t) ≤ length (topics (subscribe topic s t))
       ≤ length (topics t) + length (segments topic))%nat.
Proof.
  intros Hr Hsz.
  destruct (reachable_wf t Hr) as [[Hwa Hsubs] Htr].
  pose proof (wf_arena_closed _ _ Hwa) as Hcl.
  pose proof (subscribe_walk_segments topic (S (String.length topic)) Hsz
                (topics t) (root t) 0 0) as Hw.
  change (drop_string (Z.to_nat 0) topic) with topic in Hw.
  destruct (subscribe_path (topics t) (root t) (segments topic)) as [h it] eqn:Hp.
  assert (subscribe_walk (S (String.length topic)) topic (topics t) (root t) 0 0
          = Some (h, it)) as Hwalk by (apply Hw; unfold npos, sv_size in *; lia).
  clear Hw. rewrite (subscribe_eq topic s t h it Hwalk).
  rewrite trimmed_spec in Htr.
  destruct (subscribe_walk_wf _ (root t) _ _ _ _ _ _ _ Hwalk Hwa (proj1 Hwa))
    as (_ & Hit & _ & Hne & _).
  { intros x Hx Hxr _ Hu. by apply Htr. }
  assert (it ≠ root t) as Hitr by (apply Hne; right; unfold npos; lia).
  pose proof (subscribe_walk_frame _ _ _ _ _ _ _ _ Hwalk Hcl (proj1 Hwa)) as Hfr.
  destruct (subscribe_path_grows _ _ _ _ _ Hp Hcl (proj1 Hwa)) as (Hlen & _ & _ & Hkeep).
  pose proof (subscribe_path_length _ _ _ _ _ Hp) as Hlen'.
  pose proof (subscribe_path_follow _ _ _ _ _ Hp Hcl (proj1 Hwa)) as Hfol.
  exists it. unfold node, subscriptions_of. cbn [topics root subscriptions triggeredTopics
                                                  min messageId].
  split.
  { rewrite (follow_links h _ _ (same_links_add_sub h it s)). exact Hfol. }
  split; [done|]. split; [by rewrite length_insert|].
  split; [by rewrite lookup_insert_eq|].
  split; [intros s' Hs'; by rewrite lookup_insert_ne|].
  split.
  { intros p. destruct (Hfr p) as (Hs & _). destruct (decide (p = it)) as [->|Hpne].
    - rewrite list_lookup_total_insert_eq by done. cbn [add_sub subs]. by rewrite Hs.
    - rewrite list_lookup_total_insert_ne by done. done. }
  split.
  { intros p. destruct (Hfr p) as (_ & Hm & Ht & _).
    destruct (decide (p = it)) as [->|Hpne].
    - rewrite list_lookup_total_insert_eq by done. done.
    - rewrite list_lookup_total_insert_ne by done. done. }
  split; [done|]. split; [done|]. split; [done|]. split; [done|].
  split.
  { intros q k c Hq Hc. destruct (same_links_add_sub h it s q) as (-> & _).
    by apply Hkeep. }
  rewrite length_insert. lia.
Qed.

(** X4.  [subscribe] adds the subscriber to one node, the one its pattern
    spells from the root, which is never the root itself, and appends that
    node to the subscriber's list.  It changes no other subscriber set, no
    message, no flag, no part of the batch and no existing entry of a
    children map, and it allocates at most one node per segment. *)
Theorem subscribe_adds_one (topic : string) (s : Z) (t : TopicTree) :
  reachable t → sv_size topic < npos →
  ∃ it,
    follow (topics (subscribe topic s t)) (root t) (segments topic) = Some it
    ∧ it ≠ root t ∧ (it < length (topics (subscribe topic s t)))%nat
    ∧ subscriptions_of (subscribe topic s t) s = subscriptions_of t s ++ [it]
    ∧ (∀ s', s' ≠ s →
         subscriptions_of (subscribe topic s t) s' = subscriptions_of t s')
    ∧ (∀ p, subs (node (subscribe topic s t) p)
            = if decide (p = it) then set_insert s (subs (node t p))
              else subs (node t p))
    ∧ (∀ p, messages (node (subscribe topic s t) p) = messages (node t p)
            ∧ triggered (node (subscribe topic s t) p) = triggered (node t p))
    ∧ triggeredTopics (subscribe topic s t) = triggeredTopics t
    ∧ min (subscribe topic s t) = min t
    ∧ messageId (subscribe topic s t) = messageId t
    ∧ root (subscribe topic s t) = root t
    ∧ (∀ q k c, (q < length (topics t))%nat → children (node t q) !! k = Some c →
                children (node (subscribe topic s t) q) !! k = Some c)
    ∧ (length (topics t) ≤ length (topics (subscribe topic s t))
       ≤ length (topics t) + length (segments topic))%nat.
Proof. intros Hr Hsz. by apply subscribe_effect. Qed.

Lemma subscribe_adds_one_witness :
  ∃ it, follow (topics (subscribe "a/b" 7 emptyTree)) 0 ["a"; "b"]%string = Some it
        ∧ it ≠ 0%nat
        ∧ subscriptions_of (subscribe "a/b" 7 emptyTree) 7 = [it].
Proof.
  assert (sv_size "a/b" < npos) as Hsz by (vm_compute; reflexivity).
  destruct (subscribe_adds_one "a/b" 7 emptyTree reach_empty Hsz)
    as (it & H1 & H2 & _ & H4 & _).
  exists it. split; [exact H1|]. split; [exact H2|exact H4].
Defined.




(** ** States within the limits of the program *)

Lemma within_limits_reachable (t : TopicTree) : within_limits t → reachable t.
Proof.
  induction 1 as [|topic s t Hs _ IH|topic message t _ IH _ _|s t t' _ IH Hu
                  |fuel t t' log _ IH Hd].
  - apply reach_empty.
  - by apply reach_subscribe.
  - by apply reach_publish.
  - by apply (reach_unsubscribeAll s t).
  - by apply (reach_drain fuel t t' log).
Qed.

Lemma unsubscribeAll_fields (s : Z) (t t' : TopicTree) :
  unsubscribeAll s t = Some t' →
  triggeredTopics t' = triggeredTopics t ∧ messageId t' = messageId t.
Proof.
  unfold unsubscribeAll. destruct (s =? 0); [by intros [= <-]|].
  destruct (unsubscribe_each _ _ _ _ _); [|done]. by intros [= <-].
Qed.

Lemma drain_fields (fuel : nat) (t t' : TopicTree) (log : list (Z * string)) :
  drain fuel t = Some (t', log) →
  triggeredTopics t' = [] ∧ messageId t' = messageId t.
Proof.
  unfold drain, numTriggeredTopics.
  destruct (Z.eqb_spec (Z.of_nat (length (triggeredTopics t))) 0) as [Hz|Hnz].
  - intros [= <- <-]. split; [|done].
    destruct (triggeredTopics t); [done|simpl in Hz; lia].
  - destruct (merge_loop fuel t (merge_init t)); [|done]. by intros [= <- <-].
Qed.

Lemma subscribe_messageId (topic : string) (s : Z) (t : TopicTree) :
  messageId (subscribe topic s t) = messageId t.
Proof.
  unfold subscribe, subscribe_fuel.
  by destruct (subscribe_walk _ _ _ _ _ _) as [[h it]|].
Qed.

Lemma publish_messageId (topic message : string) (t : TopicTree) :
  messageId (publish topic message t) = messageId t + 1
  ∨ publish topic message t = t.
Proof.
  unfold publish, publish_fuel. rewrite publish_walk_targets.
  destruct (publish_targets _ _ _ _ _ _) as [l|]; [left|by right].
  change (messageId (store_all message l t) + 1 = messageId t + 1).
  by destruct (store_all_keeps message l t) as (_ & -> & _).
Qed.

(** Within the limits the batch fits its array and the sequence id is an
    [int] that no increment has overflowed. *)
Lemma within_limits_bounds (t : TopicTree) :
  within_limits t →
  numTriggeredTopics t <= TRIGGERED_CAPACITY ∧ 0 <= messageId t <= INT_MAX.
Proof.
  induction 1 as [|topic s t Hs _ IH|topic message t _ IH Hid Hcap|s t t' _ IH Hu
                  |fuel t t' log _ IH Hd].
  - vm_compute. split; [|split]; discriminate.
  - unfold numTriggeredTopics in *.
    destruct (subscribe_fields topic s t) as [-> _]. by rewrite subscribe_messageId.
  - split; [done|].
    destruct (publish_messageId topic message t) as [->| ->]; lia.
  - unfold numTriggeredTopics in *.
    by destruct (unsubscribeAll_fields s t t' Hu) as [-> ->].
  - unfold numTriggeredTopics in *.
    destruct (drain_fields fuel t t' log Hd) as [-> ->]. split; [|tauto].
    unfold TRIGGERED_CAPACITY. simpl. lia.
Qed.

Lemma within_limits_two_topic_batch : within_limits two_topic_batch.
Proof.
  apply lim_publish.
  - apply lim_subscribe; [lia|]. apply lim_subscribe; [lia|apply lim_empty].
  - vm_compute. reflexivity.
  - vm_compute. discriminate.
Qed.

(** ** Invariants of the reachable states, one by one *)

(** X6.  In every reachable state the fast-path pointers of a node say exactly
    what its children map says: [wildcardChild] is the child named "+" and
    [terminatingWildcardChild] the child named "#", null when there is
    none. *)
Theorem fast_path_pointers_agree (t : TopicTree) (p : nat) :
  reachable t →
  wildcardChild (node t p) = children (node t p) !! "+"%string
  ∧ terminatingWildcardChild (node t p) = children (node t p) !! "#"%string.
Proof. intros Hr. destruct (reachable_inv t Hr) as [Hinv _]. apply (ti_links _ _ Hinv). Qed.

Lemma fast_path_pointers_agree_witness :
  terminatingWildcardChild (node (hash_tree 7) 1)
  = children (node (hash_tree 7) 1) !! "#"%string.
Proof.
  assert (reachable (hash_tree 7)) as Hr
    by (apply reach_subscribe; [lia|apply reach_empty]).
  exact (proj2 (fast_path_pointers_agree (hash_tree 7) 1 Hr)).
Defined.

Lemma NoDup_below_length (l : list nat) (n : nat) :
  NoDup l → (∀ x, x ∈ l → (x < n)%nat) → (length l ≤ n)%nat.
Proof.
  intros Hnd Hlt.
  assert (l ⊆+ seq 0 n) as Hsub.
  { apply NoDup_submseteq; [done|]. intros x Hx. apply elem_of_seq. specialize (Hlt x Hx). lia. }
  apply submseteq_length in Hsub. by rewrite length_seq in Hsub.
Qed.

(** X7.  In every state within the limits of the program (no publish has
    stored past the 64 slots of the batch) the batch fits its array and
    lists, each once, exactly the nodes whose [triggered] flag is set;
    they are nodes of the arena other than the root, so the batch is
    shorter than the arena. *)
Theorem batch_lists_the_flagged_nodes (t : TopicTree) :
  within_limits t →
  numTriggeredTopics t <= TRIGGERED_CAPACITY
  ∧ NoDup (triggeredTopics t)
  ∧ (∀ p, p ∈ triggeredTopics t ↔ triggered (node t p) = true)
  ∧ (∀ p, p ∈ triggeredTopics t → (p < length (topics t))%nat ∧ p ≠ root t)
  ∧ (length (triggeredTopics t) < length (topics t))%nat.
Proof.
  intros Hl. split; [by apply within_limits_bounds|].
  pose proof (within_limits_reachable t Hl) as Hr.
  destruct (reachable_inv t Hr) as [[Hlinks Hnd Hfl Hmsg Hsame Hroot] _].
  destruct (reachable_wf t Hr) as [[[Hrt _] _] _].
  assert (∀ p, p ∈ triggeredTopics t → (p < length (topics t))%nat ∧ p ≠ root t) as Hin.
  { intros p Hp. apply Hfl in Hp. split.
    - destruct (decide (p < length (topics t))%nat) as [|Hge]; [done|].
      unfold node in Hp. rewrite lookup_total_ge in Hp by lia. done.
    - intros ->. destruct Hroot as [_ Hf]. congruence. }
  split; [done|]. split; [done|]. split; [done|].
  assert (length (root t :: triggeredTopics t) ≤ length (topics t))%nat as Hlen.
  { apply NoDup_below_length.
    - apply NoDup_cons. split; [|done]. intros Hp. by destruct (Hin _ Hp).
    - intros x [->|Hx]%elem_of_cons; [done|]. by destruct (Hin _ Hx). }
  simpl in Hlen. lia.
Qed.

Lemma batch_lists_the_flagged_nodes_witness :
  NoDup (triggeredTopics two_topic_batch)
  ∧ (length (triggeredTopics two_topic_batch) < length (topics two_topic_batch))%nat.
Proof.
  destruct (batch_lists_the_flagged_nodes two_topic_batch within_limits_two_topic_batch)
    as (_ & H1 & _ & _ & H4).
  split; [exact H1|exact H4].
Defined.

(** X8.  In every state within the limits of the program (no publish has
    incremented a sequence id of [INT_MAX]) the sequence id is a
    non-negative [int], and the message map of a node has ascending
    sequence ids, all of them ids of publishes already made; a node that
    is not triggered holds no message; and two nodes that hold a message
    under the same id hold the same message. *)
Theorem stored_messages_are_ordered (t : TopicTree) :
  within_limits t →
  0 <= messageId t <= INT_MAX
  ∧ (∀ p, StronglySorted Z.lt (map fst (messages (node t p)))
          ∧ Forall (λ k, 0 <= k < messageId t) (map fst (messages (node t p)))
          ∧ (triggered (node t p) = false → messages (node t p) = []))
  ∧ (∀ p q k v w, (k, v) ∈ messages (node t p) → (k, w) ∈ messages (node t q) → v = w).
Proof.
  intros Hl. pose proof (within_limits_reachable t Hl) as Hr.
  destruct (reachable_inv t Hr) as [[Hlinks Hnd Hfl Hmsg Hsame Hroot] Hid].
  split; [by apply within_limits_bounds|]. split; [|done]. intros p. apply Hmsg.
Qed.

Lemma stored_messages_are_ordered_witness :
  Forall (λ k, 0 <= k < messageId two_topic_batch)
    (map fst (messages (node two_topic_batch 2))).
Proof.
  destruct (stored_messages_are_ordered two_topic_batch within_limits_two_topic_batch)
    as (_ & H & _).
  exact (proj1 (proj2 (H 2%nat))).
Defined.

(** X9.  When [drain] returns in a reachable state, no node of the tree is
    left with a message or a set flag, be it in the batch or not, and the
    sequence id, the subscriber sets and the links of the tree are as
    before. *)
Theorem drain_clears_every_node (fuel : nat) (t t' : TopicTree) (log : list (Z * string)) :
  reachable t → drain fuel t = Some (t', log) →
  (∀ p, messages (node t' p) = [] ∧ triggered (node t' p) = false)
  ∧ triggeredTopics t' = []
  ∧ messageId t' = messageId t
  ∧ root t' = root t
  ∧ subscriptions t' = subscriptions t
  ∧ length (topics t') = length (topics t)
  ∧ (∀ p, name (node t' p) = name (node t p)
          ∧ parent (node t' p) = parent (node t p)
          ∧ children (node t' p) = children (node t p)
          ∧ wildcardChild (node t' p) = wildcardChild (node t p)
          ∧ terminatingWildcardChild (node t' p) = terminatingWildcardChild (node t p)
          ∧ subs (node t' p) = subs (node t p)).
Proof.
  intros Hr Hd.
  destruct (drain_inv fuel t t' log (reachable_inv t Hr) Hd) as [_ Hclear].
  destruct (drain_shape fuel t t' log Hd) as ([Hlen Hsh] & Hrt & Hsubs).
  split; [done|].
  assert (triggeredTopics t' = [] ∧ messageId t' = messageId t) as [Hb Hid].
  { revert Hd. unfold drain. destruct (numTriggeredTopics t =? 0) eqn:E.
    - intros [= <- <-]. split; [|done]. unfold numTriggeredTopics in E.
      destruct (triggeredTopics t); [done|]. simpl in E. lia.
    - destruct (merge_loop fuel t (merge_init t)); [|done]. by intros [= <- <-]. }
  split; [done|]. split; [done|]. split; [done|]. split; [done|]. split; [done|].
  intros p. apply Hsh.
Qed.

Lemma drain_clears_every_node_witness :
  ∃ t' log, drain 2 two_topic_batch = Some (t', log)
            ∧ ∀ p, messages (node t' p) = [] ∧ triggered (node t' p) = false.
Proof.
  assert (reachable two_topic_batch) as Hr.
  { apply reach_publish. apply reach_subscribe; [lia|].
    apply reach_subscribe; [lia|apply reach_empty]. }
  destruct (drain 2 two_topic_batch) as [[t' log]|] eqn:E.
  - exists t', log. split; [reflexivity|].
    exact (proj1 (drain_clears_every_node 2 two_topic_batch t' log Hr E)).
  - vm_compute in E. discriminate E.
Defined.

(** ** unsubscribeAll: what it leaves alone *)

(** X10.  [unsubscribeAll] only removes: subscribers from subscriber sets and
    entries from children maps.  It leaves the batch, [min], the sequence
    id, every message and flag, and the subscriber's own list of
    subscriptions as they are; a triggered node that loses its last
    subscriber stays in the batch, with its messages. *)
Theorem unsubscribeAll_only_removes (s : Z) (t t' : TopicTree) :
  unsubscribeAll s t = Some t' →
  triggeredTopics t' = triggeredTopics t
  ∧ min t' = min t
  ∧ messageId t' = messageId t
  ∧ root t' = root t
  ∧ subscriptions t' = subscriptions t
  ∧ length (topics t') = length (topics t)
  ∧ ∀ p, name (node t' p) = name (node t p)
         ∧ parent (node t' p) = parent (node t p)
         ∧ triggered (node t' p) = triggered (node t p)
         ∧ messages (node t' p) = messages (node t p)
         ∧ (∀ x, x ∈ subs (node t' p) → x ∈ subs (node t p))
         ∧ children (node t' p) ⊆ children (node t p).
Proof.
  unfold unsubscribeAll. destruct (s =? 0).
  { intros [= <-]. do 6 (split; [done|]). intros p. do 5 (split; [done|]). done. }
  destruct (unsubscribe_each _ _ _ _ _) as [h'|] eqn:He; [|done].
  intros [= <-]. apply unsubscribe_each_trims in He as [Hlen Htr].
  unfold node, set_topics. cbn [topics triggeredTopics min messageId root subscriptions].
  do 6 (split; [done|]).
  intros p. destruct (Htr p) as (H1 & H2 & H3 & H4 & _ & H6 & H7). done.
Qed.

Lemma unsubscribeAll_only_removes_witness :
  triggeredTopics stranded_batch = [1%nat]
  ∧ messages (node stranded_batch 1) = [(0, "M"%string)]
  ∧ subs (node stranded_batch 1) = [].
Proof.
  assert (unsubscribeAll 5 (publish "a" "M" (subscribe "a" 5 emptyTree))
          = Some stranded_batch) as Hu by (vm_compute; reflexivity).
  destruct (unsubscribeAll_only_removes 5 _ _ Hu) as (H1 & _ & _ & _ & _ & _ & Hn).
  destruct (Hn 1%nat) as (_ & _ & _ & H4 & _).
  split; [rewrite H1; vm_compute; reflexivity|].
  split; [rewrite H4; vm_compute; reflexivity|].
  vm_compute. reflexivity.
Defined.

(** ** unsubscribeAll: a second call *)

Lemma set_erase_absent (x : Z) (l : list Z) : x ∉ l → set_erase x l = l.
Proof.
  induction l as [|y l IH]; [done|]. rewrite not_elem_of_cons. intros [Hne Hl].
  cbn [set_erase]. destruct (Z.eqb_spec x y); [done|]. by rewrite IH.
Qed.

Lemma erase_sub_absent (s : Z) (n : Topic) : s ∉ subs n → erase_sub s n = n.
Proof. intros Hs. destruct n. unfold erase_sub. cbn in *. by rewrite set_erase_absent. Qed.

Lemma detach_child_absent (nm : string) (n : Topic) :
  links_ok n → children n !! nm = None → detach_child nm n = n.
Proof.
  intros [Hw Ht] Hc. destruct n as [a b c ch w tw m sb]. unfold detach_child. cbn in *.
  rewrite delete_id by done.
  destruct (String.eqb_spec nm "#") as [->|Hh].
  - by rewrite Ht, Hc.
  - destruct (String.eqb_spec nm "+") as [->|Hp]; [|done].
    by rewrite Hw, Hc.
Qed.

Lemma insert_same (h : list Topic) (q : nat) : <[q := h !!! q]> h = h.
Proof.
  destruct (decide (q < length h)%nat) as [Hlt|Hge].
  - apply list_insert_id. by apply list_lookup_lookup_total_lt.
  - by rewrite list_insert_ge by lia.
Qed.

(** If the nodes of [h'] come from those of [h] by removals, a node
    settled in [h] is settled in [h'] as soon as the nodes in use in [h]
    are. *)
Lemma settled_mono (h h' : list Topic) (rt : nat) :
  (∀ x, trims (h !!! x) (h' !!! x)) →
  (∀ x, unused (h !!! x) = false → settled h' rt x) →
  ∀ x, settled h rt x → settled h' rt x.
Proof.
  intros Htr Hused x Hx. induction Hx as [|p Hp|p q Hpar Hent Hq IH].
  - apply settled_root.
  - by apply Hused.
  - destruct (Htr p) as (Hn & Hpa & _). destruct (Htr q) as (_ & _ & _ & _ & _ & _ & Hch).
    apply settled_gone with (q := q); [congruence| |done].
    rewrite Hn. eapply lookup_weaken_None; [exact Hent|exact Hch].
Qed.

Lemma detach_entry (h : list Topic) (r : nat) (nm : string) :
  children (<[r := detach_child nm (h !!! r)]> h !!! r) !! nm = None.
Proof.
  destruct (decide (r < length h)%nat) as [Hlt|Hge].
  - rewrite list_lookup_total_insert_eq by done. cbn [detach_child children].
    apply lookup_delete_eq.
  - rewrite list_insert_ge by lia. rewrite lookup_total_ge by lia. apply lookup_empty.
Qed.

(** A removal on a node followed by [trimTree] on that node settles it and
    keeps settled what was. *)
Lemma trim_settles (rt : nat) (fuel : nat) :
  ∀ (h0 : list Topic) (q : nat) (n' : Topic) (h' : list Topic),
  trims (h0 !!! q) n' → q ≠ rt →
  trimTree fuel rt q (<[q := n']> h0) = Some h' →
  (∀ x, settled h0 rt x → settled h' rt x) ∧ settled h' rt q.
Proof.
  induction fuel as [|fuel IH]; intros h0 q n' h' Hn Hq;
    pose proof (trims_insert h0 q n' Hn) as Htr01;
    set (h1 := <[q := n']> h0) in *; cbn [trimTree].
  - destruct (unused (h1 !!! q)) eqn:Hu.
    + destruct (parent (h1 !!! q)) as [r|] eqn:Hpar; [|done].
      destruct (Nat.eqb_spec r rt) as [->|Hr]; [|done].
      intros [= <-].
      set (h2 := <[rt := detach_child (name (h1 !!! q)) (h1 !!! rt)]> h1).
      assert (h2 !!! q = h1 !!! q) as Hq2
        by (unfold h2; by rewrite list_lookup_total_insert_ne).
      assert (settled h2 rt q) as Hsq.
      { apply settled_gone with (q := rt); [by rewrite Hq2| |apply settled_root].
        rewrite Hq2. apply detach_entry. }
      split; [|done].
      apply settled_mono.
      * intros x. eapply trims_trans; [apply Htr01|].
        apply trims_insert, trims_detach_child.
      * intros x Hx. destruct (decide (x = q)) as [->|Hxq]; [done|].
        destruct (decide (x = rt)) as [->|Hxr]; [apply settled_root|].
        apply settled_used. unfold h2, h1.
        by rewrite !list_lookup_total_insert_ne.
    + intros [= <-]. assert (settled h1 rt q) as Hsq by (by apply settled_used).
      split; [|done]. apply settled_mono; [done|].
      intros x Hx. destruct (decide (x = q)) as [->|Hxq]; [done|].
      apply settled_used. unfold h1. by rewrite list_lookup_total_insert_ne.
  - destruct (unused (h1 !!! q)) eqn:Hu.
    + destruct (parent (h1 !!! q)) as [r|] eqn:Hpar; [|done].
      set (h2 := <[r := detach_child (name (h1 !!! q)) (h1 !!! r)]> h1).
      destruct (Nat.eqb_spec r rt) as [->|Hr].
      * intros [= <-].
        assert (h2 !!! q = h1 !!! q) as Hq2
          by (unfold h2; by rewrite list_lookup_total_insert_ne).
        assert (settled h2 rt q) as Hsq.
        { apply settled_gone with (q := rt); [by rewrite Hq2| |apply settled_root].
          rewrite Hq2. apply detach_entry. }
        split; [|done].
        apply settled_mono.
        -- intros x. eapply trims_trans; [apply Htr01|].
           apply trims_insert, trims_detach_child.
        -- intros x Hx. destruct (decide (x = q)) as [->|Hxq]; [done|].
           destruct (decide (x = rt)) as [->|Hxr]; [apply settled_root|].
           apply settled_used. unfold h2, h1.
           by rewrite !list_lookup_total_insert_ne.
      * intros Hrec.
        pose proof (trimTree_trims rt fuel h2 r h' Hrec) as [_ Htr2].
        pose proof (trims_insert h1 r _ (trims_detach_child (name (h1 !!! q)) (h1 !!! r)))
          as Htr12.
        destruct (IH h1 r _ h' (trims_detach_child (name (h1 !!! q)) (h1 !!! r)) Hr Hrec)
          as [Hkeep Hsr].
        assert (∀ x, trims (h1 !!! x) (h' !!! x)) as Htr1'.
        { intros x. eapply trims_trans; [apply Htr12|apply Htr2]. }
        assert (settled h' rt q) as Hsq.
        { destruct (Htr1' q) as (Hnm & Hpa & _).
          apply settled_gone with (q := r); [congruence| |done].
          rewrite Hnm. destruct (Htr2 r) as (_ & _ & _ & _ & _ & _ & Hch).
          eapply lookup_weaken_None; [apply detach_entry|exact Hch]. }
        split; [|done].
        apply settled_mono.
        -- intros x. eapply trims_trans; [apply Htr01|apply Htr1'].
        -- intros x Hx. destruct (decide (x = q)) as [->|Hxq]; [done|].
           apply Hkeep, settled_used. unfold h1. by rewrite list_lookup_total_insert_ne.
    + intros [= <-]. assert (settled h1 rt q) as Hsq by (by apply settled_used).
      split; [|done]. apply settled_mono; [done|].
      intros x Hx. destruct (decide (x = q)) as [->|Hxq]; [done|].
      apply settled_used. unfold h1. by rewrite list_lookup_total_insert_ne.
Qed.

(** After [unsubscribeAll] every node of the list is settled. *)
Lemma unsubscribe_each_settles (rt : nat) (s : Z) (fuel : nat) (l : list nat) :
  ∀ (h h' : list Topic),
  unsubscribe_each fuel rt s l h = Some h' → Forall (λ p, p ≠ rt) l →
  (∀ x, settled h rt x → settled h' rt x) ∧ Forall (settled h' rt) l.
Proof.
  induction l as [|p l IH]; intros h h'; cbn [unsubscribe_each].
  - intros [= <-] _. done.
  - destruct (trimTree fuel rt p (<[p := erase_sub s (h !!! p)]> h)) as [h1|] eqn:Ht;
      [|done].
    intros Hrec [Hp Hl]%Forall_cons.
    destruct (trim_settles rt fuel h p _ h1 (trims_erase_sub s (h !!! p)) Hp Ht)
      as [Hkeep1 Hsp].
    destruct (IH h1 h' Hrec Hl) as [Hkeep Hall].
    split; [auto|]. apply Forall_cons. split; [auto|done].
Qed.

(** [trimTree] changes nothing from a settled node. *)
Lemma trimTree_settled (rt : nat) (h : list Topic) :
  wf_arena h rt → (∀ x, links_ok (h !!! x)) →
  ∀ (fuel p : nat),
  settled h rt p → p ≠ rt → (p < length h)%nat → (p ≤ fuel)%nat →
  trimTree fuel rt p h = Some h.
Proof.
  intros Hwa Hl. induction fuel as [|fuel IH]; intros p Hs Hp Hlt Hf; cbn [trimTree].
  - destruct (wf_arena_parent h rt p Hwa Hlt Hp) as (q & _ & Hq). lia.
  - destruct (unused (h !!! p)) eqn:Hu; [|done].
    destruct Hs as [|p Hused|p q Hpar Hent Hq]; [done|congruence|].
    rewrite Hpar. rewrite detach_child_absent by done. rewrite insert_same.
    destruct (Nat.eqb_spec q rt) as [|Hqr]; [done|].
    destruct (wf_arena_parent h rt p Hwa Hlt Hp) as (q' & Hpar' & Hq').
    assert (q' = q) as -> by congruence.
    apply IH; [done|done|lia|lia].
Qed.

Lemma unsubscribe_each_again (rt : nat) (s : Z) (fuel : nat) (h : list Topic)
    (l : list nat) :
  wf_arena h rt → (∀ x, links_ok (h !!! x)) → (length h ≤ fuel)%nat →
  Forall (λ p, settled h rt p ∧ p ≠ rt ∧ (p < length h)%nat ∧ s ∉ subs (h !!! p)) l →
  unsubscribe_each fuel rt s l h = Some h.
Proof.
  intros Hwa Hl Hf. induction l as [|p l IH]; [done|].
  intros [(Hs & Hp & Hlt & Hns) Hrest]%Forall_cons. cbn [unsubscribe_each].
  rewrite erase_sub_absent by done. rewrite insert_same.
  rewrite trimTree_settled by (done || lia). by apply IH.
Qed.

(** X11.  [unsubscribeAll] does not clear the subscriber's list, and still a
    second call right after the first finds nothing to do: it returns and
    leaves the tree as the first call left it. *)
Theorem unsubscribeAll_twice (s : Z) (t t' : TopicTree) :
  reachable t → unsubscribeAll s t = Some t' →
  subscriptions_of t' s = subscriptions_of t s
  ∧ unsubscribeAll s t' = Some t'.
Proof.
  intros Hr Hu.
  destruct (reachable_wf t Hr) as [Hwf Htrim].
  destruct (unsubscribeAll_ok s t Hwf Htrim)
    as (t2 & Hu2 & Hgone & _ & _ & [Hwa' _] & Hrt & Hlen & _).
  assert (t2 = t') as -> by congruence.
  pose proof (reachable_inv t' (reach_unsubscribeAll s t t' Hr Hu)) as [Hinv _].
  pose proof (wf_subscriptions_of t s Hwf) as Hlist.
  revert Hu Hgone Hwa' Hrt Hlen Hinv. unfold unsubscribeAll.
  destruct (Z.eqb_spec s 0) as [->|Hs0]; [by intros [= <-]|].
  destruct (unsubscribe_each _ _ _ _ _) as [h'|] eqn:He; [|done].
  intros [= <-] Hgone Hwa' Hrt Hlen Hinv.
  change (subscriptions_of (set_topics h' t) s) with (subscriptions_of t s).
  split; [done|].
  cbn [set_topics topics root] in *.
  assert (Forall (λ p, p ≠ root t) (subscriptions_of t s)) as Hne
    by (eapply Forall_impl; [exact Hlist|]; by intros p [_ ?]).
  destruct (unsubscribe_each_settles _ _ _ _ _ _ He Hne) as [_ Hset].
  rewrite unsubscribe_each_again; [done|done|apply (ti_links _ _ Hinv)|lia|].
  apply Forall_forall. intros p Hp.
  rewrite Forall_forall in Hset, Hlist. destruct (Hlist p Hp) as [Hlt Hpr].
  split; [by apply Hset|]. split; [done|]. split; [lia|].
  by apply (Hgone Hs0 p).
Qed.

Lemma unsubscribeAll_twice_witness :
  ∃ t', unsubscribeAll 10 (subscribe "a/b" 10 emptyTree) = Some t'
        ∧ subscriptions_of t' 10 = [2%nat]
        ∧ unsubscribeAll 10 t' = Some t'.
Proof.
  assert (reachable (subscribe "a/b" 10 emptyTree)) as Hr
    by (apply reach_subscribe; [lia|apply reach_empty]).
  destruct (unsubscribeAll 10 (subscribe "a/b" 10 emptyTree)) as [t'|] eqn:E.
  - exists t'. split; [reflexivity|].
    destruct (unsubscribeAll_twice 10 _ t' Hr E) as [H1 H2].
    split; [|exact H2]. rewrite H1. vm_compute. reflexivity.
  - vm_compute in E. discriminate E.
Defined.

(** ** publish: what it leaves alone *)

Lemma map_assign_keeps (k : Z) (v : string) (m : list (Z * string)) (e : Z * string) :
  e ∈ m → e.1 ≠ k → e ∈ map_assign k v m.
Proof.
  induction m as [|[k' v'] m IH]; cbn [map_assign]; [by intros ?%elem_of_nil|].
  rewrite elem_of_cons. intros [->|He] Hk.
  - cbn in Hk. destruct (k <? k'); [apply elem_of_cons; right; apply elem_of_cons; by left|].
    destruct (Z.eqb_spec k k'); [done|]. apply elem_of_cons. by left.
  - destruct (k <? k'); [apply elem_of_cons; right; apply elem_of_cons; by right|].
    destruct (k =? k'); apply elem_of_cons; right; [done|by apply IH].
Qed.

Lemma publish_store_messages (message : string) (p : nat) (t : TopicTree) (q : nat) :
  messages (node (publish_store message p t) q) = messages (node t q)
  ∨ messages (node (publish_store message p t) q)
    = map_assign (messageId t) message (messages (node t q)).
Proof.
  destruct (publish_store_node message p t) as (_ & _ & G3 & G4 & _).
  destruct (decide (q = p)) as [->|Hne]; [|left; by rewrite G3].
  destruct (decide (p < length (topics t))%nat) as [Hlt|Hge].
  - right. by destruct (G4 Hlt).
  - left. unfold publish_store, node, set_topics.
    destruct (triggered (topics t !!! p)); cbn [topics]; by rewrite list_insert_ge by lia.
Qed.

Lemma publish_store_batch (message : string) (p : nat) (t : TopicTree) :
  (∃ k, triggeredTopics (publish_store message p t) = triggeredTopics t ++ k)
  ∧ min (publish_store message p t) <= min t.
Proof.
  unfold publish_store. destruct (triggered (node t p)); cbn [triggeredTopics min set_topics].
  - split; [exists []; by rewrite app_nil_r|lia].
  - split; [by eexists|]. destruct (Z.ltb_spec (set_begin (subs (node t p))) (min t)); lia.
Qed.

Lemma store_all_stores (message : string) (l : list nat) : ∀ t : TopicTree,
  (∃ k, triggeredTopics (store_all message l t) = triggeredTopics t ++ k)
  ∧ min (store_all message l t) <= min t
  ∧ (∀ p e, e ∈ messages (node (store_all message l t) p) →
            e = (messageId t, message) ∨ e ∈ messages (node t p))
  ∧ (∀ p e, e ∈ messages (node t p) → e.1 ≠ messageId t →
            e ∈ messages (node (store_all message l t) p)).
Proof.
  induction l as [|q l IH]; intros t.
  - split; [exists []; by rewrite app_nil_r|]. split; [done|]. split; [by right|done].
  - change (store_all message (q :: l) t)
      with (store_all message l (publish_store message q t)).
    destruct (IH (publish_store message q t)) as ([k Hk] & Hmin & Hnew & Hold).
    destruct (publish_store_batch message q t) as ([k0 Hk0] & Hmin0).
    destruct (publish_store_node message q t) as (_ & Hid & _).
    rewrite Hid in Hnew, Hold.
    split; [exists (k0 ++ k); by rewrite Hk, Hk0, app_assoc|]. split; [lia|]. split.
    + intros p e He. destruct (Hnew p e He) as [?|He']; [by left|].
      destruct (publish_store_messages message q t p) as [Hm|Hm]; rewrite Hm in He'.
      * by right.
      * by apply map_assign_elem_inv in He'.
    + intros p e He Hne. apply Hold; [|done].
      destruct (publish_store_messages message q t p) as [Hm|Hm]; rewrite Hm; [done|].
      by apply map_assign_keeps.
Qed.

(** X12.  Within the limits of the program (the sequence id is below
    [INT_MAX] and the batch still fits its 64 slots after the publish)
    [publish] stores and flags, and nothing else: it takes the next
    sequence id, appends to the batch, may lower [min], and adds the
    message to message maps; it never allocates, unlinks or renames a
    node, never changes a subscriber set or a subscription list, and never
    removes or replaces a message stored by an earlier publish; and the
    state it leaves is within the limits again. *)
Theorem publish_only_stores (topic message : string) (t : TopicTree) :
  within_limits t → sv_size topic < npos →
  messageId t < INT_MAX →
  numTriggeredTopics (publish topic message t) <= TRIGGERED_CAPACITY →
  within_limits (publish topic message t)
  ∧ messageId (publish topic message t) = messageId t + 1
  ∧ root (publish topic message t) = root t
  ∧ subscriptions (publish topic message t) = subscriptions t
  ∧ length (topics (publish topic message t)) = length (topics t)
  ∧ (∃ k, triggeredTopics (publish topic message t) = triggeredTopics t ++ k)
  ∧ min (publish topic message t) <= min t
  ∧ ∀ p, name (node (publish topic message t) p) = name (node t p)
         ∧ parent (node (publish topic message t) p) = parent (node t p)
         ∧ children (node (publish topic message t) p) = children (node t p)
         ∧ wildcardChild (node (publish topic message t) p) = wildcardChild (node t p)
         ∧ terminatingWildcardChild (node (publish topic message t) p)
           = terminatingWildcardChild (node t p)
         ∧ subs (node (publish topic message t) p) = subs (node t p)
         ∧ (∀ e, e ∈ messages (node t p) → e ∈ messages (node (publish topic message t) p))
         ∧ (∀ e, e ∈ messages (node (publish topic message t) p) →
                 e = (messageId t, message) ∨ e ∈ messages (node t p)).
Proof.
  intros Hl Hsz Hid Hcap. split; [by apply lim_publish|].
  pose proof (within_limits_reachable t Hl) as Hr.
  destruct (reachable_inv t Hr) as [Hinv _].
  destruct (publish_shape topic message t) as ([Hlen Hsh] & Hrt & Hsubs).
  split.
  { rewrite (publish_segments topic message t Hsz). cbn [bump_messageId messageId].
    by destruct (store_all_keeps message
                   (match_targets (topics t) (root t) (segments topic)) t) as (_ & -> & _). }
  split; [done|]. split; [done|]. split; [done|].
  assert (publish topic message t
          = bump_messageId (store_all message
                              (match_targets (topics t) (root t) (segments topic)) t))
    as Heq by (by apply publish_segments).
  destruct (store_all_stores message (match_targets (topics t) (root t) (segments topic)) t)
    as (Hk & Hmin & Hnew & Hold).
  split; [by rewrite Heq|]. split; [by rewrite Heq|].
  intros p. destruct (Hsh p) as (H1 & H2 & H3 & H4 & H5 & H6).
  do 6 (split; [done|]). rewrite Heq.
  change (node (bump_messageId ?x) p) with (node x p).
  split; [|apply Hnew].
  intros e He. apply Hold; [done|].
  destruct (ti_messages _ _ Hinv p) as (_ & Hkeys & _). rewrite Forall_forall in Hkeys.
  assert (e.1 ∈ map fst (messages (node t p))) as Hin by (by apply list_elem_of_fmap_2).
  apply Hkeys in Hin. lia.
Qed.

Lemma publish_only_stores_witness :
  messageId (publish "a/b" "M2" two_topic_batch) = 2
  ∧ subs (node (publish "a/b" "M2" two_topic_batch) 2) = [10].
Proof.
  assert (sv_size "a/b" < npos) as Hsz by (vm_compute; reflexivity).
  assert (messageId two_topic_batch < INT_MAX) as Hid by (vm_compute; reflexivity).
  assert (numTriggeredTopics (publish "a/b" "M2" two_topic_batch) <= TRIGGERED_CAPACITY)
    as Hcap by (vm_compute; discriminate).
  destruct (publish_only_stores "a/b" "M2" two_topic_batch
              within_limits_two_topic_batch Hsz Hid Hcap)
    as (_ & H1 & _ & _ & _ & _ & _ & Hn).
  destruct (Hn 2%nat) as (_ & _ & _ & _ & _ & H6 & _).
  split; [rewrite H1; vm_compute; reflexivity|rewrite H6; vm_compute; reflexivity].
Defined.

(** ** drain: what the payload is *)

Lemma first_at_spec (h : list Topic) (k : Z) (v : string) (per : list nat) :
  (∀ p, sorted_keys (messages (h !!! p))) →
  (∀ p q w w', (k, w) ∈ messages (h !!! p) → (k, w') ∈ messages (h !!! q) → w = w') →
  first_at k h per = Some v ↔ ∃ p, p ∈ per ∧ (k, v) ∈ messages (h !!! p).
Proof.
  intros Hs Hsame. induction per as [|p per IH]; cbn [first_at].
  - split; [done|]. intros (p & Hp & _). by apply elem_of_nil in Hp.
  - destruct (map_at k (messages (h !!! p))) as [w|] eqn:E.
    + apply map_at_elem in E. split.
      * intros [= ->]. exists p. split; [apply elem_of_cons; by left|done].
      * intros (q & _ & Hq). f_equal. by eapply Hsame.
    + rewrite IH. split.
      * intros (q & Hq & Hv). exists q. split; [apply elem_of_cons; by right|done].
      * intros (q & Hq & Hv). apply elem_of_cons in Hq as [->|Hq]; [|by exists q].
        apply elem_map_at in Hv; [congruence|apply Hs].
Qed.

(** ** drain under disciplined use *)

(** X14.  Under disciplined use (subscriptions change only while the batch is
    empty, and a publish reaches only nodes that have subscribers) and
    within the limits of the program (no batch has outgrown its 64 slots,
    no sequence id has passed [INT_MAX]) [drain] returns, within as many
    iterations as the batch has subscribers; it calls [cb] once for each
    distinct subscriber of the batch, in ascending order of address, with
    the payload that subscriber is owed when the batch has at most 32
    nodes; and it leaves an empty batch, [min] at [UINTPTR_MAX] and a
    state that is disciplined, and within the limits, again. *)
Theorem disciplined_drain_delivers (t : TopicTree) :
  disciplined t → within_limits t →
  ∃ t' log, drain (total (triggered_sets t)) t = Some (t', log)
    ∧ numTriggeredTopics t <= TRIGGERED_CAPACITY
    ∧ StronglySorted Z.lt (map fst log)
    ∧ (∀ s, s ∈ map fst log ↔ ∃ p, p ∈ triggeredTopics t ∧ s ∈ subs (node t p))
    ∧ ((length (triggeredTopics t) ≤ 32)%nat →
       ∀ s pl, (s, pl) ∈ log → pl = payload_of t s)
    ∧ disciplined t'
    ∧ within_limits t'
    ∧ triggeredTopics t' = []
    ∧ min t' = UINTPTR_MAX.
Proof.
  intros Hd Hl. destruct (disciplined_batch t Hd) as (Hr & _ & Hinv).
  destruct (drain_delivers_once t (proj1 Hinv)) as (t' & log & Hdr & Hfst & Hso & Hin & Hpl).
  exists t', log. split; [done|]. split; [by apply within_limits_bounds|].
  split; [done|]. split; [done|]. split.
  { intros Hle s pl Hlog. rewrite (Hpl Hle) in Hlog.
    apply list_elem_of_fmap in Hlog as (s' & [= -> ->] & _). done. }
  split; [by eapply disc_drain|]. split; [by eapply lim_drain|].
  destruct (drain_batch_inv _ t t' log Hinv Hdr) as [_ Hmin].
  destruct (drain_inv _ t t' log (reachable_inv t Hr) Hdr) as [[Hti _] Hclear].
  assert (triggeredTopics t' = []) as Hnil.
  { destruct (triggeredTopics t') as [|p r] eqn:E; [done|].
    assert (p ∈ triggeredTopics t') as Hp by (rewrite E; apply elem_of_cons; by left).
    apply (ti_flags _ _ Hti) in Hp. destruct (Hclear p) as [_ Hf]. congruence. }
  split; [done|by apply Hmin].
Qed.

Lemma disciplined_two_topic_batch : disciplined two_topic_batch.
Proof.
  assert (valid_subscriber 10) as H10 by (unfold valid_subscriber, UINTPTR_MAX; lia).
  assert (valid_subscriber 20) as H20 by (unfold valid_subscriber, UINTPTR_MAX; lia).
  apply disc_publish with (l := [3%nat; 2%nat]).
  - apply disc_subscribe; [done| |reflexivity].
    apply disc_subscribe; [done|apply disc_empty|reflexivity].
  - vm_compute. reflexivity.
  - repeat constructor; vm_compute; discriminate.
Qed.

Lemma disciplined_drain_delivers_witness :
  ∃ t' log, drain 2 two_topic_batch = Some (t', log)
            ∧ StronglySorted Z.lt (map fst log)
            ∧ min t' = UINTPTR_MAX.
Proof.
  destruct (disciplined_drain_delivers two_topic_batch disciplined_two_topic_batch
              within_limits_two_topic_batch)
    as (t' & log & H1 & _ & H2 & _ & _ & _ & _ & _ & H7).
  assert (total (triggered_sets two_topic_batch) = 2%nat) as E by (vm_compute; reflexivity).
  rewrite E in H1.
  exists t', log. split; [exact H1|]. split; [exact H2|exact H7].
Defined.

(** ** A subscription to a topic without wildcards *)

Lemma subscribe_path_plain (segs : list string) :
  ∀ (h : list Topic) (iterator : nat) (h' : list Topic) (it' : nat),
  subscribe_path h iterator segs = (h', it') →
  closed h → (iterator < length h)%nat → Forall literal segs →
  plain h → plain h'.
Proof.
  induction segs as [|seg segs IH]; intros h iterator h' it'; cbn [subscribe_path].
  - by intros [= <- <-].
  - destruct (children (h !!! iterator) !! seg) as [c|] eqn:Hc.
    + intros Hw Hcl Hit [_ Hl]%Forall_cons Hpl.
      eapply IH; [exact Hw|done|by eapply closed_lookup|done|done].
    + destruct (insert_child h iterator seg) as [h1 c] eqn:Hic.
      intros Hw Hcl Hit [[Hplus Hhash] Hl]%Forall_cons Hpl.
      assert (h1 = (insert_child h iterator seg).1) as Hh1 by (by rewrite Hic).
      assert (c = length h) as Hcn by (unfold insert_child in Hic; congruence).
      eapply IH; [exact Hw| | |done|].
      * rewrite Hh1. by apply insert_child_closed.
      * rewrite Hh1, insert_child_length. lia.
      * intros x. rewrite Hh1, insert_child_node by done.
        destruct (decide (x = iterator)) as [->|_].
        -- cbn [wildcardChild terminatingWildcardChild].
           destruct (String.eqb_spec seg "+"); [done|].
           destruct (String.eqb_spec seg "#"); [done|]. apply Hpl.
        -- destruct (decide (x = length h)); [done|apply Hpl].
Qed.

(** Without wildcard nodes a publish stores on the node its topic spells,
    if there is one, and on no other. *)
Lemma match_targets_plain (h : list Topic) (segs : list string) :
  plain h → ∀ iterator,
  match_targets h iterator segs
  = match follow h iterator segs with Some p => [p] | None => [] end.
Proof.
  intros Hpl. induction segs as [|seg segs IH]; intros iterator; [done|].
  cbn [match_targets follow]. destruct (Hpl iterator) as [-> ->].
  destruct (children (h !!! iterator) !! seg); [apply IH|done].
Qed.

(** X15.  On a fresh tree, a subscriber of a topic without wildcard segments is
    delivered the message of a publish to that topic: [drain] calls [cb]
    once, for that subscriber, with the message. *)
Theorem fresh_subscription_delivers (topic message : string) (s : Z) :
  sv_size topic < npos → 0 < s < UINTPTR_MAX → Forall literal (segments topic) →
  ∃ t', drain 1 (publish topic message (subscribe topic s emptyTree))
        = Some (t', [(s, message)]).
Proof.
  intros Hsz Hs Hlit.
  destruct (subscribe_effect topic s emptyTree reach_empty Hsz)
    as (it & Hfol & Hitr & Hit & _ & _ & Hsubs & Hmsg & Hbatch & Hmin & Hid & Hrt & _).
  set (t1 := subscribe topic s emptyTree) in *.
  assert (reachable t1) as Hr1 by (apply reach_subscribe; [lia|apply reach_empty]).
  destruct (reachable_wf t1 Hr1) as [[Hwa _] _].
  assert (node emptyTree it = newTopic "" None) as Hnode.
  { unfold node. apply lookup_total_ge. cbn in *. lia. }
  assert (plain (topics t1)) as Hplain.
  { pose proof (subscribe_walk_segments topic (S (String.length topic)) Hsz
                  (topics emptyTree) (root emptyTree) 0 0) as Hw.
    change (drop_string (Z.to_nat 0) topic) with topic in Hw.
    destruct (subscribe_path (topics emptyTree) (root emptyTree) (segments topic))
      as [h it0] eqn:Hp.
    assert (subscribe_walk (S (String.length topic)) topic (topics emptyTree)
              (root emptyTree) 0 0 = Some (h, it0)) as Hwalk
      by (apply Hw; unfold npos, sv_size in *; lia).
    unfold t1. rewrite (subscribe_eq topic s emptyTree h it0 Hwalk). cbn [topics].
    assert (plain h) as Hph.
    { eapply subscribe_path_plain; [exact Hp|apply closed_emptyTree|cbn; lia|done|].
      intros [|x]; done. }
    intros x. destruct (same_links_add_sub h it0 s x) as (_ & -> & ->). apply Hph. }
  destruct (publish_targets_of topic t1 Hsz Hwa) as [Htargets _].
  rewrite <- Hrt in Hfol.
  rewrite (match_targets_plain _ _ Hplain), Hfol in Htargets.
  destruct (Hmsg it) as [Hm Ht]. rewrite Hnode in Hm, Ht. cbn in Hm, Ht.
  destruct (publish_single topic message t1 it Htargets Hit Ht)
    as (Hb' & Hmin' & Hsubs' & Hmsg' & _).
  specialize (Hsubs it). rewrite decide_True in Hsubs by done.
  rewrite Hnode in Hsubs. cbn in Hsubs.
  apply (drain_single_node _ it s (messageId t1) message).
  - by rewrite Hb', Hbatch.
  - by rewrite Hsubs'.
  - by rewrite Hmsg', Hm.
  - rewrite Hmin', Hsubs, Hmin. cbn [set_begin]. cbn [min emptyTree].
    by rewrite lt_UINTPTR_MAX by lia.
  - lia.
Qed.

Lemma fresh_subscription_delivers_witness :
  ∃ t', drain 1 (publish "room//7" "hello" (subscribe "room//7" 42 emptyTree))
        = Some (t', [(42, "hello"%string)]).
Proof.
  apply fresh_subscription_delivers.
  - vm_compute. reflexivity.
  - unfold UINTPTR_MAX. lia.
  - repeat constructor; discriminate.
Defined.

(** ** unsubscribe removes nothing *)



(** ** A stale subscription list *)

Lemma match_targets_leaf (h : list Topic) (iterator : nat) (segs : list string) :
  children (h !!! iterator) = ∅ → wildcardChild (h !!! iterator) = None →
  terminatingWildcardChild (h !!! iterator) = None → segs ≠ [] →
  match_targets h iterator segs = [].
Proof.
  intros Hc Hw Ht Hs. destruct segs as [|seg segs]; [done|].
  cbn [match_targets]. by rewrite Hc, Hw, Ht, lookup_empty.
Qed.

(** X17.  [unsubscribeAll] keeps the subscriber's list, so a later call trims
    by the names of nodes that left the tree long ago, and can unlink the
    node another subscriber has taken under the same name.  In the state
    reached below subscriber 2 is subscribed (it is in the set of its node
    and the node is in its list), yet the root has no child left: no
    publish, whatever its topic, stores anything or triggers a node. *)
Theorem stale_list_cuts_off_a_subscriber :
  reachable cut_off_tree
  ∧ subscriptions_of cut_off_tree 1 = [1%nat]
  ∧ subscriptions_of cut_off_tree 2 = [2%nat]
  ∧ subs (node cut_off_tree 2) = [2]
  ∧ name (node cut_off_tree 2) = "a"%string
  ∧ parent (node cut_off_tree 2) = Some (root cut_off_tree)
  ∧ children (node cut_off_tree (root cut_off_tree)) = ∅
  ∧ ∀ topic message, sv_size topic < npos →
      publish topic message cut_off_tree = bump_messageId cut_off_tree.
Proof.
  assert (reachable cut_off_tree) as Hr.
  { apply (reach_unsubscribeAll 1
             (subscribe "a" 2
                (default emptyTree (unsubscribeAll 1 (subscribe "a" 1 emptyTree))))).
    - apply reach_subscribe; [lia|].
      apply (reach_unsubscribeAll 1 (subscribe "a" 1 emptyTree)).
      + apply reach_subscribe; [lia|apply reach_empty].
      + vm_compute. reflexivity.
    - vm_compute. reflexivity. }
  split; [done|].
  split; [vm_compute; reflexivity|]. split; [vm_compute; reflexivity|].
  split; [vm_compute; reflexivity|]. split; [vm_compute; reflexivity|].
  split; [vm_compute; reflexivity|]. split; [vm_compute; reflexivity|].
  intros topic message Hsz.
  rewrite (publish_segments topic message cut_off_tree Hsz).
  rewrite match_targets_leaf; [done| | | |apply segments_nonempty];
    vm_compute; reflexivity.
Qed.

Lemma stale_list_cuts_off_a_subscriber_witness :
  2 ∈ subs (node cut_off_tree 2)
  ∧ publish "a" "M" cut_off_tree = bump_messageId cut_off_tree.
Proof.
  destruct stale_list_cuts_off_a_subscriber as (_ & _ & _ & H4 & _ & _ & _ & H8).
  split.
  - rewrite H4. apply list_elem_of_singleton. reflexivity.
  - apply H8. vm_compute. reflexivity.
Defined.

(** ** Two subscribers of one topic *)

Lemma follow_subscribe_path (h : list Topic) (segs : list string) : ∀ (iterator p : nat),
  follow h iterator segs = Some p → subscribe_path h iterator segs = (h, p).
Proof.
  induction segs as [|seg segs IH]; intros iterator p; cbn [follow subscribe_path].
  - by intros [= <-].
  - destruct (children (h !!! iterator) !! seg) as [c|]; [apply IH|done].
Qed.

(** X18.  A second subscription to a topic, by whatever subscriber, finds the
    node of the first: it allocates nothing, and both subscribers are in
    the set of that one node. *)
Theorem subscribers_share_a_node (topic : string) (s s' : Z) (t : TopicTree) :
  reachable t → sv_size topic < npos →
  ∃ it,
    subscriptions_of (subscribe topic s t) s = subscriptions_of t s ++ [it]
    ∧ subscriptions_of (subscribe topic s' (subscribe topic s t)) s'
      = subscriptions_of (subscribe topic s t) s' ++ [it]
    ∧ topics (subscribe topic s' (subscribe topic s t))
      = <[it := add_sub s' (node (subscribe topic s t) it)]> (topics (subscribe topic s t))
    ∧ length (topics (subscribe topic s' (subscribe topic s t)))
      = length (topics (subscribe topic s t))
    ∧ s ∈ subs (node (subscribe topic s' (subscribe topic s t)) it)
    ∧ s' ∈ subs (node (subscribe topic s' (subscribe topic s t)) it).
Proof.
  intros Hr Hsz.
  destruct (subscribe_effect topic s t Hr Hsz)
    as (it & Hfol & _ & Hit & Hlist & _ & Hsubs & _ & _ & _ & _ & Hrt & _).
  set (t1 := subscribe topic s t) in *.
  pose proof (subscribe_walk_segments topic (S (String.length topic)) Hsz
                (topics t1) (root t1) 0 0) as Hw.
  change (drop_string (Z.to_nat 0) topic) with topic in Hw.
  rewrite <- Hrt in Hfol. rewrite (follow_subscribe_path _ _ _ _ Hfol) in Hw.
  assert (subscribe_walk (S (String.length topic)) topic (topics t1) (root t1) 0 0
          = Some (topics t1, it)) as Hwalk by (apply Hw; unfold npos, sv_size in *; lia).
  rewrite (subscribe_eq topic s' t1 (topics t1) it Hwalk).
  exists it. unfold node, subscriptions_of in *. cbn [topics subscriptions].
  split; [done|]. split; [by rewrite lookup_insert_eq|]. split; [done|].
  split; [by rewrite length_insert|].
  rewrite list_lookup_total_insert_eq by done. cbn [add_sub subs].
  rewrite !elem_of_set_insert. specialize (Hsubs it).
  rewrite decide_True in Hsubs by done. rewrite Hsubs, elem_of_set_insert.
  split; [right; by left|by left].
Qed.

Lemma subscribers_share_a_node_witness :
  ∃ it, subscriptions_of (subscribe "a/b" 7 emptyTree) 7 = [it]
        ∧ subscriptions_of (subscribe "a/b" 9 (subscribe "a/b" 7 emptyTree)) 9 = [it].
Proof.
  assert (sv_size "a/b" < npos) as Hsz by (vm_compute; reflexivity).
  destruct (subscribers_share_a_node "a/b" 7 9 emptyTree reach_empty Hsz)
    as (it & H1 & H2 & _).
  exists it. split; [exact H1|].
  rewrite H2. vm_compute. reflexivity.
Defined.

(** ** subscribe, then unsubscribeAll *)

(** A subscriber is in the set of a node only if the node is in its
    list. *)
Lemma reachable_listed (t : TopicTree) :
  reachable t → ∀ p s, s ∈ subs (node t p) → p ∈ subscriptions_of t s.
Proof.
  induction 1 as [|topic s t Hs Hr IH|topic message t Hr IH|s t t' Hr IH Hu
                  |fuel t t' log Hr IH Hd]; intros p x Hx.
  - assert (subs (node emptyTree p) = []) as Hn by (destruct p as [|[|p]]; done).
    rewrite Hn in Hx. by apply elem_of_nil in Hx.
  - destruct (reachable_wf t Hr) as [[Hwa _] Htr].
    pose proof (wf_arena_closed _ _ Hwa) as Hcl.
    unfold subscribe, subscribe_fuel in *.
    destruct (subscribe_walk _ _ _ _ _ _) as [[h it]|] eqn:Hw; [|by apply IH].
    unfold node, subscriptions_of in *. cbn [default topics subscriptions] in *.
    unfold id in *. cbn [topics subscriptions] in *.
    pose proof (subscribe_walk_frame _ _ _ _ _ _ _ _ Hw Hcl (proj1 Hwa) p) as (Hsb & _).
    destruct (decide (p = it)) as [->|Hne].
    + destruct (decide (it < length h)%nat) as [Hlt|Hge].
      * rewrite list_lookup_total_insert_eq in Hx by done. cbn [add_sub subs] in Hx.
        apply elem_of_set_insert in Hx as [->|Hx].
        -- rewrite lookup_insert_eq. apply elem_of_app. right.
           by apply list_elem_of_singleton.
        -- rewrite Hsb in Hx. apply IH in Hx.
           destruct (decide (x = s)) as [->|Hxs].
           ++ rewrite lookup_insert_eq. apply elem_of_app. by left.
           ++ by rewrite lookup_insert_ne.
      * rewrite list_insert_ge in Hx by lia. rewrite Hsb in Hx. apply IH in Hx.
        destruct (decide (x = s)) as [->|Hxs].
        -- rewrite lookup_insert_eq. apply elem_of_app. by left.
        -- by rewrite lookup_insert_ne.
    + rewrite list_lookup_total_insert_ne in Hx by done. rewrite Hsb in Hx. apply IH in Hx.
      destruct (decide (x = s)) as [->|Hxs].
      * rewrite lookup_insert_eq. apply elem_of_app. by left.
      * by rewrite lookup_insert_ne.
  - destruct (publish_shape topic message t) as ([_ Hsh] & _ & Hsubs).
    destruct (Hsh p) as (_ & _ & _ & _ & _ & Hsame).
    unfold node, subscriptions_of in *. rewrite Hsubs. apply IH. by rewrite <- Hsame.
  - revert Hu Hx. unfold unsubscribeAll. destruct (s =? 0); [intros [= <-]; apply IH|].
    destruct (unsubscribe_each _ _ _ _ _) as [h'|] eqn:He; [|done].
    intros [= <-]. apply unsubscribe_each_trims in He as [_ Htr].
    destruct (Htr p) as (_ & _ & _ & _ & _ & Hsb & _).
    unfold node, subscriptions_of, set_topics. cbn [topics subscriptions].
    intros Hx. apply Hsb in Hx. by apply IH.
  - destruct (drain_shape fuel t t' log Hd) as ([_ Hsh] & _ & Hsubs).
    destruct (Hsh p) as (_ & _ & _ & _ & _ & Hsame).
    unfold node, subscriptions_of in *. rewrite Hsubs. apply IH. by rewrite <- Hsame.
Qed.

Lemma unused_trims (n n' : Topic) :
  trims n n' → links_ok n → unused n = true → unused n' = true.
Proof.
  intros (_ & _ & _ & _ & Hl & Hs & Hc) Hln Hu.
  apply unused_spec in Hu as (Hs0 & Hc0 & Ht0 & Hw0).
  destruct (Hl Hln) as [Hw' Ht'].
  assert (children n' = ∅) as Hc'.
  { apply map_empty. intros k. destruct (children n' !! k) as [c|] eqn:E; [|done].
    eapply lookup_weaken in E; [|exact Hc]. by rewrite Hc0, lookup_empty in E. }
  apply unused_spec. split.
  - destruct (subs n') as [|x r]; [done|]. exfalso.
    specialize (Hs x). rewrite Hs0 in Hs. eapply elem_of_nil, Hs. apply elem_of_cons. by left.
  - split; [done|]. by rewrite Ht', Hw', Hc', !lookup_empty.
Qed.

Lemma rooted_update (h : list Topic) (rt y : nat) (n' : Topic) :
  wf_arena h rt → name n' = name (h !!! y) → parent n' = parent (h !!! y) →
  ∀ x, rooted h rt x → (x ≤ y)%nat → rooted (<[y := n']> h) rt x.
Proof.
  intros Hwa Hn Hp x Hx. induction Hx as [|p q Hpar Hent Hq IH]; intros Hle.
  - apply rooted_root.
  - assert (p < length h)%nat as Hlt.
    { destruct (decide (p < length h)%nat) as [|Hge]; [done|].
      rewrite lookup_total_ge in Hpar by lia. done. }
    assert (q < p)%nat as Hqp.
    { pose proof (wf_arena_node h rt p Hwa Hlt) as (Hq' & _).
      rewrite Hpar in Hq'. by destruct Hq'. }
    assert (name (<[y := n']> h !!! p) = name (h !!! p)
            ∧ parent (<[y := n']> h !!! p) = parent (h !!! p)) as [Hn' Hp'].
    { destruct (decide (p = y)) as [->|Hne].
      - by rewrite list_lookup_total_insert_eq.
      - by rewrite list_lookup_total_insert_ne. }
    apply rooted_child with (q := q); [congruence| |apply IH; lia].
    rewrite Hn', list_lookup_total_insert_ne by lia. done.
Qed.

Lemma follow_rooted (h : list Topic) (rt : nat) (segs : list string) :
  wf_arena h rt → ∀ (a x : nat),
  rooted h rt a → (a < length h)%nat → follow h a segs = Some x → rooted h rt x.
Proof.
  intros Hwa. induction segs as [|seg segs IH]; intros a x Ha Hlt; cbn [follow].
  - by intros [= <-].
  - destruct (children (h !!! a) !! seg) as [c|] eqn:Hc; [|done].
    destruct (wf_arena_child h rt a seg c Hwa Hlt Hc) as (Hcl & Hpar & Hnm).
    apply IH; [|done].
    apply rooted_child with (q := a); [done| |done]. by rewrite Hnm.
Qed.

(** From a node linked to the root, [trimTree] removes only entries that
    lead to nodes it leaves unused. *)
Lemma trimTree_drops_unused (rt : nat) (fuel : nat) :
  ∀ (h : list Topic) (x : nat) (h' : list Topic),
  wf_arena h rt → (∀ y, links_ok (h !!! y)) → rooted h rt x → (x < length h)%nat →
  trimTree fuel rt x h = Some h' →
  ∀ q k c, children (h !!! q) !! k = Some c →
           children (h' !!! q) !! k = Some c ∨ unused (h' !!! c) = true.
Proof.
  induction fuel as [|fuel IH]; intros h x h' Hwa Hl Hx Hlt; cbn [trimTree];
    (destruct (unused (h !!! x)) eqn:Hu; [|intros [= <-] q k c Hc; by left]);
    (destruct (parent (h !!! x)) as [r|] eqn:Hpar; [|done]);
    (assert (children (h !!! r) !! name (h !!! x) = Some x ∧ rooted h rt r ∧ (r < x)%nat)
       as (Hent & Hr & Hrx);
     [ pose proof (wf_arena_node h rt x Hwa Hlt) as (Hp & _); rewrite Hpar in Hp;
       destruct Hp as [Hrx Hxr];
       destruct Hx as [|x q Hpar' Hent Hq]; [done|];
       assert (q = r) as -> by congruence; done |]);
    set (h2 := <[r := detach_child (name (h !!! x)) (h !!! r)]> h);
    (assert (h2 !!! x = h !!! x) as Hx2
       by (unfold h2; rewrite list_lookup_total_insert_ne by lia; done));
    (assert (∀ q k c, children (h !!! q) !! k = Some c →
                      (q = r ∧ k = name (h !!! x) ∧ c = x)
                      ∨ children (h2 !!! q) !! k = Some c) as Hsplit;
     [ intros q k c Hc; destruct (decide (q = r)) as [->|Hqr];
       [ destruct (decide (k = name (h !!! x))) as [->|Hk];
         [ left; split; [done|]; split; [done|]; congruence
         | right; unfold h2; rewrite list_lookup_total_insert_eq by lia;
           cbn [detach_child children]; by rewrite lookup_delete_ne ]
       | right; unfold h2; by rewrite list_lookup_total_insert_ne ] |]).
  - destruct (Nat.eqb_spec r rt) as [->|Hrr]; [|done].
    intros [= <-] q k c Hc. destruct (Hsplit q k c Hc) as [(-> & -> & ->)|Hc2].
    + right. by rewrite Hx2.
    + by left.
  - destruct (Nat.eqb_spec r rt) as [->|Hrr].
    + intros [= <-] q k c Hc. destruct (Hsplit q k c Hc) as [(-> & -> & ->)|Hc2].
      * right. by rewrite Hx2.
      * by left.
    + intros Hrec q k c Hc.
      pose proof (trims_insert h r _ (trims_detach_child (name (h !!! x)) (h !!! r)))
        as Htr12.
      assert (∀ y, links_ok (h2 !!! y)) as Hl2.
      { intros y. destruct (Htr12 y) as (_ & _ & _ & _ & Hly & _). apply Hly, Hl. }
      destruct (Hsplit q k c Hc) as [(-> & -> & ->)|Hc2].
      * right. pose proof (trimTree_trims rt fuel h2 r h' Hrec) as [_ Htr2].
        apply (unused_trims (h2 !!! x)); [apply Htr2|apply Hl2|by rewrite Hx2].
      * eapply (IH h2 r h'); [|exact Hl2| | |exact Hrec|exact Hc2].
        -- apply wf_arena_detach; [done|lia].
        -- apply rooted_update; [done|done|done|done|lia].
        -- unfold h2. rewrite length_insert. lia.
Qed.

Lemma subscribe_path_old (segs : list string) :
  ∀ (h : list Topic) (iterator : nat) (h' : list Topic) (it' : nat),
  subscribe_path h iterator segs = (h', it') →
  closed h → (iterator < length h)%nat →
  ∀ x, (x < length h)%nat →
       name (h' !!! x) = name (h !!! x) ∧ parent (h' !!! x) = parent (h !!! x)
       ∧ ∀ k c, children (h' !!! x) !! k = Some c →
                children (h !!! x) !! k = Some c ∨ (length h ≤ c)%nat.
Proof.
  induction segs as [|seg segs IH]; intros h iterator h' it'; cbn [subscribe_path].
  - intros [= <- <-] _ _ x _. split; [done|]. split; [done|]. intros k c Hc. by left.
  - destruct (children (h !!! iterator) !! seg) as [c|] eqn:Hc.
    + intros Hw Hcl Hit. eapply IH; [exact Hw|done|by eapply closed_lookup].
    + destruct (insert_child h iterator seg) as [h1 c] eqn:Hic.
      intros Hw Hcl Hit x Hx.
      assert (h1 = (insert_child h iterator seg).1) as Hh1 by (by rewrite Hic).
      assert (c = length h) as Hcn by (unfold insert_child in Hic; congruence).
      assert (length h1 = S (length h)) as Hlen1 by (rewrite Hh1; apply insert_child_length).
      destruct (IH h1 c h' it' Hw) with (x := x) as (Hn & Hp & He); [| |lia|].
      { rewrite Hh1. by apply insert_child_closed. }
      { lia. }
      assert (h1 !!! x = if decide (x = iterator) then
                mkTopic (name (h !!! iterator)) (parent (h !!! iterator))
                  (triggered (h !!! iterator))
                  (<[seg := length h]> (children (h !!! iterator)))
                  (if String.eqb seg "+" then Some (length h)
                   else wildcardChild (h !!! iterator))
                  (if String.eqb seg "#" then Some (length h)
                   else terminatingWildcardChild (h !!! iterator))
                  (messages (h !!! iterator)) (subs (h !!! iterator))
              else h !!! x) as Hnode.
      { rewrite Hh1, insert_child_node by done.
        destruct (decide (x = iterator)); [done|].
        destruct (decide (x = length h)); [lia|done]. }
      rewrite Hn, Hp. rewrite Hnode.
      split; [by destruct (decide (x = iterator)) as [->|]|].
      split; [by destruct (decide (x = iterator)) as [->|]|].
      intros k d Hd. destruct (He k d Hd) as [Hd1|Hd1]; [|right; lia].
      rewrite Hnode in Hd1. destruct (decide (x = iterator)) as [->|]; [|by left].
      cbn [children] in Hd1. destruct (decide (k = seg)) as [->|Hk].
      * rewrite lookup_insert_eq in Hd1. injection Hd1 as <-. by right.
      * rewrite lookup_insert_ne in Hd1 by done. by left.
Qed.

(** What [subscribe] leaves of the nodes that were there. *)
Lemma subscribe_effect_old (topic : string) (s : Z) (t : TopicTree) :
  reachable t → sv_size topic < npos →
  ∀ x, (x < length (topics t))%nat →
       name (node (subscribe topic s t) x) = name (node t x)
       ∧ parent (node (subscribe topic s t) x) = parent (node t x)
       ∧ ∀ k c, children (node (subscribe topic s t) x) !! k = Some c →
                children (node t x) !! k = Some c ∨ (length (topics t) ≤ c)%nat.
Proof.
  intros Hr Hsz x Hx.
  destruct (reachable_wf t Hr) as [[Hwa _] _].
  pose proof (wf_arena_closed _ _ Hwa) as Hcl.
  pose proof (subscribe_walk_segments topic (S (String.length topic)) Hsz
                (topics t) (root t) 0 0) as Hw.
  change (drop_string (Z.to_nat 0) topic) with topic in Hw.
  destruct (subscribe_path (topics t) (root t) (segments topic)) as [h it] eqn:Hp.
  assert (subscribe_walk (S (String.length topic)) topic (topics t) (root t) 0 0
          = Some (h, it)) as Hwalk by (apply Hw; unfold npos, sv_size in *; lia).
  rewrite (subscribe_eq topic s t h it Hwalk). unfold node. cbn [topics].
  destruct (subscribe_path_old _ _ _ _ _ Hp Hcl (proj1 Hwa) x Hx) as (Hn & Hpa & He).
  destruct (same_links_add_sub h it s x) as (Hc & _).
  assert (name (<[it := add_sub s (h !!! it)]> h !!! x) = name (h !!! x)
          ∧ parent (<[it := add_sub s (h !!! it)]> h !!! x) = parent (h !!! x))
    as [Hn' Hp'].
  { destruct (decide (x = it)) as [->|Hne].
    - destruct (decide (it < length h)%nat) as [Hlt|Hge].
      + by rewrite list_lookup_total_insert_eq.
      + by rewrite list_insert_ge by lia.
    - by rewrite list_lookup_total_insert_ne. }
  rewrite Hn', Hp', Hc. done.
Qed.

Lemma linked_used (h : list Topic) (rt q : nat) (k : string) (d : nat) :
  wf_arena h rt → trimmed h rt → (q < length h)%nat →
  children (h !!! q) !! k = Some d → unused (h !!! d) = false.
Proof.
  intros Hwa Htr Hq Hd.
  destruct (wf_arena_child h rt q k d Hwa Hq Hd) as (Hlt & Hpar & Hnm).
  pose proof (wf_arena_node h rt d Hwa Hlt) as (Hp & _). rewrite Hpar in Hp.
  destruct Hp as [_ Hdr].
  destruct (unused (h !!! d)) eqn:Hu; [|done].
  rewrite trimmed_spec in Htr. specialize (Htr d Hlt Hdr Hu).
  unfold detached in Htr. rewrite Hpar, Hnm in Htr. by destruct Htr as [Hne _].
Qed.

Lemma children_in_range (h : list Topic) (rt q : nat) (k : string) (d : nat) :
  wf_arena h rt → children (h !!! q) !! k = Some d →
  (q < d)%nat ∧ (d < length h)%nat.
Proof.
  intros Hwa Hd.
  assert (q < length h)%nat as Hq.
  { destruct (decide (q < length h)%nat) as [|Hge]; [done|].
    rewrite lookup_total_ge in Hd by lia. cbn [newTopic children] in Hd.
    by rewrite lookup_empty in Hd. }
  destruct (wf_arena_child h rt q k d Hwa Hq Hd) as (Hlt & Hpar & _).
  pose proof (wf_arena_node h rt d Hwa Hlt) as (Hp & _). rewrite Hpar in Hp.
  by destruct Hp.
Qed.

(** X19.  A subscriber new to the tree that subscribes and then unsubscribes
    leaves every node that was there as it was: the nodes allocated on the
    way are unlinked again (and stay in memory, unused), and of the
    subscriber only its list remains. *)
Theorem subscribe_then_unsubscribeAll (topic : string) (s : Z) (t : TopicTree) :
  reachable t → s ≠ 0 → sv_size topic < npos → subscriptions_of t s = [] →
  ∃ t', unsubscribeAll s (subscribe topic s t) = Some t'
    ∧ (∀ p, (p < length (topics t))%nat → node t' p = node t p)
    ∧ (∀ p, (length (topics t) ≤ p)%nat → unused (node t' p) = true)
    ∧ root t' = root t
    ∧ messageId t' = messageId t
    ∧ triggeredTopics t' = triggeredTopics t
    ∧ min t' = min t
    ∧ (∀ s', s' ≠ s → subscriptions_of t' s' = subscriptions_of t s').
Proof.
  intros Hr Hs0 Hsz Hnew.
  assert (∀ p, s ∉ subs (node t p)) as Hfresh.
  { intros p Hp. apply (reachable_listed t Hr) in Hp. rewrite Hnew in Hp.
    by apply elem_of_nil in Hp. }
  destruct (subscribe_effect topic s t Hr Hsz)
    as (it & Hfol & Hitr & Hit & Hlist & Hlists & Hsubs1 & Hdata1 & Hb1 & Hm1 & Hid1
        & Hrt1 & Hkeep1 & Hlen1).
  pose proof (subscribe_effect_old topic s t Hr Hsz) as Hold1.
  set (t1 := subscribe topic s t) in *.
  assert (reachable t1) as Hr1 by (by apply reach_subscribe).
  destruct (reachable_wf t Hr) as [[Hwa0 _] Htrim0].
  destruct (reachable_inv t Hr) as [Hinv0 _].
  destruct (reachable_wf t1 Hr1) as [Hwf1 Htrim1].
  destruct (reachable_inv t1 Hr1) as [Hinv1 _].
  destruct (unsubscribeAll_ok s t1 Hwf1 Htrim1)
    as (t' & Hu & Hgone & Hother & Htrim' & Hwf' & Hrt' & Hlen' & _ & Hsub' & Hb' & Hm').
  pose proof (reachable_inv t' (reach_unsubscribeAll s t1 t' Hr1 Hu)) as [Hinv' _].
  destruct Hwf1 as [Hwa1 Hsl1]. destruct Hwf' as [Hwa' _].
  exists t'. split; [done|].
  (* the frame of the second step, and what it removes *)
  assert (messageId t' = messageId t1 ∧ subscriptions t' = subscriptions t1
          ∧ (∀ x, trims (node t1 x) (node t' x))
          ∧ ∀ q k c, children (node t1 q) !! k = Some c →
                     children (node t' q) !! k = Some c ∨ unused (node t' c) = true)
    as (Hid' & Hsl' & Htr & Hdrop).
  { revert Hu. unfold unsubscribeAll. destruct (Z.eqb_spec s 0) as [|_]; [done|].
    rewrite Hlist, Hnew. cbn [app unsubscribe_each].
    destruct (trimTree _ _ _ _) as [h'|] eqn:Ht; [|done].
    intros [= <-]. unfold node, set_topics. cbn [topics messageId subscriptions].
    split; [done|]. split; [done|].
    pose proof (trims_insert (topics t1) it _ (trims_erase_sub s (topics t1 !!! it)))
      as Htr01.
    pose proof (trimTree_trims _ _ _ _ _ Ht) as [_ Htr12].
    split; [intros x; eapply trims_trans; [apply Htr01|apply Htr12]|].
    intros q k c Hc.
    eapply (trimTree_drops_unused _ _ _ _ _ _ _ _ _ Ht).
    Unshelve.
    - destruct (decide (q = it)) as [->|Hne].
      + rewrite list_lookup_total_insert_eq by done. done.
      + by rewrite list_lookup_total_insert_ne.
    - by apply wf_arena_erase_sub.
    - intros y. destruct (Htr01 y) as (_ & _ & _ & _ & Hl & _).
      apply Hl, (ti_links _ _ Hinv1).
    - apply rooted_update; [done|done|done| |done].
      apply (follow_rooted _ _ (segments topic) Hwa1 (root t1)); [apply rooted_root| |].
      + apply Hwa1.
      + by rewrite Hrt1.
    - by rewrite length_insert. }
  (* subscriber sets are back *)
  assert (∀ p, subs (node t' p) = subs (node t p)) as HA.
  { intros p. apply StronglySorted_lt_unique.
    - apply (sorted_node _ _ p Hwa').
    - apply (sorted_node _ _ p Hwa0).
    - intros x. split.
      + intros Hx. pose proof (Hsub' p x Hx) as Hx1. rewrite Hsubs1 in Hx1.
        destruct (decide (p = it)) as [->|Hne]; [|done].
        apply elem_of_set_insert in Hx1 as [->|Hx1]; [|done].
        exfalso. apply (Hgone Hs0 it); [|done].
        rewrite Hlist. apply elem_of_app. right. by apply list_elem_of_singleton.
      + intros Hx. assert (x ≠ s) as Hxs by (intros ->; by apply (Hfresh p)).
        apply Hother; [done|]. rewrite Hsubs1.
        destruct (decide (p = it)); [|done]. apply elem_of_set_insert. by right. }
  (* an entry of [t'] leads to a node in use *)
  assert (∀ q k d, children (node t' q) !! k = Some d → unused (node t' d) = false) as Hused'.
  { intros q k d Hd. destruct (children_in_range _ _ _ _ _ Hwa' Hd) as [Hqd Hdl].
    eapply linked_used; [exact Hwa'|exact Htrim'| |exact Hd]. lia. }
  (* the nodes allocated by [subscribe] are unused *)
  assert (∀ n x, (length (topics t1) - x ≤ n)%nat → (length (topics t) ≤ x)%nat →
                 unused (node t' x) = true) as HB.
  { induction n as [|n IHn]; intros x Hn Hx.
    - unfold node. rewrite lookup_total_ge by lia. done.
    - apply unused_spec.
      assert (children (node t' x) = ∅) as Hc.
      { apply map_empty. intros k. destruct (children (node t' x) !! k) as [d|] eqn:E; [|done].
        destruct (children_in_range _ _ _ _ _ Hwa' E) as [Hxd Hdl].
        pose proof (Hused' x k d E) as Hud.
        rewrite (IHn d) in Hud; [done|lia|lia]. }
      destruct (ti_links _ _ Hinv' x) as [Hw Hh].
      split.
      { rewrite HA. unfold node. by rewrite lookup_total_ge by lia. }
      split; [done|]. by rewrite Hh, Hw, Hc, !lookup_empty. }
  (* the entries that were there are kept *)
  assert (∀ n q k c, (length (topics t) - c ≤ n)%nat →
                     children (node t q) !! k = Some c →
                     children (node t' q) !! k = Some c) as HC.
  { induction n as [|n IHn]; intros q k c Hn Hc;
      destruct (children_in_range _ _ _ _ _ Hwa0 Hc) as [Hqc Hcl]; [lia|].
    assert (children (node t1 q) !! k = Some c) as Hc1 by (apply Hkeep1; [lia|done]).
    destruct (Hdrop q k c Hc1) as [|Hu']; [done|]. exfalso.
    assert (unused (node t c) = false) as Hu0.
    { eapply linked_used; [exact Hwa0|exact Htrim0| |exact Hc]. lia. }
    apply unused_spec in Hu' as (Hs' & Hc' & _).
    rewrite HA in Hs'.
    destruct (decide (children (node t c) = ∅)) as [He|Hne].
    - destruct (ti_links _ _ Hinv0 c) as [Hw Hh].
      assert (unused (node t c) = true) as Hu1; [|congruence].
      apply unused_spec. split; [done|]. split; [done|].
      by rewrite Hh, Hw, He, !lookup_empty.
    - apply map_choose in Hne as (k' & d & Hd).
      destruct (children_in_range _ _ _ _ _ Hwa0 Hd) as [Hcd Hdl].
      assert (children (node t' c) !! k' = Some d) as Hd' by (apply (IHn c k' d); [lia|done]).
      by rewrite Hc', lookup_empty in Hd'. }
  split.
  { intros p Hp.
    destruct (Htr p) as (Hn & Hpa & Htg & Hmsg & _ & _ & Hch).
    destruct (Hold1 p Hp) as (Hn1 & Hp1 & He1).
    destruct (Hdata1 p) as [Hmsg1 Htg1].
    assert (children (node t' p) = children (node t p)) as Hceq.
    { apply map_eq. intros k.
      destruct (children (node t p) !! k) as [c|] eqn:E.
      - apply (HC (length (topics t)) p k c); [lia|done].
      - destruct (children (node t' p) !! k) as [d|] eqn:E'; [|done]. exfalso.
        pose proof (lookup_weaken _ _ _ _ E' Hch) as E1.
        destruct (He1 k d E1) as [Hd|Hd]; [congruence|].
        pose proof (Hused' p k d E') as Hud.
        rewrite (HB (length (topics t1)) d) in Hud; [done|lia|done]. }
    destruct (ti_links _ _ Hinv' p) as [Hw' Hh'].
    destruct (ti_links _ _ Hinv0 p) as [Hw0 Hh0].
    specialize (HA p).
    destruct (node t' p) as [a1 a2 a3 a4 a5 a6 a7 a8] eqn:E1.
    destruct (node t p) as [b1 b2 b3 b4 b5 b6 b7 b8] eqn:E0.
    destruct (node t1 p) as [c1 c2 c3 c4 c5 c6 c7 c8] eqn:E2.
    cbn in *. congruence. }
  split; [intros p Hp; apply (HB (length (topics t1)) p); [lia|done]|].
  split; [congruence|]. split; [congruence|]. split; [congruence|]. split; [congruence|].
  intros s' Hs'. unfold subscriptions_of. rewrite Hsl'. by apply Hlists.
Qed.

Lemma subscribe_then_unsubscribeAll_witness :
  ∃ t', unsubscribeAll 7 (subscribe "a/b" 7 emptyTree) = Some t'
        ∧ node t' 0 = node emptyTree 0
        ∧ unused (node t' 1) = true ∧ unused (node t' 2) = true.
Proof.
  assert (sv_size "a/b" < npos) as Hsz by (vm_compute; reflexivity).
  assert (7 ≠ 0) as H7 by lia.
  assert (subscriptions_of emptyTree 7 = []) as Hnew by reflexivity.
  destruct (subscribe_then_unsubscribeAll "a/b" 7 emptyTree reach_empty H7 Hsz Hnew)
    as (t' & H1 & H2 & H3 & _).
  exists t'. split; [exact H1|]. split; [apply H2; simpl; lia|].
  split; apply H3; simpl; lia.
Defined.

(** ** print *)

Lemma elem_of_children_in_order (n : Topic) (k : string) (c : nat) :
  (k, c) ∈ children_in_order n ↔ children n !! k = Some c.
Proof.
  unfold children_in_order. rewrite merge_sort_Permutation. apply elem_of_map_to_list.
Qed.

Lemma print_children_visit (rec : nat → option (list string)) (line : nat → nat → string)
    (v : nat → list (nat * nat)) (i : nat) (l : list (string * nat)) :
  (∀ kc, kc ∈ l → rec kc.2 = Some (map (λ pd, line pd.1 pd.2) (v kc.2))) →
  print_children rec (λ c, line c i) l
  = Some (map (λ pd, line pd.1 pd.2) (flat_map (λ kc, (kc.2, i) :: v kc.2) l)).
Proof.
  induction l as [|kc l IH]; intros Hrec; [done|].
  cbn [print_children foldr flat_map].
  rewrite (Hrec kc) by (apply elem_of_cons; by left).
  unfold print_children in IH. rewrite IH.
  - by rewrite map_app.
  - intros kc' Hkc'. apply Hrec. apply elem_of_cons. by right.
Qed.

(** With fuel for the nodes below [root], [print] returns and writes one
    line for each node it visits. *)
Lemma print_below_visit (h : list Topic) (rt : nat) :
  wf_arena h rt → ∀ (fuel r i : nat),
  (length h - r ≤ fuel)%nat → (r < length h)%nat →
  print_below fuel h r i = Some (map (λ pd, print_line h pd.1 pd.2) (visit fuel h r i)).
Proof.
  intros Hwa. induction fuel as [|fuel IH]; intros r i Hf Hr; [lia|].
  cbn [print_below visit].
  apply (print_children_visit (λ c, print_below fuel h c (S i)) (print_line h)
           (λ c, visit fuel h c (S i))).
  intros [k c] Hkc. apply elem_of_children_in_order in Hkc.
  destruct (children_in_range h rt r k c Hwa Hkc) as [Hrc Hc].
  apply IH; cbn; lia.
Qed.


Lemma elem_of_flat_map_visit (g : string * nat → list (nat * nat)) (l : list (string * nat))
    (pd : nat * nat) :
  pd ∈ flat_map g l ↔ ∃ kc, kc ∈ l ∧ pd ∈ g kc.
Proof.
  induction l as [|kc l IH]; cbn [flat_map].
  - split; [by intros ?%elem_of_nil|]. intros (kc & Hkc & _). by apply elem_of_nil in Hkc.
  - rewrite elem_of_app, IH. split.
    + intros [H|(kc' & H1 & H2)].
      * exists kc. split; [apply elem_of_cons; by left|done].
      * exists kc'. split; [apply elem_of_cons; by right|done].
    + intros (kc' & [->|H1]%elem_of_cons & H2); [by left|].
      right. by exists kc'.
Qed.

(** [print] visits the nodes that the children maps lead to from [root],
    each at the indentation of its depth. *)
Lemma visit_spec (h : list Topic) (rt : nat) :
  wf_arena h rt → ∀ (fuel r i : nat),
  (length h - r ≤ fuel)%nat → (r < length h)%nat →
  ∀ p d, (p, d) ∈ visit fuel h r i
         ↔ ∃ pat, pat ≠ [] ∧ follow h r pat = Some p ∧ d = (i + length pat - 1)%nat.
Proof.
  intros Hwa. induction fuel as [|fuel IH]; intros r i Hf Hr p d; [lia|].
  cbn [visit]. rewrite elem_of_flat_map_visit. split.
  - intros ([k c] & Hkc & Hpd). apply elem_of_children_in_order in Hkc. cbn [snd] in Hpd.
    destruct (children_in_range h rt r k c Hwa Hkc) as [Hrc Hc].
    apply elem_of_cons in Hpd as [[= -> ->]|Hpd].
    + exists [k]. split; [done|]. cbn [follow]. rewrite Hkc. split; [done|]. simpl. lia.
    + apply IH in Hpd as (pat & Hne & Hfol & ->); [|lia|lia].
      exists (k :: pat). split; [done|]. cbn [follow]. rewrite Hkc. split; [done|].
      destruct pat; [done|]. simpl. lia.
  - intros ([|k pat] & Hne & Hfol & ->); [done|]. cbn [follow] in Hfol.
    destruct (children (h !!! r) !! k) as [c|] eqn:Hkc; [|done].
    destruct (children_in_range h rt r k c Hwa Hkc) as [Hrc Hc].
    exists (k, c). split; [by apply elem_of_children_in_order|]. cbn [snd].
    destruct pat as [|k' pat].
    + injection Hfol as <-. apply elem_of_cons. left. f_equal. simpl. lia.
    + apply elem_of_cons. right. apply IH; [lia|lia|].
      exists (k' :: pat). split; [done|]. split; [done|]. simpl. lia.
Qed.

Lemma above_le (h : list Topic) (rt c x : nat) :
  wf_arena h rt → above h c x → (c ≤ x)%nat.
Proof.
  intros Hwa Hx. induction Hx as [|x y Hpar Hy IH]; [done|].
  assert (x < length h)%nat as Hlt.
  { destruct (decide (x < length h)%nat) as [|Hge]; [done|].
    rewrite lookup_total_ge in Hpar by lia. done. }
  pose proof (wf_arena_node h rt x Hwa Hlt) as (Hp & _). rewrite Hpar in Hp. lia.
Qed.

Lemma above_siblings (h : list Topic) (rt r c c' x : nat) :
  wf_arena h rt → parent (h !!! c) = Some r → parent (h !!! c') = Some r → c ≠ c' →
  above h c x → above h c' x → False.
Proof.
  intros Hwa Hc Hc' Hne Hx. revert c' Hc' Hne.
  assert (∀ a b, parent (h !!! a) = Some r → parent (h !!! b) = Some r → a ≠ b →
                 above h b a → False) as Hself.
  { intros a b Ha Hb Hab Hba. destruct Hba as [|a y Hpar Hy]; [done|].
    assert (y = r) as -> by congruence.
    pose proof (above_le h rt b r Hwa Hy) as Hle.
    assert (b < length h)%nat as Hlt.
    { destruct (decide (b < length h)%nat) as [|Hge]; [done|].
      rewrite lookup_total_ge in Hb by lia. done. }
    pose proof (wf_arena_node h rt b Hwa Hlt) as (Hp & _). rewrite Hb in Hp. lia. }
  induction Hx as [|x y Hpar Hy IH]; intros c' Hc' Hne Hx'.
  - by apply (Hself c c').
  - destruct Hx' as [|x y' Hpar' Hy'].
    + apply (Hself c' c Hc' Hc); [intros E; by apply Hne|].
      eapply above_step; [exact Hpar|exact Hy].
    + assert (y' = y) as -> by congruence. by apply (IH c').
Qed.

Lemma visit_above (h : list Topic) (rt : nat) :
  wf_arena h rt → ∀ (fuel r i p d : nat),
  (p, d) ∈ visit fuel h r i → above h r p ∧ (r < p)%nat.
Proof.
  intros Hwa. induction fuel as [|fuel IH]; intros r i p d; cbn [visit].
  - by intros ?%elem_of_nil.
  - rewrite elem_of_flat_map_visit. intros ([k c] & Hkc & Hpd).
    apply elem_of_children_in_order in Hkc. cbn [snd] in Hpd.
    destruct (children_in_range h rt r k c Hwa Hkc) as [Hrc Hc].
    assert (parent (h !!! c) = Some r) as Hpar.
    { eapply wf_arena_child; [exact Hwa| |exact Hkc]. lia. }
    assert (above h r c) as Hac by (eapply above_step; [exact Hpar|apply above_refl]).
    apply elem_of_cons in Hpd as [[= -> ->]|Hpd]; [done|].
    apply IH in Hpd as [Hcp Hlt]. split; [|lia].
    clear -Hcp Hpar. induction Hcp as [|x y Hxy Hy IHy].
    + eapply above_step; [exact Hpar|apply above_refl].
    + eapply above_step; [exact Hxy|exact IHy].
Qed.

Lemma NoDup_children_in_order (n : Topic) : NoDup (children_in_order n).
Proof.
  unfold children_in_order. rewrite merge_sort_Permutation. apply NoDup_map_to_list.
Qed.

Lemma visit_NoDup (h : list Topic) (rt : nat) :
  wf_arena h rt → ∀ (fuel r i : nat),
  (r < length h)%nat → NoDup (map fst (visit fuel h r i)).
Proof.
  intros Hwa. induction fuel as [|fuel IH]; intros r i Hr; [apply NoDup_nil_2|].
  cbn [visit].
  pose proof (NoDup_children_in_order (h !!! r)) as Hnd.
  assert (∀ kc, kc ∈ children_in_order (h !!! r) →
                children (h !!! r) !! kc.1 = Some kc.2) as Hin.
  { intros [k c] Hkc. by apply elem_of_children_in_order. }
  revert Hnd Hin. generalize (children_in_order (h !!! r)) as l.
  induction l as [|[k c] l IHl]; intros Hnd Hin; [apply NoDup_nil_2|].
  apply NoDup_cons in Hnd as [Hkc Hnd].
  pose proof (Hin (k, c) ltac:(apply elem_of_cons; by left)) as Hc. cbn [fst snd] in Hc.
  destruct (children_in_range h rt r k c Hwa Hc) as [Hrc Hcl].
  destruct (wf_arena_child h rt r k c Hwa Hr Hc) as (_ & Hpar & Hnm).
  assert (∀ x, x ∈ map fst (flat_map (λ kc, (kc.2, i) :: visit fuel h kc.2 (S i)) l) →
               ∃ c', c' ≠ c ∧ parent (h !!! c') = Some r ∧ above h c' x) as Hrest.
  { intros x Hx. apply list_elem_of_fmap in Hx as ([p d] & -> & Hpd).
    apply elem_of_flat_map_visit in Hpd as ([k' c'] & Hkc' & Hpd). cbn [fst snd] in *.
    pose proof (Hin (k', c') ltac:(apply elem_of_cons; by right)) as Hc'.
    cbn [fst snd] in Hc'.
    destruct (wf_arena_child h rt r k' c' Hwa Hr Hc') as (_ & Hpar' & Hnm').
    exists c'. split; [|split; [done|]].
    - intros ->. apply Hkc. by rewrite <- Hnm, Hnm'.
    - apply elem_of_cons in Hpd as [[= -> ->]|Hpd]; [apply above_refl|].
      by apply (visit_above h rt Hwa) in Hpd as [? _]. }
  cbn [flat_map map fst snd]. rewrite map_app.
  apply NoDup_cons. split.
  - rewrite elem_of_app. intros [Hx|Hx].
    + apply list_elem_of_fmap in Hx as ([p d] & Hp & Hpd). cbn [fst] in Hp. subst p.
      apply (visit_above h rt Hwa) in Hpd as [_ Hlt]. lia.
    + destruct (Hrest c Hx) as (c' & Hne & Hpar' & Hab).
      by apply (above_siblings h rt r c c' c Hwa Hpar Hpar' ltac:(congruence)
                  (above_refl h c)).
  - apply NoDup_app. split; [by apply IH|]. split.
    + intros x Hx Hx'. destruct (Hrest x Hx') as (c' & Hne & Hpar' & Hab).
      apply list_elem_of_fmap in Hx as ([p d] & Hp & Hpd). cbn [fst] in Hp. subst p.
      apply (visit_above h rt Hwa) in Hpd as [Hac _].
      by apply (above_siblings h rt r c c' x Hwa Hpar Hpar' ltac:(congruence)).
    + apply IHl; [done|]. intros kc Hkc'. apply Hin. apply elem_of_cons. by right.
Qed.

(** X20.  [print] with a null [root], on a reachable tree: it returns (the
    recursion ends, the tree having no cycle), writes the heading and then
    one line for each node that the children maps lead to from the root,
    once, indented by its depth; a node that is unlinked is not
    listed. *)
Theorem print_lists_the_linked_nodes (t : TopicTree) :
  reachable t →
  ∃ nodes : list (nat * nat),
    print (length (topics t)) t None 1
    = Some ("Print of tree:"%string
              :: map (λ pd, print_line (topics t) pd.1 pd.2) nodes)
    ∧ NoDup (map fst nodes)
    ∧ ∀ p d, (p, d) ∈ nodes
             ↔ ∃ pat, pat ≠ [] ∧ follow (topics t) (root t) pat = Some p
                      ∧ d = length pat.
Proof.
  intros Hr. destruct (reachable_wf t Hr) as [[Hwa _] _].
  exists (visit (length (topics t)) (topics t) (root t) 1).
  split.
  { unfold print. rewrite (print_below_visit _ _ Hwa); [done|lia|apply Hwa]. }
  split; [apply (visit_NoDup _ _ Hwa), Hwa|].
  intros p d. rewrite (visit_spec _ _ Hwa); [|lia|apply Hwa].
  split; intros (pat & Hne & Hfol & ->); exists pat; (split; [done|]); (split; [done|]);
    destruct pat; [done|simpl; lia|done|simpl; lia].
Qed.

Lemma print_lists_the_linked_nodes_witness :
  ∃ nodes : list (nat * nat),
    print 3 (subscribe "a/b" 7 (publish "x" "M" emptyTree)) None 1
    = Some ("Print of tree:"%string
              :: map (λ pd, print_line
                              (topics (subscribe "a/b" 7 (publish "x" "M" emptyTree)))
                              pd.1 pd.2) nodes)
    ∧ NoDup (map fst nodes).
Proof.
  assert (reachable (subscribe "a/b" 7 (publish "x" "M" emptyTree))) as Hr.
  { apply reach_subscribe; [lia|]. apply reach_publish, reach_empty. }
  destruct (print_lists_the_linked_nodes _ Hr) as (nodes & H1 & H2 & _).
  assert (length (topics (subscribe "a/b" 7 (publish "x" "M" emptyTree))) = 3%nat) as E
    by (vm_compute; reflexivity).
  rewrite E in H1.
  exists nodes. split; [exact H1|exact H2].
Defined.

(** The lines [print] writes for a tree with the topic "a/b" and one
    subscriber. *)
Example print_of_one_subscription :
  print 3 (subscribe "a/b" 7 (publish "x" "M" emptyTree)) None 1
  = Some ["Print of tree:"; "  a = 0 publishes, 0 subscribers";
          "    b = 0 publishes, 1 subscribers"]%string.
Proof. vm_compute. reflexivity. Qed.

(** ** min between batches *)

Lemma fold_lower_none (cs : list (list Z)) (acc : Z) :
  live cs = 0 → fold_left lower cs acc = acc.
Proof.
  intros Hl. destruct (fold_lower_attained cs acc) as [|[r Hr]]; [done|].
  exfalso. assert (live cs ≠ 0) as Hne; [|done].
  apply live_pos_iff. by exists (fold_left lower cs acc), r.
Qed.

Lemma merge_step_cursors (t : TopicTree) (m : Merge) :
  length (it m) = length (triggeredTopics t) →
  it (merge_step t m) = map (advance (cur_min m)) (it m)
  ∧ cur_min (merge_step t m)
    = fold_left lower (map (advance (cur_min m)) (it m)) UINTPTR_MAX.
Proof.
  intros Hlen. unfold merge_step. rewrite scan_closed_form by done.
  by destruct (String.length _ =? 0)%nat.
Qed.

(** When the merge loop has run and returns, [min] is at its sentinel. *)
Lemma merge_loop_exit (t : TopicTree) (fuel : nat) : ∀ m m' : Merge,
  merge_loop fuel t m = Some m' →
  length (it m) = length (triggeredTopics t) → live (it m) <= nonEmpty m →
  nonEmpty m' = 0 ∧ (m' = m ∨ cur_min m' = UINTPTR_MAX).
Proof.
  induction fuel as [|fuel IH]; intros m m'; cbn [merge_loop];
    destruct (Z.eqb_spec (nonEmpty m) 0) as [Hz|Hnz];
    try (intros [= <-] _ _; split; [done|by left]); [done|].
  intros Hloop Hlen Hslack.
  destruct (merge_step_cursors t m Hlen) as [Hit Hmin].
  pose proof (merge_step_slack t m) as Hs.
  destruct (IH _ _ Hloop) as [Hz' [->|Hmax]].
  - by rewrite Hit, length_map.
  - lia.
  - split; [done|]. right. rewrite Hmin. apply fold_lower_none.
    pose proof (live_nonneg (it (merge_step t m))). rewrite <- Hit. lia.
  - split; [done|by right].
Qed.

Lemma drain_resets_min (fuel : nat) (t t' : TopicTree) (log : list (Z * string)) :
  drain fuel t = Some (t', log) → triggeredTopics t ≠ [] → min t' = UINTPTR_MAX.
Proof.
  unfold drain, numTriggeredTopics. intros Hd Hne.
  destruct (Z.eqb_spec (Z.of_nat (length (triggeredTopics t))) 0) as [Hz|Hnz].
  { destruct (triggeredTopics t); [done|simpl in Hz; lia]. }
  destruct (merge_loop fuel t (merge_init t)) as [m|] eqn:Hloop; [|done].
  injection Hd as <- <-. cbn [min].
  destruct (merge_loop_exit t fuel _ _ Hloop) as [Hz [->|Hmax]]; [| | |done].
  - unfold merge_init. cbn [it]. by rewrite length_map.
  - unfold merge_init. cbn [it nonEmpty]. unfold numTriggeredTopics.
    pose proof (live_le_length (map (λ p, subs (node t p)) (triggeredTopics t))) as H.
    by rewrite length_map in H.
  - unfold merge_init in Hz. cbn [nonEmpty] in Hz. unfold numTriggeredTopics in Hz. lia.
Qed.

Lemma store_all_min (message : string) (l : list nat) : ∀ t : TopicTree,
  triggeredTopics (store_all message l t) = [] → min (store_all message l t) = min t.
Proof.
  induction l as [|p l IH]; intros t; [done|].
  change (store_all message (p :: l) t)
    with (store_all message l (publish_store message p t)).
  intros Hnil. rewrite (IH _ Hnil).
  destruct (store_all_stores message l (publish_store message p t)) as ([k Hk] & _).
  rewrite Hnil in Hk. symmetry in Hk. apply app_eq_nil in Hk as [Hk _].
  destruct (triggered (node t p)) eqn:Htr.
  - unfold publish_store. by rewrite Htr.
  - destruct (publish_store_appends message p t Htr) as [Happ _].
    rewrite Happ in Hk. by apply app_eq_nil in Hk as [_ ?].
Qed.

Lemma reachable_min (t : TopicTree) :
  reachable t → triggeredTopics t = [] → min t = UINTPTR_MAX.
Proof.
  induction 1 as [|topic s t Hs Hr IH|topic message t Hr IH|s t t' Hr IH Hu
                  |fuel t t' log Hr IH Hd]; intros Hnil.
  - done.
  - destruct (subscribe_fields topic s t) as [Hb Hm]. rewrite Hm. apply IH. by rewrite <- Hb.
  - revert Hnil. unfold publish, publish_fuel. rewrite publish_walk_targets.
    destruct (publish_targets _ _ _ _ _ _) as [l|]; [|apply IH].
    change (triggeredTopics (store_all message l t) = [] →
            min (store_all message l t) = UINTPTR_MAX).
    intros Hnil. rewrite (store_all_min _ _ _ Hnil). apply IH.
    destruct (store_all_stores message l t) as ([k Hk] & _).
    rewrite Hnil in Hk. symmetry in Hk. by apply app_eq_nil in Hk as [? _].
  - revert Hu Hnil. unfold unsubscribeAll. destruct (s =? 0); [intros [= <-]; apply IH|].
    destruct (unsubscribe_each _ _ _ _ _) as [h'|]; [|done].
    intros [= <-]. apply IH.
  - destruct (triggeredTopics t) as [|p r] eqn:E.
    + rewrite (drain_empty_batch fuel t E) in Hd. injection Hd as <- _. by apply IH.
    + eapply drain_resets_min; [exact Hd|]. by rewrite E.
Qed.

(** X21.  [min] is back at its sentinel between batches: in every reachable
    state with an empty batch it is [UINTPTR_MAX], and every [drain] that
    returns leaves it there, also when it started from a stale [min]. *)
Theorem min_is_reset_between_batches (t : TopicTree) :
  reachable t →
  (triggeredTopics t = [] → min t = UINTPTR_MAX)
  ∧ ∀ fuel t' log, drain fuel t = Some (t', log) →
      triggeredTopics t' = [] ∧ min t' = UINTPTR_MAX.
Proof.
  intros Hr. split; [by apply reachable_min|].
  intros fuel t' log Hd.
  assert (triggeredTopics t' = []) as Hnil.
  { revert Hd. unfold drain. destruct (numTriggeredTopics t =? 0) eqn:E.
    - intros [= <- <-]. unfold numTriggeredTopics in E.
      destruct (triggeredTopics t); [done|simpl in E; lia].
    - destruct (merge_loop fuel t (merge_init t)); [|done]. by intros [= <- <-]. }
  split; [done|].
  apply reachable_min; [|done]. by eapply reach_drain.
Qed.

Lemma min_is_reset_between_batches_witness :
  ∃ t' log,
    drain 3 (subscribe "a" 3 (publish "a" "M" (subscribe "a" 5 emptyTree))) = Some (t', log)
    ∧ min t' = UINTPTR_MAX.
Proof.
  assert (reachable (subscribe "a" 3 (publish "a" "M" (subscribe "a" 5 emptyTree)))) as Hr.
  { apply reach_subscribe; [lia|]. apply reach_publish.
    apply reach_subscribe; [lia|apply reach_empty]. }
  destruct (drain 3 (subscribe "a" 3 (publish "a" "M" (subscribe "a" 5 emptyTree))))
    as [[t' log]|] eqn:E.
  - exists t', log. split; [reflexivity|].
    exact (proj2 (proj2 (min_is_reset_between_batches _ Hr) 3%nat t' log E)).
  - vm_compute in E. discriminate E.
Defined.

(** ** Nodes that have left the tree *)

(** X22.  No operation links a node of the arena again once no children map
    leads to it: [subscribe] links only the nodes it allocates, the other
    operations link nothing.  With no operation freeing a node, a node
    that was trimmed stays in memory, unlinked, for good. *)
Theorem unlinked_nodes_stay_unlinked (t : TopicTree) (p : nat) :
  reachable t → (p < length (topics t))%nat → ¬ linked (topics t) p →
  (∀ topic s, sv_size topic < npos →
     ¬ linked (topics (subscribe topic s t)) p
     ∧ (length (topics t) ≤ length (topics (subscribe topic s t)))%nat)
  ∧ (∀ topic message,
       ¬ linked (topics (publish topic message t)) p
       ∧ length (topics (publish topic message t)) = length (topics t))
  ∧ (∀ s t', unsubscribeAll s t = Some t' →
       ¬ linked (topics t') p ∧ length (topics t') = length (topics t))
  ∧ (∀ fuel t' log, drain fuel t = Some (t', log) →
       ¬ linked (topics t') p ∧ length (topics t') = length (topics t)).
Proof.
  intros Hr Hp Hun. split; [|split; [|split]].
  - intros topic s Hsz.
    destruct (subscribe_effect topic s t Hr Hsz) as (it & H).
    destruct H as (_ & _ & _ & _ & _ & _ & _ & _ & _ & _ & _ & _ & Hlen).
    split; [|lia]. intros (q & k & Hq). apply Hun.
    destruct (subscribe_wf topic s t (reachable_wf t Hr)) as [[Hwa1 _] _].
    destruct (children_in_range _ _ _ _ _ Hwa1 Hq) as [Hqp _].
    destruct (subscribe_effect_old topic s t Hr Hsz q ltac:(lia)) as (_ & _ & He).
    destruct (He k p Hq) as [Hold|Hnew]; [by exists q, k|lia].
  - intros topic message. destruct (publish_shape topic message t) as ([Hlen Hsh] & _).
    split; [|done]. intros (q & k & Hq). apply Hun. exists q, k.
    destruct (Hsh q) as (_ & _ & <- & _). exact Hq.
  - intros s t' Hu. revert Hu. unfold unsubscribeAll.
    destruct (s =? 0); [by intros [= <-]|].
    destruct (unsubscribe_each _ _ _ _ _) as [h'|] eqn:He; [|done].
    intros [= <-]. apply unsubscribe_each_trims in He as [Hlen Htr].
    cbn [set_topics topics]. split; [|done]. intros (q & k & Hq). apply Hun. exists q, k.
    destruct (Htr q) as (_ & _ & _ & _ & _ & _ & Hch).
    eapply lookup_weaken; [exact Hq|exact Hch].
  - intros fuel t' log Hd. destruct (drain_shape fuel t t' log Hd) as ([Hlen Hsh] & _).
    split; [|done]. intros (q & k & Hq). apply Hun. exists q, k.
    destruct (Hsh q) as (_ & _ & <- & _). exact Hq.
Qed.


Lemma unlinked_nodes_stay_unlinked_witness :
  ¬ linked (topics (subscribe "a/b" 20 deserted_tree)) 1
  ∧ (3 ≤ length (topics (subscribe "a/b" 20 deserted_tree)))%nat.
Proof.
  assert (reachable deserted_tree) as Hr.
  { apply (reach_unsubscribeAll 10 (subscribe "a/b" 10 emptyTree)).
    - apply reach_subscribe; [lia|apply reach_empty].
    - vm_compute. reflexivity. }
  assert (1 < length (topics deserted_tree))%nat as Hp by (vm_compute; lia).
  assert (¬ linked (topics deserted_tree) 1) as Hun.
  { intros (q & k & Hq).
    assert (children (topics deserted_tree !!! q) = ∅) as He.
    { destruct q as [|[|[|q]]]; vm_compute; reflexivity. }
    by rewrite He, lookup_empty in Hq. }
  assert (sv_size "a/b" < npos) as Hsz by (vm_compute; reflexivity).
  destruct (unlinked_nodes_stay_unlinked deserted_tree 1 Hr Hp Hun) as (H & _).
  destruct (H "a/b"%string 20 Hsz) as [H1 H2].
  split; [exact H1|].
  assert (length (topics deserted_tree) = 3%nat) as E by (vm_compute; reflexivity).
  rewrite E in H2. exact H2.
Defined.

(** ** The order of the children *)

Lemma key_le_total : Total key_le.
Proof. intros a b. unfold key_le. apply String.leb_total. Qed.

(** The children are visited in the order of their names. *)
Lemma children_in_order_sorted (n : Topic) : Sorted key_le (children_in_order n).
Proof. apply (@Sorted_merge_sort _ key_le _ key_le_total). Qed.

(** ** trimTree on a node of the tree *)

Lemma detach_subs (h : list Topic) (q : nat) (nm : string) (x : nat) :
  subs (<[q := detach_child nm (h !!! q)]> h !!! x) = subs (h !!! x).
Proof.
  destruct (decide (x = q)) as [->|Hne].
  - destruct (decide (q < length h)%nat) as [Hlt|Hge].
    + by rewrite list_lookup_total_insert_eq.
    + by rewrite list_insert_ge by lia.
  - by rewrite list_lookup_total_insert_ne.
Qed.

Lemma trimTree_subs (rt : nat) (fuel : nat) : ∀ (h : list Topic) (p : nat) (h' : list Topic),
  trimTree fuel rt p h = Some h' → ∀ x, subs (h' !!! x) = subs (h !!! x).
Proof.
  induction fuel as [|fuel IH]; intros h p h'; cbn [trimTree];
    (destruct (unused (h !!! p)); [|by intros [= <-]]);
    (destruct (parent (h !!! p)) as [par|]; [|done]);
    destruct (par =? rt)%nat; try done;
    try (intros [= <-] x; apply detach_subs).
  intros Hrec x. rewrite (IH _ _ _ Hrec). apply detach_subs.
Qed.


(** X23.  On a well-formed arena whose fast-path pointers agree with the children
    maps, [trimTree] called on a node that is linked to the root never
    unlinks a node that is in use: every entry of a children map is either
    still there afterwards or led to a node that is left unused (no
    subscribers, no children, no wildcard children).  It allocates and
    frees nothing and changes no name, parent, message, flag or subscriber
    set; children maps only lose entries. *)
Theorem trimTree_unlinks_only_unused_nodes (h : list Topic) (rt x fuel : nat)
    (h' : list Topic) :
  wf_arena h rt → (∀ y, links_ok (h !!! y)) → rooted h rt x → (x < length h)%nat →
  trimTree fuel rt x h = Some h' →
  length h' = length h
  ∧ (∀ q k c, children (h !!! q) !! k = Some c →
              children (h' !!! q) !! k = Some c ∨ unused (h' !!! c) = true)
  ∧ ∀ p, name (h' !!! p) = name (h !!! p)
         ∧ parent (h' !!! p) = parent (h !!! p)
         ∧ messages (h' !!! p) = messages (h !!! p)
         ∧ triggered (h' !!! p) = triggered (h !!! p)
         ∧ subs (h' !!! p) = subs (h !!! p)
         ∧ children (h' !!! p) ⊆ children (h !!! p).
Proof.
  intros Hwa Hl Hx Hlt Ht.
  destruct (trimTree_trims _ _ _ _ _ Ht) as [Hlen Htr].
  split; [done|]. split.
  - apply (trimTree_drops_unused _ _ _ _ _ Hwa Hl Hx Hlt Ht).
  - intros p. destruct (Htr p) as (H1 & H2 & H3 & H4 & _ & _ & H7).
    do 4 (split; [done|]). split; [|done].
    apply (trimTree_subs _ _ _ _ _ Ht).
Qed.

Lemma trimTree_unlinks_only_unused_nodes_witness :
  ∃ h' : list Topic,
    trimTree 3 0 2
      (<[2%nat := erase_sub 10 (topics (subscribe "a/b" 10 emptyTree) !!! 2%nat)]>
         (topics (subscribe "a/b" 10 emptyTree))) = Some h'
    ∧ length h' = 3%nat
    ∧ (children (h' !!! 0%nat) !! "a"%string = Some 1%nat
       ∨ unused (h' !!! 1%nat) = true)
    ∧ name (h' !!! 1%nat) = "a"%string
    ∧ subs (h' !!! 2%nat) = [].
Proof.
  set (t := subscribe "a/b" 10 emptyTree).
  set (h := <[2%nat := erase_sub 10 (topics t !!! 2%nat)]> (topics t)).
  assert (reachable t) as Hr by (apply reach_subscribe; [lia|apply reach_empty]).
  assert (wf_arena h 0) as Hwa.
  { destruct (reachable_wf t Hr) as [[Hwa _] _].
    apply (wf_arena_erase_sub (topics t) (root t) 2 10 Hwa). vm_compute; lia. }
  assert (∀ y, links_ok (h !!! y)) as Hl.
  { intros y. destruct (reachable_inv t Hr) as [Hinv _].
    pose proof (ti_links _ _ Hinv y) as Hy. unfold h.
    destruct (decide (y = 2%nat)) as [->|Hne].
    - rewrite list_lookup_total_insert_eq by (vm_compute; lia). exact Hy.
    - by rewrite list_lookup_total_insert_ne. }
  assert (rooted h 0 2) as Hx.
  { apply (rooted_child h 0 2 1); [vm_compute; reflexivity|vm_compute; reflexivity|].
    apply (rooted_child h 0 1 0); [vm_compute; reflexivity|vm_compute; reflexivity|].
    apply rooted_root. }
  assert (2 < length h)%nat as Hlt by (vm_compute; lia).
  destruct (trimTree 3 0 2 h) as [h'|] eqn:Ht; [|by vm_compute in Ht].
  exists h'. split; [done|].
  destruct (trimTree_unlinks_only_unused_nodes h 0 2 3 h' Hwa Hl Hx Hlt Ht)
    as (Hlen & Hkept & Hsame).
  split; [rewrite Hlen; vm_compute; reflexivity|].
  split; [apply (Hkept 0%nat "a"%string 1%nat); vm_compute; reflexivity|].
  split.
  - destruct (Hsame 1%nat) as (Hn & _). rewrite Hn. vm_compute. reflexivity.
  - destruct (Hsame 2%nat) as (_ & _ & _ & _ & Hs & _). rewrite Hs.
    vm_compute. reflexivity.
Defined.

(** ** drain: intersection keys of a small batch *)

Lemma matched_pattern (t : TopicTree) (s s' : Z) :
  matched_nodes t s = matched_nodes t s' → pattern t s = pattern t s'.
Proof.
  unfold pattern, matched_nodes, triggered_sets. rewrite !map_map.
  intros Hf. apply map_ext_in. intros p Hp%list_elem_of_In.
  apply bool_decide_ext. split; intros Hs.
  - assert (p ∈ filter (λ p, s ∈ subs (node t p)) (triggeredTopics t)) as Hin
      by (by apply list_elem_of_filter).
    rewrite Hf in Hin. by apply list_elem_of_filter in Hin as [? _].
  - assert (p ∈ filter (λ p, s' ∈ subs (node t p)) (triggeredTopics t)) as Hin
      by (by apply list_elem_of_filter).
    rewrite <- Hf in Hin. by apply list_elem_of_filter in Hin as [? _].
Qed.

(** ** The pattern of a node *)





(** ** drain: the payload of a subscriber *)

Lemma payload_union (t : TopicTree) (s : Z) :
  reachable t →
  ∃ c : list (Z * string),
    payload_of t s = fold_right String.append ""%string (map snd c)
    ∧ StronglySorted Z.lt (map fst c)
    ∧ ∀ k v, (k, v) ∈ c ↔ ∃ p, p ∈ triggeredTopics t ∧ s ∈ subs (node t p)
                              ∧ (k, v) ∈ messages (node t p).
Proof.
  intros Hr. destruct (reachable_inv t Hr) as [Hinv _].
  exists (complete_of (topics t) (matched_nodes t s)).
  destruct (complete_of_spec (topics t) (matched_nodes t s)) as [Hsorted Hat].
  split; [apply build_payload_spec|]. split; [done|].
  intros k v.
  assert ((k, v) ∈ complete_of (topics t) (matched_nodes t s)
          ↔ map_at k (complete_of (topics t) (matched_nodes t s)) = Some v) as ->.
  { split; [by apply elem_map_at|apply map_at_elem]. }
  rewrite Hat, first_at_spec.
  - unfold matched_nodes. split.
    + intros (p & Hp & Hv). apply list_elem_of_filter in Hp as [Hs Hp]. by exists p.
    + intros (p & Hp & Hs & Hv). exists p. split; [|done].
      apply list_elem_of_filter. done.
  - intros p. apply (ti_messages _ _ Hinv p).
  - intros p q w w'. apply (ti_same _ _ Hinv).
Qed.




(** ** The wildcards, for every subscriber *)







(** ** drain: the reset and its frame *)

Lemma reset_batch_other (l : list nat) : ∀ (h : list Topic) (p : nat),
  p ∉ l → reset_batch l h !!! p = h !!! p.
Proof.
  induction l as [|q l IH]; intros h p Hp; [done|].
  change (reset_batch (q :: l) h) with (reset_batch l (<[q := reset_topic (h !!! q)]> h)).
  apply not_elem_of_cons in Hp as [Hne Hp].
  rewrite IH by done. by rewrite list_lookup_total_insert_ne.
Qed.

(** C7: on a well-formed batch that fits the array [drain] returns; and
    whenever [drain] returns, every node that was in the batch has an
    empty message map and a false [triggered] flag and the batch is empty,
    while the arena keeps its size, the nodes outside the batch and the
    names, links and subscriber sets of all nodes are as before, as are
    the root, the sequence id and the subscription lists; a second
    [drain] right after it makes no call to [cb] and leaves the state as
    it is.  In a reachable state the nodes of the batch are nodes of the
    arena, and no node at all is left with a message or a set flag. *)
Theorem drain_resets_batch (t : TopicTree) :
  (batch_ok t → numTriggeredTopics t <= TRIGGERED_CAPACITY →
   ∃ t' log, drain (total (triggered_sets t)) t = Some (t', log))
  ∧ ∀ fuel t' log, drain fuel t = Some (t', log) →
      length (topics t') = length (topics t)
      ∧ (∀ p, p ∈ triggeredTopics t →
              messages (node t' p) = [] ∧ triggered (node t' p) = false)
      ∧ (∀ p, p ∉ triggeredTopics t → node t' p = node t p)
      ∧ (∀ p, name (node t' p) = name (node t p)
              ∧ parent (node t' p) = parent (node t p)
              ∧ children (node t' p) = children (node t p)
              ∧ wildcardChild (node t' p) = wildcardChild (node t p)
              ∧ terminatingWildcardChild (node t' p) = terminatingWildcardChild (node t p)
              ∧ subs (node t' p) = subs (node t p))
      ∧ root t' = root t
      ∧ messageId t' = messageId t
      ∧ subscriptions t' = subscriptions t
      ∧ triggeredTopics t' = []
      ∧ numTriggeredTopics t' = 0
      ∧ (∀ fuel', drain fuel' t' = Some (t', []))
      ∧ (reachable t →
         (∀ p, p ∈ triggeredTopics t → (p < length (topics t'))%nat)
         ∧ ∀ p, messages (node t' p) = [] ∧ triggered (node t' p) = false).
Proof.
  split.
  - intros Hok _. destruct (merge_loop_ok t Hok) as (m & Hloop & _).
    unfold drain. rewrite Hloop.
    destruct (numTriggeredTopics t =? 0); eauto.
  - intros fuel t' log Hd.
    destruct (drain_shape fuel t t' log Hd) as ([Hlen Hsh] & Hrt & Hsubs).
    destruct (drain_fields fuel t t' log Hd) as [Hnil Hid].
    split; [done|].
    assert ((∀ p, p ∈ triggeredTopics t →
                  messages (node t' p) = [] ∧ triggered (node t' p) = false)
            ∧ ∀ p, p ∉ triggeredTopics t → node t' p = node t p) as [Hclear Hother].
    { revert Hd. unfold drain, numTriggeredTopics.
      destruct (Z.eqb_spec (Z.of_nat (length (triggeredTopics t))) 0) as [Hz|Hnz].
      - intros [= <- <-].
        assert (triggeredTopics t = []) as E
          by (destruct (triggeredTopics t); [done|simpl in Hz; lia]).
        rewrite E. split; [|done]. intros p Hp. by apply elem_of_nil in Hp.
      - destruct (merge_loop fuel t (merge_init t)) as [m|]; [|done].
        intros [= <- <-]. unfold node. cbn [topics]. split.
        + intros p Hp. by apply reset_batch_clears.
        + intros p Hp. by apply reset_batch_other. }
    split; [done|]. split; [done|]. split; [intros p; apply Hsh|].
    split; [done|]. split; [done|]. split; [done|]. split; [done|].
    split; [unfold numTriggeredTopics; by rewrite Hnil|].
    split.
    { intros fuel'. unfold drain, numTriggeredTopics. by rewrite Hnil. }
    intros Hr. split.
    + intros p Hp. rewrite Hlen.
      destruct (reachable_inv t Hr) as [Hinv _].
      apply (ti_flags _ _ Hinv) in Hp.
      destruct (decide (p < length (topics t))%nat) as [|Hge]; [done|].
      unfold node in Hp. rewrite lookup_total_ge in Hp by lia. done.
    + by destruct (drain_inv fuel t t' log (reachable_inv t Hr) Hd) as [_ Hall].
Qed.

Lemma drain_resets_batch_witness :
  ∃ t' log, drain 2 two_topic_batch = Some (t', log)
    ∧ length (topics t') = length (topics two_topic_batch)
    ∧ (∀ p, p ∈ triggeredTopics two_topic_batch →
            messages (node t' p) = [] ∧ triggered (node t' p) = false)
    ∧ triggeredTopics t' = []
    ∧ ∀ fuel', drain fuel' t' = Some (t', []).
Proof.
  destruct (drain_resets_batch two_topic_batch) as [Hret Hreset].
  destruct (Hret batch_ok_two_topic_batch) as (t' & log & Hd).
  { vm_compute. discriminate. }
  assert (total (triggered_sets two_topic_batch) = 2%nat) as E by (vm_compute; reflexivity).
  rewrite E in Hd.
  exists t', log. split; [exact Hd|].
  destruct (Hreset 2%nat t' log Hd) as (H1 & H2 & _ & _ & _ & _ & _ & H8 & _ & H10 & _).
  split; [exact H1|]. split; [exact H2|]. split; [exact H8|exact H10].
Defined.


(** ** drain: the payloads it hands out *)

(** X13.  On a well-formed batch of at most 32 nodes, in a state within
    the limits of the program, [drain] returns, calls [cb] for the
    subscribers of the nodes of the batch, and every payload it passes is
    the messages of the nodes of the batch that subscriber belongs to,
    put together in ascending order of sequence id, a message that is on
    several of these nodes taken once. *)
Theorem payload_is_the_ordered_union (t : TopicTree) :
  within_limits t → batch_ok t → (length (triggeredTopics t) ≤ 32)%nat →
  ∃ t' log,
    drain (total (triggered_sets t)) t = Some (t', log)
    ∧ (∀ s, s ∈ map fst log ↔ ∃ p, p ∈ triggeredTopics t ∧ s ∈ subs (node t p))
    ∧ ∀ s pl, (s, pl) ∈ log →
        ∃ c : list (Z * string),
          pl = fold_right String.append ""%string (map snd c)
          ∧ StronglySorted Z.lt (map fst c)
          ∧ ∀ k v, (k, v) ∈ c ↔ ∃ p, p ∈ triggeredTopics t ∧ s ∈ subs (node t p)
                                    ∧ (k, v) ∈ messages (node t p).
Proof.
  intros Hl Hok Hle.
  destruct (drain_delivers_once t Hok) as (t' & log & Hd & _ & _ & Hin & Hpl).
  exists t', log. split; [done|]. split; [done|].
  intros s pl Hlog. rewrite (Hpl Hle) in Hlog.
  apply list_elem_of_fmap in Hlog as (s' & [= <- ->] & _).
  apply payload_union. by apply within_limits_reachable.
Qed.

Lemma payload_is_the_ordered_union_witness :
  ∃ t' log, drain 2 two_topic_batch = Some (t', log)
    ∧ 10 ∈ map fst log
    ∧ ∀ s pl, (s, pl) ∈ log →
        ∃ c, pl = fold_right String.append ""%string (map snd c)
             ∧ StronglySorted Z.lt (map fst c).
Proof.
  assert (length (triggeredTopics two_topic_batch) ≤ 32)%nat as Hle by (vm_compute; lia).
  destruct (payload_is_the_ordered_union two_topic_batch
              within_limits_two_topic_batch batch_ok_two_topic_batch Hle)
    as (t' & log & Hd & Hin & Hpl).
  assert (total (triggered_sets two_topic_batch) = 2%nat) as E by (vm_compute; reflexivity).
  rewrite E in Hd.
  exists t', log. split; [exact Hd|]. split.
  - apply Hin. exists 2%nat. split; [vm_compute; right; left|vm_compute; left].
  - intros s pl Hlog. destruct (Hpl s pl Hlog) as (c & H1 & H2 & _).
    exists c. split; [exact H1|exact H2].
Defined.

(** ** drain: the keys of the cache *)

Lemma merge_step_call (t : TopicTree) (m : Merge) :
  ∃ pl, calls (merge_step t m) = calls m ++ [(cur_min m, pl)]
        ∧ intersectionCache (merge_step t m) !! intersection_of t m = Some pl.
Proof.
  unfold merge_step, intersection_of. cbv zeta.
  set (a := scan (cur_min m) 0 (it m) (triggeredTopics t)
              (mkScan [] (nonEmpty m) UINTPTR_MAX 0 [])).
  destruct (intersectionCache m !! sc_intersection a) as [v|] eqn:E; simpl.
  - destruct (Nat.eqb_spec (String.length v) 0) as [Hz|Hnz]; simpl.
    + eexists. split; [reflexivity|]. apply lookup_insert_eq.
    + exists v. split; [reflexivity|done].
  - eexists. split; [reflexivity|]. apply lookup_insert_eq.
Qed.

Lemma merge_loop_at (t : TopicTree) (fuel : nat) : ∀ m0 m : Merge,
  merge_loop fuel t m0 = Some m →
  ∃ k, m = Nat.iter k (merge_step t) m0 ∧ nonEmpty m = 0
       ∧ ∀ j, (j < k)%nat → nonEmpty (Nat.iter j (merge_step t) m0) ≠ 0.
Proof.
  induction fuel as [|fuel IH]; intros m0 m; cbn [merge_loop];
    destruct (Z.eqb_spec (nonEmpty m0) 0) as [Hz|Hnz]; try done.
  - intros [= <-]. exists 0%nat. split; [done|]. split; [done|]. lia.
  - intros [= <-]. exists 0%nat. split; [done|]. split; [done|]. lia.
  - intros Hloop. destruct (IH _ _ Hloop) as (k & -> & Hz & Hrun).
    exists (S k). rewrite Nat.iter_succ_r. split; [done|]. split; [done|].
    intros [|j] Hj; [done|]. rewrite Nat.iter_succ_r. apply Hrun. lia.
Qed.

Lemma merge_at_inv (t : TopicTree) (n : nat) :
  batch_ok t → (∀ j, (j < n)%nat → nonEmpty (merge_at j t) ≠ 0) →
  merge_inv t (merge_at n t).
Proof.
  intros Hok. induction n as [|n IH]; intros Hrun.
  - by apply merge_init_inv.
  - change (merge_at (S n) t) with (merge_step t (merge_at n t)).
    apply merge_step_inv; [by apply batch_ok_sets| |].
    + apply IH. intros j Hj. apply Hrun. lia.
    + apply Hrun. lia.
Qed.

Lemma merge_at_calls (t : TopicTree) (n : nat) :
  map fst (calls (merge_at n t)) = map (λ j, cur_min (merge_at j t)) (seq 0 n).
Proof.
  induction n as [|n IH]; [done|].
  change (merge_at (S n) t) with (merge_step t (merge_at n t)).
  destruct (merge_step_call t (merge_at n t)) as (pl & -> & _).
  rewrite seq_S, !map_app, IH. done.
Qed.

(** On a well-formed batch, the key of an iteration is the mask of the
    nodes of the batch its subscriber belongs to. *)
Lemma intersection_of_key (t : TopicTree) (n : nat) :
  batch_ok t → runs n t →
  intersection_of t (merge_at n t) = key_of t (cur_min (merge_at n t))
  ∧ Exists (λ S, cur_min (merge_at n t) ∈ S) (triggered_sets t).
Proof.
  intros Hok Hrun.
  assert (merge_inv t (merge_at n t)) as Hinv.
  { apply merge_at_inv; [done|]. intros j Hj. apply Hrun. lia. }
  assert (nonEmpty (merge_at n t) ≠ 0) as Hne by (by apply Hrun).
  pose proof (inv_attained t _ Hinv Hne) as Hatt. split; [|done].
  unfold intersection_of. rewrite (inv_it t _ Hinv).
  apply (merge_scan t (cur_min (merge_at n t)) (nonEmpty (merge_at n t)));
    [by apply batch_ok_sets|done|].
  rewrite (inv_nonEmpty t _ Hinv). by rewrite (inv_it t _ Hinv).
Qed.

(** X24.  On a well-formed batch of at most 32 nodes the merge of [drain]
    serves every subscriber of the batch in an iteration of its own, in
    which it calls [cb] with the payload that the cache then holds under
    the key [intersection] of that iteration; and the keys tell the
    subsets of the batch apart: two iterations compute the same key
    exactly when their subscribers belong to the same nodes of the
    batch. *)
Theorem small_batch_keys_tell_subsets_apart (t : TopicTree) :
  batch_ok t → (length (triggeredTopics t) ≤ 32)%nat →
  (∃ k, merge_loop (total (triggered_sets t)) t (merge_init t) = Some (merge_at k t)
        ∧ ∀ n, runs n t ↔ (n < k)%nat)
  ∧ (∀ s, (∃ p, p ∈ triggeredTopics t ∧ s ∈ subs (node t p))
          ↔ ∃ n, runs n t ∧ cur_min (merge_at n t) = s)
  ∧ (∀ n, runs n t →
       ∃ pl, calls (merge_at (S n) t)
             = calls (merge_at n t) ++ [(cur_min (merge_at n t), pl)]
             ∧ intersectionCache (merge_at (S n) t) !! intersection_of t (merge_at n t)
               = Some pl)
  ∧ ∀ n n', runs n t → runs n' t →
      (intersection_of t (merge_at n t) = intersection_of t (merge_at n' t)
       ↔ matched_nodes t (cur_min (merge_at n t))
         = matched_nodes t (cur_min (merge_at n' t))).
Proof.
  intros Hok Hle.
  destruct (merge_loop_ok t Hok) as (m & Hloop & Hinv & Hz).
  destruct (merge_loop_at t _ _ _ Hloop) as (k & Hm & _ & Hrun).
  fold (merge_at k t) in Hm. subst m.
  assert (∀ n, runs n t ↔ (n < k)%nat) as Hruns.
  { intros n. split.
    - intros Hn. destruct (decide (n < k)%nat) as [|Hge]; [done|].
      exfalso. apply (Hn k); [lia|done].
    - intros Hn j Hj. apply Hrun. lia. }
  split; [by exists k|]. split; [|split].
  - intros s. rewrite <- all_subscribers_spec.
    rewrite <- (merge_done_calls t _ (batch_ok_sets t Hok) Hinv Hz), merge_at_calls.
    rewrite list_elem_of_fmap. split.
    + intros (j & -> & Hj). apply elem_of_seq in Hj. exists j. split; [|done].
      apply Hruns. lia.
    + intros (n & Hn & <-). exists n. split; [done|].
      apply elem_of_seq. apply Hruns in Hn. lia.
  - intros n _. apply merge_step_call.
  - intros n n' Hn Hn'.
    destruct (intersection_of_key t n Hok Hn) as [-> _].
    destruct (intersection_of_key t n' Hok Hn') as [-> _].
    split.
    + intros Hk. by apply pattern_matched, key_of_inj.
    + intros Hm. unfold key_of. by rewrite (matched_pattern t _ _ Hm).
Qed.

Lemma small_batch_keys_tell_subsets_apart_witness :
  runs 0 two_topic_batch ∧ runs 1 two_topic_batch
  ∧ cur_min (merge_at 0 two_topic_batch) = 10
  ∧ cur_min (merge_at 1 two_topic_batch) = 20
  ∧ intersection_of two_topic_batch (merge_at 0 two_topic_batch)
    ≠ intersection_of two_topic_batch (merge_at 1 two_topic_batch).
Proof.
  assert (length (triggeredTopics two_topic_batch) ≤ 32)%nat as Hlen
    by (vm_compute; lia).
  destruct (small_batch_keys_tell_subsets_apart two_topic_batch
              batch_ok_two_topic_batch Hlen) as (_ & _ & _ & Hkeys).
  assert (runs 0 two_topic_batch) as H0.
  { intros j Hj. assert (j = 0%nat) as -> by lia. vm_compute. discriminate. }
  assert (runs 1 two_topic_batch) as H1.
  { intros j Hj. destruct j as [|[|j]]; [vm_compute; discriminate..|lia]. }
  split; [exact H0|]. split; [exact H1|].
  split; [vm_compute; reflexivity|]. split; [vm_compute; reflexivity|].
  intros Hk. apply (Hkeys 0%nat 1%nat H0 H1) in Hk. vm_compute in Hk. discriminate Hk.
Defined.


(** ** drain: what is built and what is taken from the cache *)

Lemma merge_step_built (t : TopicTree) (m : Merge) :
  built (merge_step t m)
  = if (String.length (default ""%string (intersectionCache m !! intersection_of t m))
        =? 0)%nat
    then built m ++ [cur_min m] else built m.
Proof.
  unfold merge_step, intersection_of. cbv zeta.
  by destruct (String.length _ =? 0)%nat.
Qed.

(** With at most 32 nodes in the batch, a subscriber whose payload is
    empty never finds it in the cache. *)
Lemma empty_payload_built (t : TopicTree) (n : nat) :
  batch_ok t → (length (triggeredTopics t) ≤ 32)%nat →
  (∀ j, (j < n)%nat → nonEmpty (merge_at j t) ≠ 0) →
  ∀ s, s ∈ map fst (calls (merge_at n t)) → payload_of t s = ""%string →
       s ∈ built (merge_at n t).
Proof.
  intros Hok Hle. induction n as [|n IH]; intros Hrun s Hs Hempty.
  - by apply elem_of_nil in Hs.
  - assert (runs n t) as Hn by (intros j Hj; apply Hrun; lia).
    assert (merge_inv t (merge_at n t)) as Hinv
      by (apply merge_at_inv; [done|]; intros j Hj; apply Hrun; lia).
    change (merge_at (S n) t) with (merge_step t (merge_at n t)) in *.
    destruct (merge_step_call t (merge_at n t)) as (pl & Hcalls & _).
    rewrite Hcalls, map_app in Hs. rewrite merge_step_built.
    apply elem_of_app in Hs as [Hs|Hs].
    + assert (s ∈ built (merge_at n t)) as Hb
        by (apply IH; [intros j Hj; apply Hrun; lia|done|done]).
      destruct (String.length _ =? 0)%nat; [apply elem_of_app; by left|done].
    + apply list_elem_of_singleton in Hs. cbn [fst] in Hs. subst s.
      destruct (intersection_of_key t n Hok Hn) as [Hkey _].
      destruct (intersectionCache (merge_at n t) !! intersection_of t (merge_at n t))
        as [v|] eqn:E; cbn [default from_option id].
      * destruct (decide (v = ""%string)) as [->|Hv].
        { cbn. apply elem_of_app. right. by left. }
        exfalso. destruct (inv_cache t _ Hinv _ _ E Hv) as (s' & _ & Hk & Hpl).
        apply Hv. rewrite Hpl, <- Hempty. unfold payload_of. f_equal.
        apply pattern_matched, key_of_inj; [done|]. by rewrite <- Hk, Hkey.
      * cbn. apply elem_of_app. right. by left.
Qed.

(** X25.  Within one drain of a well-formed batch that fits the array,
    the number of calls to [cb] is the number of distinct subscribers; a
    subscriber served after another one with the same matched subset and
    a non-empty payload takes that payload from the cache, and the number
    of non-empty payloads built is at most the number of distinct matched
    subsets.  An empty payload is never found in the cache: with at most
    32 nodes in the batch it is built for every subscriber that is owed
    one. *)
Theorem drain_builds_once (t : TopicTree) :
  batch_ok t → numTriggeredTopics t <= TRIGGERED_CAPACITY →
  ∃ m, merge_loop (total (triggered_sets t)) t (merge_init t) = Some m
    ∧ map fst (calls m) = all_subscribers t
    ∧ length (calls m) = length (all_subscribers t)
    ∧ (∀ s, s ∈ built m → s ∈ all_subscribers t)
    ∧ (∀ s1 s2, s1 ∈ all_subscribers t → s1 < s2 → pattern t s1 = pattern t s2 →
                payload_of t s1 ≠ ""%string → s2 ∉ built m)
    ∧ (length (filter (λ s, payload_of t s ≠ ""%string) (built m))
       ≤ length (remove_dups (map (pattern t) (all_subscribers t))))%nat
    ∧ ((length (triggeredTopics t) ≤ 32)%nat →
       ∀ s, s ∈ all_subscribers t → payload_of t s = ""%string → s ∈ built m).
Proof.
  intros Hok _.
  destruct (merge_loop_ok t Hok) as (m & Hloop & Hinv & Hz).
  pose proof (merge_done_calls t m (batch_ok_sets t Hok) Hinv Hz) as Hcalls.
  exists m. split; [done|]. split; [done|]. split.
  { by rewrite <- Hcalls, length_map. }
  split.
  { intros s Hs. rewrite <- Hcalls. by apply (inv_built t m Hinv). }
  split.
  { intros s1 s2 H1 Hlt Hpat Hne Hb. apply Hne.
    apply (inv_reuse t m Hinv s2 s1 Hb); [by rewrite Hcalls|done|].
    unfold key_of. by rewrite Hpat. }
  split.
  { set (L := filter (λ s, payload_of t s ≠ ""%string) (built m)).
    rewrite <- (length_map (pattern t) L).
    apply submseteq_length, NoDup_submseteq.
    - apply (NoDup_fmap_1 (λ bs, mask_acc 0 bs 0)).
      change ((λ bs, mask_acc 0 bs 0) <$> map (pattern t) L)
        with (map (λ bs, mask_acc 0 bs 0) (map (pattern t) L)).
      rewrite map_map. apply (inv_keys t m Hinv).
    - intros bs Hbs. apply elem_of_remove_dups.
      apply list_elem_of_In, in_map_iff in Hbs as (s & <- & Hs).
      apply list_elem_of_In, list_elem_of_filter in Hs as [_ Hs].
      apply list_elem_of_In, in_map. apply list_elem_of_In.
      rewrite <- Hcalls. by apply (inv_built t m Hinv). }
  intros Hle s Hs Hempty.
  destruct (merge_loop_at t _ _ _ Hloop) as (k & Hm & _ & Hrun).
  fold (merge_at k t) in Hm. subst m.
  apply (empty_payload_built t k Hok Hle); [exact Hrun| |done].
  by rewrite Hcalls.
Qed.

Lemma batch_ok_shared_payload_batch : batch_ok shared_payload_batch.
Proof.
  assert (triggered_sets shared_payload_batch = [[1; 2]]) as Hs by (vm_compute; reflexivity).
  assert (min shared_payload_batch = 1) as Hm by (vm_compute; reflexivity).
  unfold batch_ok. rewrite Hs, Hm. split.
  - apply Forall_singleton. split; [done|]. split.
    + repeat constructor.
    + repeat constructor; unfold UINTPTR_MAX; lia.
  - right. apply Exists_cons. left. left.
Qed.

Lemma drain_builds_once_witness :
  payload_of shared_payload_batch 1 = "M"%string
  ∧ ∃ m, merge_loop 2 shared_payload_batch (merge_init shared_payload_batch) = Some m
      ∧ length (calls m) = 2%nat
      ∧ 2 ∉ built m.
Proof.
  split; [vm_compute; reflexivity|].
  assert (numTriggeredTopics shared_payload_batch <= TRIGGERED_CAPACITY) as Hcap
    by (vm_compute; discriminate).
  destruct (drain_builds_once shared_payload_batch batch_ok_shared_payload_batch Hcap)
    as (m & Hloop & _ & Hlen & _ & Hreuse & _).
  exists m. split; [exact Hloop|]. split; [exact Hlen|].
  apply (Hreuse 1 2).
  - vm_compute. left.
  - lia.
  - vm_compute. reflexivity.
  - vm_compute. discriminate.
Defined.
